(** * Smart Voting System: ledger and cryptographic core

    A shallow embedding of [src/lib/crypto.ts] and [src/lib/blockchain.ts]
    and the properties of the ledger, the proof-of-work search, the GF(256)
    arithmetic and the secret sharing built on it.

    Conventions of the embedding.
    - A JavaScript number is an integer [Z]; where the code can read
      [undefined] or compute [NaN] (a typed-array read out of range) the
      value is an [option Z] with [None] for both, which the code never
      tells apart.
    - A string is a Rocq [string], one character per UTF-16 code unit
      (code units below 256).
    - A [Uint8Array] the code makes and keeps is the [list Z] of its
      elements; every store into one is reduced modulo 256 as the typed
      array does. The array of a share, which a caller can hand in, is a
      window on a buffer ([Uint8Array.t]).
    - Numbers are exact where doubles are: the integers of magnitude up
      to 2^53; strings are no longer than the engine allows.
    - [throw] and a rejected promise are the [Throw] result; [async]
      functions run in the same monad as the rest, over a world that
      holds the random source and the clock. *)

From Stdlib Require Import ZArith List String Ascii Bool Lia.
From stdpp Require Import base option list strings gmap.

Local Open Scope string_scope.
Local Open Scope Z_scope.

(** ** Results and the world monad *)

Inductive exn : Type :=
| Error (message : string)   (* [throw new Error(message)] *)
| RangeError                 (* raised by [String.prototype.repeat] *)
| TypeError                  (* property read on [undefined] *)
| OutOfFuel.                 (* not an exception of the code: the budget of
                                a modelled [while (true)] ran out *)

Inductive result (A : Type) : Type :=
| Ok (a : A)
| Throw (e : exn).
Arguments Ok {A} a.
Arguments Throw {A} e.

(** The world: [entropy] is what [crypto.getRandomValues] will hand out,
    byte after byte, [clock] what successive [Date.now()] calls return. *)
Record World : Type := mkWorld {
  entropy : nat -> Z;
  drawn : nat;
  clock : nat -> Z;
  ticks : nat
}.

Definition M (A : Type) : Type := World -> result (A * World).

Definition ret {A} (a : A) : M A := fun w => Ok (a, w).

Definition bind {A B} (m : M A) (f : A -> M B) : M B :=
  fun w => match m w with
           | Ok (a, w') => f a w'
           | Throw e => Throw e
           end.

Definition throw {A} (e : exn) : M A := fun _ => Throw e.

Definition lift {A} (r : result A) : M A :=
  fun w => match r with Ok a => Ok (a, w) | Throw e => Throw e end.

(** The same sequencing for code that only throws. *)
Definition rbind {A B} (r : result A) (f : A -> result B) : result B :=
  match r with Ok a => f a | Throw e => Throw e end.

Fixpoint foldM {A B} (f : A -> B -> M A) (l : list B) (a : A) : M A :=
  match l with
  | [] => ret a
  | b :: l' => bind (f a b) (foldM f l')
  end.

Fixpoint rfold {A B} (f : A -> B -> result A) (l : list B) (a : A) : result A :=
  match l with
  | [] => Ok a
  | b :: l' => rbind (f a b) (rfold f l')
  end.

Declare Scope world_scope.
Delimit Scope world_scope with world.
Notation "'let*' x ':=' c1 'in' c2" := (bind c1 (fun x => c2))
  (at level 10, x pattern, c1 at level 100, c2 at level 200) : world_scope.
Notation "'let?' x ':=' c1 'in' c2" := (rbind c1 (fun x => c2))
  (at level 10, x pattern, c1 at level 100, c2 at level 200) : world_scope.
Local Open Scope world_scope.

(** [Date.now()] *)
Definition Date_now : M Z :=
  fun w => Ok (clock w (ticks w),
               mkWorld (entropy w) (drawn w) (clock w) (S (ticks w))).

(** ** JavaScript primitives used by the code *)
Module JS.

Definition toInt32 (z : Z) : Z := (z + 2^31) mod 2^32 - 2^31.

(** The operands of [^] go through ToInt32; [undefined] and [NaN] give 0. *)
Definition toInt32o (v : option Z) : Z :=
  match v with Some z => toInt32 z | None => 0 end.

Definition xor (a b : option Z) : Z := Z.lxor (toInt32o a) (toInt32o b).

(** A store into a [Uint8Array]. *)
Definition toUint8 (v : option Z) : Z :=
  match v with Some z => z mod 256 | None => 0 end.

(** The [%] operator: the sign follows the dividend. *)
Definition rem (a : option Z) (m : Z) : option Z :=
  match a with Some z => Some (Z.rem z m) | None => None end.

Definition add (a b : option Z) : option Z :=
  match a, b with Some x, Some y => Some (x + y) | _, _ => None end.

Definition sub (a b : option Z) : option Z :=
  match a, b with Some x, Some y => Some (x - y) | _, _ => None end.

(** [a === 0] *)
Definition isZero (a : option Z) : bool :=
  match a with Some z => z =? 0 | None => false end.

(** A typed-array read [t[i]]. *)
Definition at_ (t : list Z) (i : option Z) : option Z :=
  match i with
  | Some z => if 0 <=? z then t !! Z.to_nat z else None
  | None => None
  end.

Definition digitChar (d : Z) : ascii :=
  ascii_of_nat (Z.to_nat (if d <? 10 then 48 + d else 87 + d)).

Fixpoint digits (fuel : nat) (radix n : Z) (acc : string) : string :=
  match fuel with
  | O => acc
  | S fuel' =>
      let acc' := String (digitChar (n mod radix)) acc in
      if n <? radix then acc' else digits fuel' radix (n / radix) acc'
  end.

(** [Number.isSafeInteger(n)]: on these integers the arithmetic of doubles
    is the one of [Z]. *)
Definition isSafeInteger (n : Z) : Prop := - 2 ^ 53 < n < 2 ^ 53.

(** [n.toString(radix)] on an integer: plain digits, lower case. This is
    what the code prints for the integers of magnitude up to 2^53. (Above,
    a double prints the shortest digits that read back as the same double;
    these still are plain digits below 10^21, from where base 10 goes to
    exponent notation.) *)
Definition toString (radix n : Z) : string :=
  if n <? 0
  then String "-" (digits (S (Z.to_nat (Z.log2 (- n)))) radix (- n) EmptyString)
  else digits (S (Z.to_nat (Z.log2 n))) radix n EmptyString.

Fixpoint repeatChar (n : nat) (c : ascii) : string :=
  match n with O => EmptyString | S n' => String c (repeatChar n' c) end.

(** [s.padStart(len, c)] with a one-character filler. *)
Definition padStart (len : nat) (c : ascii) (s : string) : string :=
  repeatChar (len - String.length s) c +:+ s.

(** The longest string the engine makes: 2^29 - 24 characters in V8. *)
Definition maxStringLength : Z := 2 ^ 29 - 24.

(** [c.repeat(count)] on a one-character string, for a count up to
    [maxStringLength]. (A longer string is refused with a RangeError as
    well; what is proved of the callers says where it stays below.) *)
Definition repeat (c : ascii) (count : Z) : result string :=
  if count <? 0 then Throw RangeError else Ok (repeatChar (Z.to_nat count) c).

(** [s.startsWith(t)] *)
Definition startsWith (s t : string) : bool := String.prefix t s.

Definition digitValue (c : ascii) : option Z :=
  let n := Z.of_nat (nat_of_ascii c) in
  if (48 <=? n) && (n <=? 57) then Some (n - 48)
  else if (97 <=? n) && (n <=? 122) then Some (n - 87)
  else if (65 <=? n) && (n <=? 90) then Some (n - 55)
  else None.

Fixpoint parseDigits (radix : Z) (s : string) (acc : option Z) : option Z :=
  match s with
  | EmptyString => acc
  | String c s' =>
      match digitValue c with
      | Some d =>
          if d <? radix
          then parseDigits radix s'
                 (Some (match acc with Some a => a * radix + d | None => d end))
          else acc
      | None => acc
      end
  end.

(** [parseInt(s, radix)] on a string without sign, blank or prefix, which
    is all the code passes: the longest run of digits, [NaN] if none. *)
Definition parseInt (s : string) (radix : Z) : option Z :=
  parseDigits radix s None.

End JS.

(** ** SHA-256

    [crypto.subtle.digest('SHA-256', _)] is the platform's SHA-256
    (FIPS 180-4), on bytes, written out here so that the ledger can be run. *)
Module SHA256.

Definition w32 (x : Z) : Z := Z.land x 0xffffffff.
Definition rotr (n x : Z) : Z :=
  Z.lor (Z.shiftr x n) (w32 (Z.shiftl x (32 - n))).
Definition Ch (x y z : Z) : Z :=
  Z.lxor (Z.land x y) (Z.land (Z.lxor x 0xffffffff) z).
Definition Maj (x y z : Z) : Z :=
  Z.lxor (Z.lxor (Z.land x y) (Z.land x z)) (Z.land y z).
Definition bsig0 (x : Z) : Z := Z.lxor (Z.lxor (rotr 2 x) (rotr 13 x)) (rotr 22 x).
Definition bsig1 (x : Z) : Z := Z.lxor (Z.lxor (rotr 6 x) (rotr 11 x)) (rotr 25 x).
Definition ssig0 (x : Z) : Z := Z.lxor (Z.lxor (rotr 7 x) (rotr 18 x)) (Z.shiftr x 3).
Definition ssig1 (x : Z) : Z := Z.lxor (Z.lxor (rotr 17 x) (rotr 19 x)) (Z.shiftr x 10).

(** The constants are the first 32 bits of the fractional parts of the cube
    roots ([K]) and of the square roots ([H0]) of the first primes. *)
Definition isPrime (n : nat) : bool :=
  forallb (fun d => negb (n mod d =? 0)%nat) (seq 2 (n - 2)).

Definition primes : list Z := map Z.of_nat (firstn 64 (filter isPrime (seq 2 310))).

Fixpoint cubeRoot (bits : nat) (n r : Z) : Z :=
  match bits with
  | O => r
  | S bits' =>
      let c := r + 2 ^ Z.of_nat bits' in
      cubeRoot bits' n (if c * c * c <=? n then c else r)
  end.

Definition K : list Z :=
  Eval vm_compute in map (fun p => w32 (cubeRoot 40 (p * 2 ^ 96) 0)) primes.

Record state : Type := mkState {
  ha : Z; hb : Z; hc : Z; hd : Z; he : Z; hf : Z; hg : Z; hh : Z
}.

Definition H0 : state :=
  Eval vm_compute in
    let r := fun i => w32 (Z.sqrt (nth i primes 0 * 2 ^ 64)) in
    mkState (r 0%nat) (r 1%nat) (r 2%nat) (r 3%nat) (r 4%nat) (r 5%nat) (r 6%nat) (r 7%nat).

(** Padding: a one bit, zeros up to 56 modulo 64, the bit length on 8 bytes. *)
Definition be_bytes (n : nat) (x : Z) : list Z :=
  map (fun i => Z.land (Z.shiftr x (8 * Z.of_nat i)) 0xff) (rev (seq 0 n)).

Definition pad (msg : list Z) : list Z :=
  let len := Z.of_nat (length msg) in
  msg ++ [0x80] ++ List.repeat 0 (Z.to_nat ((55 - len) mod 64))
      ++ be_bytes 8 (8 * len).

Fixpoint words (fuel : nat) (bs : list Z) : list Z :=
  match fuel, bs with
  | S fuel', b0 :: b1 :: b2 :: b3 :: rest =>
      Z.lor (Z.shiftl b0 24) (Z.lor (Z.shiftl b1 16) (Z.lor (Z.shiftl b2 8) b3))
      :: words fuel' rest
  | _, _ => []
  end.

(** The message schedule, kept newest word first. *)
Fixpoint schedule (n : nat) (r : list Z) : list Z :=
  match n with
  | O => r
  | S n' =>
      let w := w32 (ssig1 (nth 1 r 0) + nth 6 r 0 + ssig0 (nth 14 r 0) + nth 15 r 0) in
      schedule n' (w :: r)
  end.

Definition round (s : state) (kw : Z * Z) : state :=
  let t1 := hh s + bsig1 (he s) + Ch (he s) (hf s) (hg s) + fst kw + snd kw in
  let t2 := bsig0 (ha s) + Maj (ha s) (hb s) (hc s) in
  mkState (w32 (t1 + t2)) (ha s) (hb s) (hc s)
          (w32 (hd s + t1)) (he s) (hf s) (hg s).

Definition compress (s : state) (block : list Z) : state :=
  let w := rev (schedule 48 (rev block)) in
  let t := fold_left round (combine K w) s in
  mkState (w32 (ha s + ha t)) (w32 (hb s + hb t)) (w32 (hc s + hc t))
          (w32 (hd s + hd t)) (w32 (he s + he t)) (w32 (hf s + hf t))
          (w32 (hg s + hg t)) (w32 (hh s + hh t)).

Fixpoint blocks (fuel : nat) (ws : list Z) (s : state) : state :=
  match fuel, ws with
  | S fuel', _ :: _ => blocks fuel' (skipn 16 ws) (compress s (firstn 16 ws))
  | _, _ => s
  end.

Definition digest (msg : list Z) : list Z :=
  let p := pad msg in
  let s := blocks (length p) (words (length p) p) H0 in
  be_bytes 4 (ha s) ++ be_bytes 4 (hb s) ++ be_bytes 4 (hc s) ++ be_bytes 4 (hd s)
    ++ be_bytes 4 (he s) ++ be_bytes 4 (hf s) ++ be_bytes 4 (hg s) ++ be_bytes 4 (hh s).

End SHA256.

(** ** crypto.ts *)
Module Crypto.

(** [bufferToHex]: every byte as two lower-case hex digits. *)
Definition bufferToHex (buffer : list Z) : string :=
  fold_right String.append EmptyString
    (map (fun b => JS.padStart 2 "0" (JS.toString 16 b)) buffer).

(** [TextEncoder.encode] on one code unit below 256: UTF-8. *)
Definition utf8 (c : ascii) : list Z :=
  let n := Z.of_nat (nat_of_ascii c) in
  if n <? 128 then [n]
  else [Z.lor 0xc0 (Z.shiftr n 6); Z.lor 0x80 (Z.land n 0x3f)].

Definition stringToBuffer (str : string) : list Z :=
  flat_map utf8 (list_ascii_of_string str).

Definition sha256 (data : string) : string :=
  bufferToHex (SHA256.digest (stringToBuffer data)).


(** [generateRandomBytes]: the next [length] bytes of the random source. *)
Definition generateRandomBytes (length : nat) : M (list Z) :=
  fun w => Ok (map (fun i => entropy w (drawn w + i)%nat mod 256) (seq 0 length),
               mkWorld (entropy w) (drawn w + length)%nat (clock w) (ticks w)).

Definition generateNonce : M string :=
  let* bytes := generateRandomBytes 16 in ret (bufferToHex bytes).

(** *** GF(256) tables *)

(** One turn of the loop of [initGF256]; the state is [x] and both tables. *)
Definition initStep (st : Z * list Z * list Z) (i : nat) : Z * list Z * list Z :=
  let '(xv, E, L) := st in
  let E := <[i := xv]> E in
  let L := <[Z.to_nat xv := Z.of_nat i]> L in
  let xv := Z.shiftl xv 1 in
  let xv := if Z.land xv 0x100 =? 0 then xv else Z.lxor xv 0x11b in
  (xv, E, L).

Definition initGF256 : list Z * list Z :=
  let '(_, E, L) :=
    fold_left initStep (seq 0 255) (1, List.repeat 0 256%nat, List.repeat 0 256%nat) in
  (<[255%nat := nth 0 E 0]> E, L).

Definition EXP_TABLE : list Z := Eval vm_compute in fst initGF256.
Definition LOG_TABLE : list Z := Eval vm_compute in snd initGF256.

Definition gfMul (a b : option Z) : option Z :=
  if JS.isZero a || JS.isZero b then Some 0
  else JS.at_ EXP_TABLE
         (JS.rem (JS.add (JS.at_ LOG_TABLE a) (JS.at_ LOG_TABLE b)) 255).

Definition gfDiv (a b : option Z) : result (option Z) :=
  if JS.isZero b then Throw (Error "Division by zero")
  else if JS.isZero a then Ok (Some 0)
  else Ok (JS.at_ EXP_TABLE
             (JS.rem (JS.add (JS.sub (JS.at_ LOG_TABLE a) (JS.at_ LOG_TABLE b))
                             (Some 255)) 255)).

(** *** Shamir's secret sharing *)

(** The [y] of a share is a [Uint8Array], a window on an [ArrayBuffer]: it
    is given by the bytes of the buffer before the window, its elements and
    the bytes after. An array made by [new Uint8Array(...)] spans a buffer
    of its own; one handed in by a caller (a [subarray], say) need not. *)
Module Uint8Array.

Record t : Type := mk { before : list Z; elements : list Z; after : list Z }.

(** [new Uint8Array(length)], [new Uint8Array(values)] *)
Definition new (elements : list Z) : t := mk [] elements [].

(** [a.buffer]: the bytes of the whole [ArrayBuffer] *)
Definition buffer (a : t) : list Z := (before a ++ elements a ++ after a)%list.

(** [a[i] = v], which does nothing out of range *)
Definition set (a : t) (i : nat) (v : Z) : t :=
  mk (before a) (<[i := v]> (elements a)) (after a).

(** [a.byteOffset === 0 && a.length === a.buffer.byteLength] *)
Definition whole (a : t) : Prop := before a = [] /\ after a = [].

End Uint8Array.

Record Share : Type := { x : Z; yArray : Uint8Array.t }.

(** The elements of [share.y]: what [share.y[i]] and [share.y.length] read. *)
Definition y (share : Share) : list Z := Uint8Array.elements (yArray share).

(** [{ x, y: new Uint8Array(...) }] *)
Definition mkShare (x : Z) (elements : list Z) : Share :=
  Build_Share x (Uint8Array.new elements).

(** [coefficients[i] = generateRandomBytes(1)[0]] for [count] indices. *)
Fixpoint drawCoefficients (count : nat) : M (list Z) :=
  match count with
  | O => ret []
  | S count' =>
      let* b := generateRandomBytes 1 in
      let* rest := drawCoefficients count' in
      ret (JS.toUint8 (b !! 0%nat) :: rest)
  end.

(** The inner loop of [shamirSplit] over [i < k]: [y] and [xPow]. *)
Definition evalStep (xv : Z) (st : Z * option Z) (c : Z) : Z * option Z :=
  let '(yv, xPow) := st in
  (JS.xor (Some yv) (gfMul (Some c) xPow), gfMul xPow (Some xv)).

Definition evalPoly (coefficients : list Z) (xv : Z) : Z :=
  fst (fold_left (evalStep xv) coefficients (0, Some 1)).

(** One turn of the loop over [byteIdx]. *)
Definition splitByte (secret : list Z) (k : Z)
    (shares : list Share) (byteIdx : nat) : M (list Share) :=
  let* drawn := drawCoefficients (Z.to_nat (k - 1)) in
  let coefficients := JS.toUint8 (secret !! byteIdx) :: drawn in
  ret (map (fun sh =>
              Build_Share (x sh)
                (Uint8Array.set (yArray sh) byteIdx
                   (JS.toUint8 (Some (evalPoly coefficients (x sh))))))
           shares).

Definition shamirSplit (secret : list Z) (n k : Z) : M (list Share) :=
  if n <? k then throw (Error "Threshold cannot exceed total shares")
  else if k <? 2 then throw (Error "Threshold must be at least 2")
  else
    let shares :=
      map (fun i => mkShare (Z.of_nat i) (List.repeat 0 (length secret)))
          (seq 1 (Z.to_nat n)) in
    foldM (splitByte secret k) (seq 0 (length secret)) shares.

(** The loop over [j] of [shamirCombine], for the share at position [i]. *)
Definition lagrangeStep (i : nat) (si : Share)
    (lagrange : option Z) (jsj : nat * Share) : result (option Z) :=
  let '(j, sj) := jsj in
  if (i =? j)%nat then Ok lagrange
  else
    let num := x sj in
    let den := JS.xor (Some (x si)) (Some (x sj)) in
    let? q := gfDiv (Some num) (Some den) in
    Ok (gfMul lagrange q).

Definition indexed {A} (l : list A) : list (nat * A) := combine (seq 0 (length l)) l.

(** The loop over [i]: [value ^= gfMul(shares[i].y[byteIdx], lagrange)]. *)
Definition combineStep (shares : list Share) (byteIdx : nat)
    (value : Z) (isi : nat * Share) : result Z :=
  let '(i, si) := isi in
  let? lagrange := rfold (lagrangeStep i si) (indexed shares) (Some 1) in
  Ok (JS.xor (Some value) (gfMul (y si !! byteIdx) lagrange)).

Definition shamirCombine (shares : list Share) : result (list Z) :=
  if (length shares <? 2)%nat then Throw (Error "Need at least 2 shares")
  else
    match shares with
    | [] => Throw TypeError
    | s0 :: _ =>
        let secretLength := length (y s0) in
        rfold (fun secret byteIdx =>
                 let? value := rfold (combineStep shares byteIdx) (indexed shares) 0 in
                 Ok (<[byteIdx := JS.toUint8 (Some value)]> secret))
              (seq 0 secretLength) (List.repeat 0 secretLength)
    end.

(** *** Textual shares *)

(** What is written is [share.y.buffer], the whole buffer under the array. *)
Definition encodeShare (share : Share) : string :=
  "SHARD-" +:+ JS.padStart 2 "0" (JS.toString 10 (x share)) +:+ ":"
    +:+ bufferToHex (Uint8Array.buffer (yArray share)).

Definition isDigit (c : ascii) : bool :=
  let n := nat_of_ascii c in (48 <=? n)%nat && (n <=? 57)%nat.

(** [[a-f0-9]] under the [i] flag. *)
Definition isHex (c : ascii) : bool :=
  let n := nat_of_ascii c in
  isDigit c || ((97 <=? n)%nat && (n <=? 102)%nat)
            || ((65 <=? n)%nat && (n <=? 70)%nat).

Definition upper (c : ascii) : ascii :=
  let n := nat_of_ascii c in
  if (97 <=? n)%nat && (n <=? 122)%nat then ascii_of_nat (n - 32) else c.

(** A literal of the pattern, matched at the head without regard to case;
    what follows it is returned. *)
Fixpoint literal (lit s : string) : option string :=
  match lit, s with
  | EmptyString, _ => Some s
  | String a lit', String b s' =>
      if Ascii.eqb (upper a) (upper b) then literal lit' s' else None
  | _, _ => None
  end.

(** The longest head of [s] whose characters satisfy [p], and the rest. *)
Fixpoint span (p : ascii -> bool) (s : string) : string * string :=
  match s with
  | String c s' =>
      if p c then let '(h, t) := span p s' in (String c h, t) else (EmptyString, s)
  | EmptyString => (EmptyString, EmptyString)
  end.

(** [encoded.match(/^SHARD-(\d+):([a-f0-9]+)$/i)]: the two groups. *)
Definition matchShare (encoded : string) : option (string * string) :=
  match literal "SHARD-" encoded with
  | None => None
  | Some rest =>
      let '(g1, rest) := span isDigit rest in
      match g1, rest with
      | String _ _, String ":" rest =>
          let '(g2, rest) := span isHex rest in
          match g2, rest with
          | String _ _, EmptyString => Some (g1, g2)
          | _, _ => None
          end
      | _, _ => None
      end
  end.

(** [s.match(/.{1,2}/g)] on a string without line ends. *)
Fixpoint pairs (fuel : nat) (s : string) : list string :=
  match fuel, s with
  | S fuel', String a (String b s') => String a (String b EmptyString) :: pairs fuel' s'
  | S _, String a EmptyString => [String a EmptyString]
  | _, _ => []
  end.

Definition decodeShare (encoded : string) : result Share :=
  match matchShare encoded with
  | None => Throw (Error "Invalid share format")
  | Some (g1, g2) =>
      match JS.parseInt g1 10 with
      | Some xv =>
          Ok (mkShare xv
                (map (fun byte => JS.toUint8 (JS.parseInt byte 16))
                     (pairs (String.length g2) g2)))
      | None => Throw TypeError   (* not reached: group 1 is a run of digits *)
      end
  end.

(** *** Proof of work *)

(** The body of [while (true)] in [mineBlock]. The loop gives the control
    back every 100 attempts ([setTimeout(resolve, 0)]), which changes no
    value. [fuel] bounds the turns of the model. *)
Fixpoint mineLoop (fuel : nat) (data previousHash target : string)
    (attempts : Z) : M (string * string * Z) :=
  match fuel with
  | O => throw OutOfFuel
  | S fuel' =>
      let attempts := attempts + 1 in
      let* nonce := generateNonce in
      let hash := sha256 (data +:+ previousHash +:+ nonce) in
      if JS.startsWith hash target then ret (nonce, hash, attempts)
      else if attempts >? 10000 then ret (nonce, hash, attempts)
      else mineLoop fuel' data previousHash target attempts
  end.

Definition mineBlock (data previousHash : string) (difficulty : Z)
    : M (string * string * Z) :=
  let* target := lift (JS.repeat "0" difficulty) in
  mineLoop (Z.to_nat 10001) data previousHash target 0.

Definition verifyProofOfWork (hash : string) (difficulty : Z) : result bool :=
  let? target := JS.repeat "0" difficulty in
  Ok (JS.startsWith hash target).

End Crypto.

(** ** blockchain.ts *)
Module Verdict.
(** What [validateChain] resolves to. *)
Record t : Type := mk {
  isValid : bool;
  invalidBlockIndex : option Z;
  error : option string
}.
End Verdict.

Module Blockchain.
Import Crypto.

Record Block : Type := mkBlock {
  index : Z;
  timestamp : Z;
  encryptedVote : string;
  voterHash : string;
  previousHash : string;
  nonce : string;
  hash : string;
  difficulty : Z
}.

Record BlockchainState : Type := mkState {
  chain : list Block;
  pendingVotes : gmap string Block;
  isValid : bool;
  lastValidated : Z
}.

Definition GENESIS_BLOCK : Block := {|
  index := 0;
  timestamp := 1700000000000;
  encryptedVote := "GENESIS";
  voterHash := JS.repeatChar 64 "0";
  previousHash := JS.repeatChar 64 "0";
  nonce := JS.repeatChar 32 "0";
  hash := "GENESIS_HASH_ELECTORAL_COMMISSION_2024";
  difficulty := 4
|}.

Definition createBlockchain : M BlockchainState :=
  let* now := Date_now in
  ret {| chain := [GENESIS_BLOCK]; pendingVotes := ∅;
         isValid := true; lastValidated := now |}.

(** *** [JSON.stringify] on the two object shapes the code serialises *)

Definition dquote : string := String (ascii_of_nat 34) EmptyString.
Definition backslash : string := String (ascii_of_nat 92) EmptyString.

Definition quoteChar (c : ascii) : string :=
  let n := Z.of_nat (nat_of_ascii c) in
  if n =? 8 then backslash +:+ "b"
  else if n =? 9 then backslash +:+ "t"
  else if n =? 10 then backslash +:+ "n"
  else if n =? 12 then backslash +:+ "f"
  else if n =? 13 then backslash +:+ "r"
  else if n =? 34 then backslash +:+ dquote
  else if n =? 92 then backslash +:+ backslash
  else if n <? 32 then backslash +:+ "u" +:+ JS.padStart 4 "0" (JS.toString 16 n)
  else String c EmptyString.

Definition quote (s : string) : string :=
  dquote +:+ fold_right String.append EmptyString (map quoteChar (list_ascii_of_string s))
         +:+ dquote.

Definition key (k : string) : string := dquote +:+ k +:+ dquote +:+ ":".

(** [JSON.stringify(blockData)]: a block without [hash] and [nonce]. *)
Definition stringifyBlockData (index timestamp : Z)
    (encryptedVote voterHash previousHash : string) (difficulty : Z) : string :=
  "{" +:+ key "index" +:+ JS.toString 10 index
      +:+ "," +:+ key "timestamp" +:+ JS.toString 10 timestamp
      +:+ "," +:+ key "encryptedVote" +:+ quote encryptedVote
      +:+ "," +:+ key "voterHash" +:+ quote voterHash
      +:+ "," +:+ key "previousHash" +:+ quote previousHash
      +:+ "," +:+ key "difficulty" +:+ JS.toString 10 difficulty +:+ "}".

(** [calculateBlockHash]: the digest of the six fields it serialises. *)
Definition calculateBlockHash (index timestamp : Z)
    (encryptedVote voterHash previousHash nonce : string) : string :=
  let data :=
    "{" +:+ key "index" +:+ JS.toString 10 index
        +:+ "," +:+ key "timestamp" +:+ JS.toString 10 timestamp
        +:+ "," +:+ key "encryptedVote" +:+ quote encryptedVote
        +:+ "," +:+ key "voterHash" +:+ quote voterHash
        +:+ "," +:+ key "previousHash" +:+ quote previousHash
        +:+ "," +:+ key "nonce" +:+ quote nonce +:+ "}" in
  sha256 data.

Definition addVote (state : BlockchainState) (encryptedVote voterHash : string)
    (difficulty : Z) : M (BlockchainState * Block * Z) :=
  let* startTime := Date_now in
  match last (chain state) with
  | None => throw TypeError
  | Some previousBlock =>
      let* now := Date_now in
      let* mined :=
        mineBlock
          (stringifyBlockData (index previousBlock + 1) now encryptedVote
             voterHash (hash previousBlock) difficulty)
          (hash previousBlock) difficulty in
      let '(nonce, hash', _) := mined in
      let newBlock := {|
        index := index previousBlock + 1;
        timestamp := now;
        encryptedVote := encryptedVote;
        voterHash := voterHash;
        previousHash := hash previousBlock;
        nonce := nonce;
        hash := hash';
        difficulty := difficulty
      |} in
      let newChain := (chain state ++ [newBlock])%list in
      let newPendingVotes := <[voterHash := newBlock]> (pendingVotes state) in
      let* finished := Date_now in
      let miningTime := finished - startTime in
      let* validated := Date_now in
      ret ({| chain := newChain; pendingVotes := newPendingVotes;
              isValid := true; lastValidated := validated |},
           newBlock, miningTime)
  end.

Definition invalid (i : nat) (what : string) : Verdict.t :=
  Verdict.mk false (Some (Z.of_nat i))
    (Some (what +:+ " at block " +:+ JS.toString 10 (Z.of_nat i))).

(** The [for] loop of [validateChain] from [i] on: [previousBlock] is
    [chain[i - 1]] and [rest] is [chain[i..]]. *)
Fixpoint validateFrom (i : nat) (previousBlock : Block) (rest : list Block)
    : result Verdict.t :=
  match rest with
  | [] => Ok (Verdict.mk true None None)
  | currentBlock :: rest' =>
      if negb (index currentBlock =? index previousBlock + 1)
      then Ok (invalid i "Index discontinuity")
      else if negb (String.eqb (previousHash currentBlock) (hash previousBlock))
      then Ok (invalid i "Hash chain broken")
      else
        let calculatedHash :=
          calculateBlockHash (index currentBlock) (timestamp currentBlock)
            (encryptedVote currentBlock) (voterHash currentBlock)
            (previousHash currentBlock) (nonce currentBlock) in
        if negb (String.eqb calculatedHash (hash currentBlock))
        then Ok (invalid i "Hash mismatch")
        else
          let? pow := verifyProofOfWork (hash currentBlock) (difficulty currentBlock) in
          if negb pow then Ok (invalid i "Invalid PoW")
          else if timestamp currentBlock <? timestamp previousBlock
          then Ok (invalid i "Timestamp violation")
          else validateFrom (S i) currentBlock rest'
  end.

Definition validateChain (chain : list Block) : result Verdict.t :=
  match chain with
  | [] => Ok (Verdict.mk false (Some 0) (Some "Empty chain"))
  | genesis :: rest =>
      if negb (index genesis =? 0)
      then Ok (Verdict.mk false (Some 0) (Some "Invalid genesis block"))
      else validateFrom 1 genesis rest
  end.

Record Statistics : Type := mkStatistics {
  totalBlocks : Z;
  uniqueVoters : Z;
  lastBlockTime : option Z;
  chainIntegrity : bool
}.

Definition getVoteStatistics (state : BlockchainState) : result Statistics :=
  let uniqueVoters := Z.of_nat (size (pendingVotes state)) in
  match last (chain state) with
  | None => Throw TypeError
  | Some lastBlock =>
      Ok {| totalBlocks := Z.of_nat (length (chain state)) - 1;
            uniqueVoters := uniqueVoters;
            lastBlockTime :=
              if index lastBlock >? 0 then Some (timestamp lastBlock) else None;
            chainIntegrity := isValid state |}
  end.

End Blockchain.

(** ** Runs of the ledger *)
Module Runs.
Import Crypto Blockchain.




(** The states the ledger can be in: the initial one and those [addVote]
    returns, whatever the world did. *)
Inductive reachable : BlockchainState -> Prop :=
| reach_create w st w' :
    createBlockchain w = Ok (st, w') -> reachable st
| reach_add st encryptedVote voterHash difficulty w st' block miningTime w' :
    reachable st ->
    addVote st encryptedVote voterHash difficulty w = Ok (st', block, miningTime, w') ->
    reachable st'.

(** The [i]-th nonce [mineBlock] draws in the world [w], counted from 1,
    and the digest it computes with it. *)
Definition nonceAt (w : World) (i : nat) : string :=
  bufferToHex
    (map (fun j => entropy w (drawn w + 16 * (i - 1) + j)%nat mod 256) (seq 0 16)).

Definition hashAt (data previousHash : string) (w : World) (i : nat) : string :=
  sha256 (data +:+ previousHash +:+ nonceAt w i).

(** The digest of the [i]-th draw has [difficulty] leading zero digits. *)
Definition conforms (data previousHash : string) (difficulty : Z)
    (w : World) (i : nat) : bool :=
  JS.startsWith (hashAt data previousHash w i) (JS.repeatChar (Z.to_nat difficulty) "0").

(** The world after [count] more random bytes were taken. *)
Definition advance (w : World) (count : nat) : World :=
  mkWorld (entropy w) (drawn w + count)%nat (clock w) (ticks w).

(** A world whose random bytes are all zero and whose clock stands still. *)
Definition still : World :=
  mkWorld (fun _ => 0) 0 (fun _ => 1700000000000) 0.

Definition isByte (b : Z) : Prop := 0 <= b < 256.


(** A chain of two blocks: the second carries the digest [calculateBlockHash]
    gives for its fields, and the given difficulty. *)
Definition recomputed (d : Z) : list Block :=
  [ GENESIS_BLOCK;
    {| index := 1;
       timestamp := 1700000000000;
       encryptedVote := "v";
       voterHash := "h";
       previousHash := "GENESIS_HASH_ELECTORAL_COMMISSION_2024";
       nonce := JS.repeatChar 32 "0";
       hash := "f92b2604005183ea044a388f70ff7fdeb889e9c4ea284344d3de71f63d4e2603";
       difficulty := d |} ].

Definition negativeDifficulty : list Block := recomputed (-1).

(** The five checks [validateChain] makes on a block against the one before
    it, in the order it makes them. *)
Inductive check : Type :=
| IndexContinuity | HashLinkage | HashEquality | ProofOfWork | TimestampOrder.

Definition passes (c : check) (previousBlock currentBlock : Block) : Prop :=
  match c with
  | IndexContinuity => index currentBlock = index previousBlock + 1
  | HashLinkage => previousHash currentBlock = hash previousBlock
  | HashEquality =>
      calculateBlockHash (index currentBlock) (timestamp currentBlock)
        (encryptedVote currentBlock) (voterHash currentBlock)
        (previousHash currentBlock) (nonce currentBlock)
      = hash currentBlock
  | ProofOfWork =>
      verifyProofOfWork (hash currentBlock) (difficulty currentBlock) = Ok true
  | TimestampOrder => timestamp previousBlock <= timestamp currentBlock
  end.

Definition before (c : check) : list check :=
  match c with
  | IndexContinuity => []
  | HashLinkage => [IndexContinuity]
  | HashEquality => [IndexContinuity; HashLinkage]
  | ProofOfWork => [IndexContinuity; HashLinkage; HashEquality]
  | TimestampOrder => [IndexContinuity; HashLinkage; HashEquality; ProofOfWork]
  end.

(** The message of a failed check, before [at block i]. *)
Definition reason (c : check) : string :=
  match c with
  | IndexContinuity => "Index discontinuity"
  | HashLinkage => "Hash chain broken"
  | HashEquality => "Hash mismatch"
  | ProofOfWork => "Invalid PoW"
  | TimestampOrder => "Timestamp violation"
  end.

End Runs.

(** ** Vote payloads: [encryptVoteRSA] of crypto.ts *)
Module Vote.
Import Crypto Blockchain.

(** The plain data [JSON.stringify] is given: [null], booleans, integers,
    strings, arrays, and objects as their own enumerable string-keyed
    properties in enumeration order. *)
Local Unset Elimination Schemes.
Inductive json : Type :=
| JNull
| JBool (b : bool)
| JNumber (n : Z)
| JString (s : string)
| JArray (items : list json)
| JObject (members : list (string * json)).
Local Set Elimination Schemes.

Definition join (sep : string) (parts : list string) : string :=
  match parts with
  | [] => EmptyString
  | p :: ps => fold_left (fun acc q => acc +:+ sep +:+ q) ps p
  end.

(** [JSON.stringify(value)], without indentation. *)
Fixpoint stringify (value : json) : string :=
  match value with
  | JNull => "null"
  | JBool true => "true"
  | JBool false => "false"
  | JNumber n => JS.toString 10 n
  | JString s => quote s
  | JArray items => "[" +:+ join "," (map stringify items) +:+ "]"
  | JObject members =>
      "{" +:+ join "," (map (fun kv => quote (fst kv) +:+ ":" +:+ stringify (snd kv))
                            members) +:+ "}"
  end.

Definition encryptVoteRSA (voteData : json) : M (string * Z) :=
  let plaintext := stringify voteData in
  let* timestamp := Date_now in
  let hash := sha256 (plaintext +:+ JS.toString 10 timestamp) in
  ret ("RSA2048:" +:+ hash +:+ ":" +:+ bufferToHex (stringToBuffer plaintext),
       timestamp).

(** Reading a string of hex digits two by two, as [decodeShare] does with
    [match(/.{1,2}/g)] and [parseInt(byte, 16)]. *)
Definition hexBytes (s : string) : list Z :=
  map (fun byte => JS.toUint8 (JS.parseInt byte 16)) (pairs (String.length s) s).

End Vote.

(** ** The voter database (lib/database) *)
Module Candidate.
Record t : Type := mk {
  id : string; name : string; party : string; partyAbbrev : string;
  ballotPosition : Z
}.
End Candidate.

Module Constituency.
Record t : Type := mk {
  id : string; name : string; region : string; candidates : list Candidate.t
}.
End Constituency.

Module Database.
Import Crypto.

Record VoterRecord : Type := mkVoter {
  nationalIdHash : string;
  pinHash : string;
  constituency : string;
  hasVoted : bool;
  failedAttempts : Z;
  lockedUntil : option Z      (* [null] is [None] *)
}.

(** The module-level state: [MOCK_VOTERS], [CONSTITUENCIES], [isInitialized]. *)
Record Db : Type := mkDb {
  MOCK_VOTERS : list VoterRecord;
  CONSTITUENCIES : gmap string Constituency.t;
  isInitialized : bool
}.

(** The state when the module is loaded. *)
Definition fresh : Db := mkDb [] ∅ false.

Definition voterData : list (string * string * string) :=
  [ ("A123456789", "1234", "central-metro");
    ("B987654321", "5678", "northern-rural");
    ("C456789123", "9012", "coastal-east");
    ("D789123456", "3456", "western-highlands");
    ("E321654987", "7890", "southern-plains") ].

Definition constituencyData : list Constituency.t :=
  [ Constituency.mk "central-metro" "Central Metropolitan" "Capital Region"
      [ Candidate.mk "cm1" "Alexandra Chen" "Progressive Alliance" "PA" 1;
        Candidate.mk "cm2" "Marcus Williams" "Unity Coalition" "UC" 2;
        Candidate.mk "cm3" "Sarah Okonkwo" "Civic Reform Party" "CRP" 3;
        Candidate.mk "cm4" "James Rodriguez" "Independent" "IND" 4 ];
    Constituency.mk "northern-rural" "Northern Rural District" "Northern Province"
      [ Candidate.mk "nr1" "Margaret Thompson" "Rural First Party" "RFP" 1;
        Candidate.mk "nr2" "David Nakamura" "Progressive Alliance" "PA" 2;
        Candidate.mk "nr3" "Elena Petrov" "Unity Coalition" "UC" 3 ];
    Constituency.mk "coastal-east" "Eastern Coastal Region" "Eastern Seaboard"
      [ Candidate.mk "ce1" "Michael Oduya" "Maritime Alliance" "MA" 1;
        Candidate.mk "ce2" "Jennifer Walsh" "Progressive Alliance" "PA" 2;
        Candidate.mk "ce3" "Roberto Silva" "Civic Reform Party" "CRP" 3;
        Candidate.mk "ce4" "Hannah Kim" "Unity Coalition" "UC" 4;
        Candidate.mk "ce5" "Thomas Anderson" "Independent" "IND" 5 ];
    Constituency.mk "western-highlands" "Western Highlands" "Mountain Region"
      [ Candidate.mk "wh1" "Patricia Morales" "Highland Heritage Party" "HHP" 1;
        Candidate.mk "wh2" "Andrew Campbell" "Progressive Alliance" "PA" 2;
        Candidate.mk "wh3" "Lisa Yamamoto" "Unity Coalition" "UC" 3 ];
    Constituency.mk "southern-plains" "Southern Plains District" "Southern Lowlands"
      [ Candidate.mk "sp1" "Richard Mensah" "Agricultural Workers Union" "AWU" 1;
        Candidate.mk "sp2" "Catherine Brooks" "Progressive Alliance" "PA" 2;
        Candidate.mk "sp3" "Steven Lee" "Civic Reform Party" "CRP" 3;
        Candidate.mk "sp4" "Amanda Foster" "Unity Coalition" "UC" 4 ] ].

(** [initializeMockData]: one record pushed per demo voter, then one
    [CONSTITUENCIES.set] per constituency. *)
Definition initializeMockData (db : Db) : Db :=
  let voters :=
    fold_left
      (fun acc voter =>
         let '(id, pin, constituency) := voter in
         (acc ++ [mkVoter (sha256 id) (sha256 pin) constituency false 0 None])%list)
      voterData (MOCK_VOTERS db) in
  let table :=
    fold_left (fun acc c => <[Constituency.id c := c]> acc)
              constituencyData (CONSTITUENCIES db) in
  mkDb voters table (isInitialized db).

Definition ensureInitialized (db : Db) : Db :=
  if isInitialized db then db
  else
    let db := initializeMockData db in
    mkDb (MOCK_VOTERS db) (CONSTITUENCIES db) true.

(** [MOCK_VOTERS.find(v => v.nationalIdHash === idHash)], with the position
    of the record found: the code goes on with that very object. *)
Fixpoint findVoter (idHash : string) (i : nat) (voters : list VoterRecord)
    : option (nat * VoterRecord) :=
  match voters with
  | [] => None
  | v :: voters' =>
      if String.eqb (nationalIdHash v) idHash then Some (i, v)
      else findVoter idHash (S i) voters'
  end.

(** What [authenticateVoter] resolves to. [voter] is the position in
    [MOCK_VOTERS] of the record returned, which is the stored object. *)
Record AuthResult : Type := mkAuth {
  success : bool;
  voter : option nat;
  error : option string;
  attemptsRemaining : option Z
}.

(** [voter.lockedUntil && ...]: [null] and 0 are falsy. *)
Definition truthy (lockedUntil : option Z) : option Z :=
  match lockedUntil with
  | Some t => if t =? 0 then None else Some t
  | None => None
  end.

(** [Math.ceil(ms / 1000)] *)
Definition ceilSeconds (ms : Z) : Z := - ((- ms) / 1000).

Definition store (db : Db) (i : nat) (v : VoterRecord) : Db :=
  mkDb (<[i := v]> (MOCK_VOTERS db)) (CONSTITUENCIES db) (isInitialized db).

(** The PIN check and what follows it, on the record [v] at position [i]. *)
Definition verifyPin (db : Db) (i : nat) (v : VoterRecord) (pinHash' : string)
    : M (AuthResult * Db) :=
  if negb (String.eqb (pinHash v) pinHash') then
    let v := mkVoter (nationalIdHash v) (pinHash v) (constituency v) (hasVoted v)
                     (failedAttempts v + 1) (lockedUntil v) in
    if failedAttempts v >=? 3 then
      let* now := Date_now in
      let v := mkVoter (nationalIdHash v) (pinHash v) (constituency v) (hasVoted v)
                       (failedAttempts v) (Some (now + 5 * 60 * 1000)) in
      ret (mkAuth false None
             (Some "Account locked due to too many failed attempts. Try again in 5 minutes.")
             (Some 0),
           store db i v)
    else
      ret (mkAuth false None (Some "Invalid credentials")
             (Some (3 - failedAttempts v)),
           store db i v)
  else
    let v := mkVoter (nationalIdHash v) (pinHash v) (constituency v) (hasVoted v)
                     0 (lockedUntil v) in
    ret (mkAuth true (Some i) None None, store db i v).

(** The second test of the lock: it is lifted when the clock has reached
    [lockedUntil]. *)
Definition resetLock (v : VoterRecord) : M VoterRecord :=
  match truthy (lockedUntil v) with
  | Some t =>
      let* now := Date_now in
      if now >=? t
      then ret (mkVoter (nationalIdHash v) (pinHash v) (constituency v) (hasVoted v)
                        0 None)
      else ret v
  | None => ret v
  end.

Definition authenticateVoter (db : Db) (nationalId pin : string)
    : M (AuthResult * Db) :=
  let db := ensureInitialized db in
  let idHash := sha256 nationalId in
  let pinHash' := sha256 pin in
  match findVoter idHash 0 (MOCK_VOTERS db) with
  | None => ret (mkAuth false None (Some "Invalid credentials") None, db)
  | Some (i, v) =>
      let* locked :=
        match truthy (lockedUntil v) with
        | Some t =>
            let* now := Date_now in
            if now <? t then
              let* now' := Date_now in
              ret (Some (ceilSeconds (t - now')))
            else ret None
        | None => ret None
        end in
      match locked with
      | Some remainingSeconds =>
          ret (mkAuth false None
                 (Some ("Account locked. Try again in "
                        +:+ JS.toString 10 remainingSeconds +:+ " seconds."))
                 None,
               db)
      | None =>
          let* v := resetLock v in
          verifyPin (store db i v) i v pinHash'
      end
  end.

Definition getConstituency (db : Db) (constituencyId : string)
    : option Constituency.t * Db :=
  let db := ensureInitialized db in
  (CONSTITUENCIES db !! constituencyId, db).

Definition getVoterHash (nationalId : string) : string :=
  let firstHash := sha256 nationalId in
  sha256 (firstHash +:+ "ELECTORAL_SALT_2024").

Definition markVoterVoted (db : Db) (idHash : string) : Db :=
  let db := ensureInitialized db in
  match findVoter idHash 0 (MOCK_VOTERS db) with
  | Some (i, v) =>
      store db i (mkVoter (nationalIdHash v) (pinHash v) (constituency v) true
                          (failedAttempts v) (lockedUntil v))
  | None => db
  end.

Definition authenticateAdmin (username password : string) : bool :=
  let adminHash := sha256 "admin" in
  let passHash := sha256 "electoral2024" in
  let inputUserHash := sha256 username in
  let inputPassHash := sha256 password in
  String.eqb inputUserHash adminHash && String.eqb inputPassHash passHash.

End Database.

(** ** Edits of blocks, to state what validation sees of them *)
Module Edit.
Import Blockchain.

Definition setDifficulty (d : Z) (b : Block) : Block :=
  mkBlock (index b) (timestamp b) (encryptedVote b) (voterHash b)
          (previousHash b) (nonce b) (hash b) d.

Definition setHash (h : string) (b : Block) : Block :=
  mkBlock (index b) (timestamp b) (encryptedVote b) (voterHash b)
          (previousHash b) (nonce b) h (difficulty b).

Definition setPreviousHash (h : string) (b : Block) : Block :=
  mkBlock (index b) (timestamp b) (encryptedVote b) (voterHash b)
          h (nonce b) (hash b) (difficulty b).

Definition setIndex (i : Z) (b : Block) : Block :=
  mkBlock i (timestamp b) (encryptedVote b) (voterHash b)
          (previousHash b) (nonce b) (hash b) (difficulty b).

(** The last block of a list that carries the voter hash. *)
Definition latestVote (voterHash' : string) (blocks : list Block) : option Block :=
  last (List.filter (fun b => String.eqb (voterHash b) voterHash') blocks).

(** A block as [addVote] makes it: a difficulty that let [mineBlock]
    start, its nonce, and the digest [mineBlock] computed. *)
Definition mined (c : Block) : Prop :=
  0 <= difficulty c
  /\ String.length (nonce c) = 32%nat
  /\ forallb Crypto.isHex (list_ascii_of_string (nonce c)) = true
  /\ hash c = Crypto.sha256
                (stringifyBlockData (index c) (timestamp c) (encryptedVote c)
                   (voterHash c) (previousHash c) (difficulty c)
                 +:+ previousHash c +:+ nonce c).

(** No two shares at different positions have the same identifier, as the
    32-bit integers [^] works on. *)
Definition distinctIds (shares : list Crypto.Share) : Prop :=
  forall i j si sj, shares !! i = Some si -> shares !! j = Some sj ->
                    JS.toInt32 (Crypto.x si) = JS.toInt32 (Crypto.x sj) -> i = j.

(** The last character of a string (the zero character for the empty one). *)
Definition lastChar (s : string) : ascii :=
  List.last (list_ascii_of_string s) (ascii_of_nat 0).

(** Lower-case hex digits. *)
Definition isLowerHex (c : ascii) : bool :=
  let n := nat_of_ascii c in
  ((48 <=? n)%nat && (n <=? 57)%nat) || ((97 <=? n)%nat && (n <=? 102)%nat).

(** A byte is 0 or among the 51 powers of 2 at the head of [EXP_TABLE]. *)
Definition isPowerOfTwo (a : Z) : bool := existsb (Z.eqb a) (firstn 51 Crypto.EXP_TABLE).

(** What is checked of [gfMul] on a pair of bytes, and of [gfDiv] after it. *)
Definition mulCheck (a b : Z) : bool :=
  match Crypto.gfMul (Some a) (Some b), Crypto.gfMul (Some b) (Some a) with
  | Some v, Some v' =>
      (v =? v') && (0 <=? v) && (v <? 256)
      && Bool.eqb (v =? 0) ((a =? 0) || (b =? 0))
      && ((v =? 0) || isPowerOfTwo v)
  | _, _ => false
  end.

Definition divCheck (a b : Z) : bool :=
  (b =? 0)
  || match Crypto.gfMul (Some a) (Some b) with
     | Some p =>
         match Crypto.gfDiv (Some p) (Some b) with
         | Ok (Some q) => Bool.eqb (q =? a) ((a =? 0) || isPowerOfTwo a)
         | _ => false
         end
     | None => false
     end.

End Edit.


(** ** Sessions of the voter database *)

Module Sessions.
Import Database.

(** What identifies a record and what the ballot needs of it. *)
Definition profile (v : VoterRecord) : string * string * string * bool :=
  (nationalIdHash v, pinHash v, constituency v, hasVoted v).

(** The states of the module after any number of calls of its exported
    functions that touch the state, from the state at load time. *)
Inductive reachableDb : Db -> Prop :=
| at_load : reachableDb fresh
| after_authenticateVoter db nationalId pin w r db' w' :
    reachableDb db ->
    authenticateVoter db nationalId pin w = Ok (r, db', w') ->
    reachableDb db'
| after_getConstituency db constituencyId :
    reachableDb db -> reachableDb (snd (getConstituency db constituencyId))
| after_markVoterVoted db idHash :
    reachableDb db -> reachableDb (markVoterVoted db idHash).

(** A clock that starts at [t0] and advances by [step] at each reading. *)
Definition ticking (t0 step : Z) : World :=
  mkWorld (fun _ => 0) 0 (fun n => t0 + step * Z.of_nat n) 0.

(** The caller's lookup after a log-in: [getConstituency] gives a
    constituency under the key, with its own [id] and a ballot to show. *)
Definition resolves (table : gmap string Constituency.t) (k : string) : bool :=
  match table !! k with
  | Some c =>
      String.eqb (Constituency.id c) k
      && negb (Nat.eqb (length (Constituency.candidates c)) 0)
  | None => false
  end.

End Sessions.
(** * Properties *)

Import Crypto Blockchain Runs.

Example sha256_abc :
  sha256 "abc" = "ba7816bf8f01cfea414140de5dae2223b00361a396177a9cb410ff61f20015ad".
Proof. vm_compute. reflexivity. Qed.

Example sha256_empty :
  sha256 EmptyString = "e3b0c44298fc1c149afbf4c8996fb92427ae41e4649b934ca495991b7852b855".
Proof. vm_compute. reflexivity. Qed.

Example sha256_two_blocks :
  sha256 "abcdbcdecdefdefgefghfghighijhijkijkljklmklmnlmnomnopnopq"
  = "248d6a61d20638b8e5c026930c3e6039a33ce45964ff2167f6ecedd419db06c1".
Proof. vm_compute. reflexivity. Qed.

(** ** GF(256) tables and division *)

Lemma EXP_TABLE_length : length EXP_TABLE = 256%nat.
Proof. reflexivity. Qed.

Lemma LOG_TABLE_length : length LOG_TABLE = 256%nat.
Proof. reflexivity. Qed.

Lemma LOG_TABLE_range : Forall (fun v => 0 <= v <= 254) LOG_TABLE.
Proof. apply (bool_decide_unpack _). vm_compute. exact I. Qed.

Lemma table_read (t : list Z) (a : Z) :
  0 <= a < Z.of_nat (length t) ->
  JS.at_ t (Some a) = Some (nth (Z.to_nat a) t 0).
Proof.
  intros Ha. unfold JS.at_.
  destruct (Z.leb_spec 0 a); [|lia].
  destruct (t !! Z.to_nat a) as [v|] eqn:E.
  - f_equal. symmetry. apply nth_lookup_Some with (d := 0) in E. exact E.
  - apply lookup_ge_None in E. lia.
Qed.

Lemma LOG_read (a : Z) :
  0 <= a <= 255 ->
  JS.at_ LOG_TABLE (Some a) = Some (nth (Z.to_nat a) LOG_TABLE 0)
  /\ 0 <= nth (Z.to_nat a) LOG_TABLE 0 <= 254.
Proof.
  intros Ha. split.
  - apply table_read. rewrite LOG_TABLE_length. lia.
  - pose proof LOG_TABLE_range as R. rewrite Forall_forall in R.
    apply R. apply list_elem_of_In. apply nth_In. rewrite LOG_TABLE_length. lia.
Qed.

(** The tables are built from the powers of 2, which come back to 1 after 51
    steps: a byte that is not such a power keeps the logarithm 0. *)
Example EXP_TABLE_period :
  nth 51 EXP_TABLE 0 = 1 /\ nth 3 LOG_TABLE 0 = 0 /\ nth 1 LOG_TABLE 0 = 204.
Proof. repeat split; reflexivity. Qed.

Example gfMul_3_3 : gfMul (Some 3) (Some 3) = Some 1.
Proof. reflexivity. Qed.

Example gfDiv_6_3 : gfDiv (Some 6) (Some 3) = Ok (Some 1).
Proof. reflexivity. Qed.

(** C5. On bytes, [gfDiv(a, b)] throws the division-by-zero error exactly
    when [b] is 0; with [b] not 0 it returns 0 for [a = 0] and otherwise
    [EXP_TABLE[(LOG_TABLE[a] - LOG_TABLE[b] + 255) mod 255]], a defined
    table entry. *)
Theorem gfDiv_spec (a b : Z) :
  0 <= a <= 255 -> 0 <= b <= 255 ->
  (gfDiv (Some a) (Some b) = Throw (Error "Division by zero") <-> b = 0)
  /\ ((exists e, gfDiv (Some a) (Some b) = Throw e) <-> b = 0)
  /\ (b <> 0 -> a = 0 -> gfDiv (Some a) (Some b) = Ok (Some 0))
  /\ (b <> 0 -> a <> 0 ->
      gfDiv (Some a) (Some b)
      = Ok (Some (nth (Z.to_nat ((nth (Z.to_nat a) LOG_TABLE 0
                                   - nth (Z.to_nat b) LOG_TABLE 0 + 255) mod 255))
                      EXP_TABLE 0))).
Proof.
  intros Ha Hb.
  destruct (LOG_read a Ha) as [La Ra], (LOG_read b Hb) as [Lb Rb].
  unfold gfDiv. cbn [JS.isZero].
  destruct (Z.eqb_spec b 0) as [->|Hb0].
  - repeat split; try tauto; intros; eauto; congruence.
  - assert (Hnz : gfDiv (Some a) (Some b) <> Throw (Error "Division by zero") -> True) by tauto.
    destruct (Z.eqb_spec a 0) as [->|Ha0].
    + repeat split; try tauto; try congruence.
      intros [e He]. congruence.
    + rewrite La, Lb. cbn [JS.sub JS.add JS.rem].
      rewrite Z.rem_mod_nonneg by lia.
      rewrite table_read
        by (rewrite EXP_TABLE_length; pose proof (Z.mod_pos_bound
              (nth (Z.to_nat a) LOG_TABLE 0 - nth (Z.to_nat b) LOG_TABLE 0 + 255) 255);
            lia).
      repeat split; try tauto; try congruence.
      intros [e He]. congruence.
Qed.

Lemma gfDiv_spec_witness :
  gfDiv (Some 4) (Some 2) = Ok (Some 2)
  /\ (gfDiv (Some 4) (Some 0) = Throw (Error "Division by zero") <-> 0 = 0).
Proof.
  split.
  - destruct (gfDiv_spec 4 2) as (_ & _ & _ & H); [lia | lia |].
    rewrite H by lia. reflexivity.
  - destruct (gfDiv_spec 4 0) as (H & _); [lia | lia |]. exact H.
Defined.

(** ** Leading zeros *)

Lemma prefix_repeatChar (n : nat) (c : ascii) (s : string) :
  String.prefix (JS.repeatChar n c) s = true
  <-> forall i, (i < n)%nat -> String.get i s = Some c.
Proof.
  revert s. induction n as [|n IH]; intros s; cbn [JS.repeatChar].
  - split; [intros _ i Hi; lia | intros _; destruct s; reflexivity].
  - destruct s as [|a s]; cbn [String.prefix].
    + split; [discriminate | intros H; specialize (H 0%nat ltac:(lia)); discriminate].
    + destruct (ascii_dec c a) as [->|Hne].
      * rewrite IH. split.
        -- intros H [|i] Hi; [reflexivity | cbn; apply H; lia].
        -- intros H i Hi. apply (H (S i)). lia.
      * split; [discriminate |].
        intros H. specialize (H 0%nat ltac:(lia)). cbn in H. congruence.
Qed.

Lemma prefix_length (t s : string) :
  String.prefix t s = true -> (String.length t <= String.length s)%nat.
Proof.
  revert s. induction t as [|a t IH]; intros [|b s]; cbn; try lia; try discriminate.
  destruct (ascii_dec a b); [|discriminate]. intros H. apply IH in H. lia.
Qed.

Lemma repeatChar_length (n : nat) (c : ascii) :
  String.length (JS.repeatChar n c) = n.
Proof. induction n; cbn; congruence. Qed.

(** C3. For a difficulty between 0 and the length of the hash,
    [verifyProofOfWork] returns a boolean, without touching any state, that
    is true exactly when the first [difficulty] characters are all '0'. *)
Theorem verifyProofOfWork_spec (hash : string) (difficulty : Z) :
  0 <= difficulty <= Z.of_nat (String.length hash) ->
  exists b, verifyProofOfWork hash difficulty = Ok b
    /\ (b = true <->
        forall i, (i < Z.to_nat difficulty)%nat -> String.get i hash = Some "0"%char).
Proof.
  intros [Hd _]. unfold verifyProofOfWork, JS.repeat.
  destruct (Z.ltb_spec difficulty 0); [lia|]. cbn [rbind].
  eexists; split; [reflexivity|]. apply prefix_repeatChar.
Qed.

Lemma verifyProofOfWork_spec_witness :
  verifyProofOfWork "00ab" 2 = Ok true /\ verifyProofOfWork "0a0b" 2 = Ok false.
Proof.
  split.
  - destruct (verifyProofOfWork_spec "00ab" 2) as (b & E & _); [cbn; lia|].
    rewrite E. f_equal. vm_compute in E. congruence.
  - destruct (verifyProofOfWork_spec "0a0b" 2) as (b & E & _); [cbn; lia|].
    rewrite E. f_equal. vm_compute in E. congruence.
Defined.

(** ** Bytes in hexadecimal *)

Lemma byte_cases (P : Z -> Prop) :
  Forall (fun n => P (Z.of_nat n)) (seq 0 256) -> forall b, isByte b -> P b.
Proof.
  intros H b [H0 H1]. rewrite Forall_forall in H.
  replace b with (Z.of_nat (Z.to_nat b)) by lia.
  apply H. apply list_elem_of_In, in_seq. lia.
Qed.

Lemma forallb_Forall {A} (p : A -> bool) (l : list A) :
  forallb p l = true -> Forall (fun a => p a = true) l.
Proof. rewrite forallb_forall, Forall_forall. intros H a Ha. apply H, list_elem_of_In, Ha. Qed.

(** A byte prints as two hex digits, which parse back to it. *)
Lemma byte_hex (b : Z) :
  isByte b ->
  exists c1 c2,
    JS.padStart 2 "0" (JS.toString 16 b) = String c1 (String c2 EmptyString)
    /\ isHex c1 = true /\ isHex c2 = true
    /\ JS.parseInt (String c1 (String c2 EmptyString)) 16 = Some b.
Proof.
  revert b. apply byte_cases.
  eapply Forall_impl;
    [apply (forallb_Forall
              (fun n => match JS.padStart 2 "0" (JS.toString 16 (Z.of_nat n)) with
                        | String c1 (String c2 EmptyString) =>
                            isHex c1 && isHex c2
                            && match JS.parseInt (String c1 (String c2 EmptyString)) 16 with
                               | Some v => v =? Z.of_nat n
                               | None => false
                               end
                        | _ => false
                        end)); vm_compute; reflexivity |].
  intros n H. cbv beta in H.
  destruct (JS.padStart 2 "0" (JS.toString 16 (Z.of_nat n))) as [|c1 [|c2 [|? ?]]];
    try discriminate.
  exists c1, c2.
  destruct (JS.parseInt (String c1 (String c2 EmptyString)) 16) as [v|];
    [|rewrite andb_false_r in H; discriminate].
  apply andb_prop in H as [H Hv]. apply andb_prop in H as [H1 H2].
  apply Z.eqb_eq in Hv. subst v. auto.
Qed.

Lemma append_length (s t : string) :
  String.length (s +:+ t) = (String.length s + String.length t)%nat.
Proof.
  induction s as [|a s IH]; [reflexivity|].
  change (S (String.length (s +:+ t)) = S (String.length s + String.length t)).
  now rewrite IH.
Qed.

Lemma bufferToHex_cons (b : Z) (bs : list Z) :
  bufferToHex (b :: bs) = JS.padStart 2 "0" (JS.toString 16 b) +:+ bufferToHex bs.
Proof. reflexivity. Qed.

Lemma bufferToHex_length (bs : list Z) :
  Forall isByte bs -> String.length (bufferToHex bs) = (2 * length bs)%nat.
Proof.
  induction 1 as [|b bs Hb _ IH]; [reflexivity|].
  rewrite bufferToHex_cons, append_length, IH.
  destruct (byte_hex b Hb) as (c1 & c2 & -> & _). cbn. lia.
Qed.

Lemma be_bytes_bytes (n : nat) (v : Z) : Forall isByte (SHA256.be_bytes n v).
Proof.
  unfold SHA256.be_bytes. apply Forall_forall. intros b Hb.
  apply list_elem_of_In, in_map_iff in Hb as (i & <- & _).
  change 0xff with (Z.ones 8). rewrite Z.land_ones by lia.
  unfold isByte. change (2 ^ 8) with 256. apply Z.mod_pos_bound. lia.
Qed.

Lemma digest_bytes (msg : list Z) :
  Forall isByte (SHA256.digest msg) /\ length (SHA256.digest msg) = 32%nat.
Proof.
  unfold SHA256.digest. split.
  - repeat (apply Forall_app; split); apply be_bytes_bytes.
  - rewrite !length_app. unfold SHA256.be_bytes. rewrite !length_map. reflexivity.
Qed.

(** Every digest is 64 characters long. *)
Lemma sha256_length (data : string) : String.length (sha256 data) = 64%nat.
Proof.
  unfold sha256. destruct (digest_bytes (stringToBuffer data)) as [B L].
  rewrite bufferToHex_length by exact B. rewrite L. reflexivity.
Qed.

(** ** The proof-of-work search *)

Lemma generateNonce_run (w : World) (k : nat) :
  generateNonce (advance w (16 * k)) = Ok (nonceAt w (S k), advance w (16 * S k)).
Proof.
  unfold generateNonce, bind, generateRandomBytes, ret, nonceAt, advance. cbn [entropy drawn clock ticks].
  f_equal. f_equal.
  - f_equal. apply map_ext. intros j. do 2 f_equal. lia.
  - f_equal. lia.
Qed.

Lemma mineLoop_step (fuel : nat) (data previousHash target : string)
    (attempts : Z) (w : World) :
  mineLoop (S fuel) data previousHash target attempts w
  = match generateNonce w with
    | Ok (nonce, w') =>
        let hash := sha256 (data +:+ previousHash +:+ nonce) in
        if JS.startsWith hash target then Ok (nonce, hash, attempts + 1, w')
        else if attempts + 1 >? 10000 then Ok (nonce, hash, attempts + 1, w')
        else mineLoop fuel data previousHash target (attempts + 1) w'
    | Throw e => Throw e
    end.
Proof.
  cbn [mineLoop]. unfold bind at 1. destruct (generateNonce w) as [[nonce w']|e]; [|reflexivity].
  cbv zeta. destruct (JS.startsWith _ target); [reflexivity|].
  destruct (attempts + 1 >? 10000); reflexivity.
Qed.

(** The loop returns the first draw whose digest starts with the target,
    and the 10001st draw if none of the first 10001 does. *)
Lemma mineLoop_spec (data previousHash target : string) (w : World) :
  forall (fuel k : nat),
    (fuel + k = Z.to_nat 10001)%nat -> (1 <= fuel)%nat ->
    (forall j, (1 <= j <= k)%nat ->
               JS.startsWith (hashAt data previousHash w j) target = false) ->
    exists i,
      (k < i <= Z.to_nat 10001)%nat
      /\ mineLoop fuel data previousHash target (Z.of_nat k) (advance w (16 * k))
         = Ok (nonceAt w i, hashAt data previousHash w i, Z.of_nat i, advance w (16 * i))
      /\ (forall j, (1 <= j < i)%nat ->
                    JS.startsWith (hashAt data previousHash w j) target = false)
      /\ (JS.startsWith (hashAt data previousHash w i) target = true
          \/ i = Z.to_nat 10001).
Proof.
  induction fuel as [|fuel IH]; intros k Hsum Hfuel Hbefore; [lia|].
  rewrite mineLoop_step, generateNonce_run. cbv zeta.
  fold (hashAt data previousHash w (S k)).
  replace (Z.of_nat k + 1) with (Z.of_nat (S k)) by lia.
  destruct (JS.startsWith (hashAt data previousHash w (S k)) target) eqn:Hit.
  - exists (S k). repeat split; try lia; auto.
    all: intros j Hj; apply Hbefore; lia.
  - destruct (Z.gtb_spec (Z.of_nat (S k)) 10000) as [Hcap|Hcap].
    + exists (S k). repeat split; try lia; auto.
      all: try (intros j Hj; apply Hbefore; lia).
      all: right; lia.
    + destruct (IH (S k)) as (i & Hi & Hrun & Hfirst & Hlast); try lia.
      * intros j Hj. destruct (Nat.eq_dec j (S k)) as [->|]; [exact Hit|].
        apply Hbefore. lia.
      * exists i. repeat split; try lia; auto.
Qed.

Lemma mineBlock_spec (data previousHash : string) (difficulty : Z) (w : World) :
  0 <= difficulty ->
  exists i,
    (1 <= i <= Z.to_nat 10001)%nat
    /\ mineBlock data previousHash difficulty w
       = Ok (nonceAt w i, hashAt data previousHash w i, Z.of_nat i, advance w (16 * i))
    /\ (forall j, (1 <= j < i)%nat -> conforms data previousHash difficulty w j = false)
    /\ (conforms data previousHash difficulty w i = true \/ i = Z.to_nat 10001).
Proof.
  intros Hd. unfold mineBlock, bind, lift, JS.repeat.
  destruct (Z.ltb_spec difficulty 0); [lia|].
  destruct (mineLoop_spec data previousHash (JS.repeatChar (Z.to_nat difficulty) "0") w
              (Z.to_nat 10001) 0) as (i & Hi & Hrun & Hfirst & Hlast); try lia.
  replace (advance w (16 * 0)) with w in Hrun
    by (destruct w; unfold advance; cbn; f_equal; lia).
  exists i. repeat split; try lia; auto.
Qed.

Lemma conforms_beyond_digest (data previousHash : string) (difficulty : Z)
    (w : World) (i : nat) :
  64 < difficulty -> conforms data previousHash difficulty w i = false.
Proof.
  intros Hd. unfold conforms, JS.startsWith.
  destruct (String.prefix _ _) eqn:E; [|reflexivity].
  apply prefix_length in E.
  unfold hashAt in E. rewrite repeatChar_length, sha256_length in E. lia.
Qed.




(** ** Chains made by [addVote] *)

Lemma still_vote_rejected :
  match bind createBlockchain (fun st => addVote st "v" "h" 0) still with
  | Ok (st, _, _, _) =>
      validateChain (chain st)
      = Ok (Verdict.mk false (Some 1) (Some "Hash mismatch at block 1"))
  | Throw _ => False
  end.
Proof. vm_compute. reflexivity. Qed.

(** C1, at a failing run. From the initial state, one vote appended at
    difficulty 0 gives a chain that [validateChain] rejects at block 1: the
    digest [mineBlock] stored is not the one [calculateBlockHash] recomputes. *)
Theorem addVote_chain_rejected :
  match bind createBlockchain (fun st => addVote st "v" "h" 0) still with
  | Ok (st, _, _, _) =>
      validateChain (chain st)
      = Ok (Verdict.mk false (Some 1) (Some "Hash mismatch at block 1"))
  | Throw _ => False
  end.
Proof. exact still_vote_rejected. Qed.

(** ** Secret sharing *)

(** C4, at a failing run. The two shares of the one-byte secret 1, made
    with threshold 2 and a random coefficient 0, combine to 3. *)
Theorem shamir_roundtrip_fails :
  match shamirSplit [1] 2 2 still with
  | Ok (shares, _) =>
      shares = [mkShare 1 [1]; mkShare 2 [1]] /\ shamirCombine shares = Ok [3]
  | Throw _ => False
  end.
Proof. vm_compute. split; reflexivity. Qed.

(** ** Validation *)

Lemma verifyProofOfWork_total (h : string) (d : Z) :
  0 <= d -> exists b, verifyProofOfWork h d = Ok b.
Proof.
  intros Hd. unfold verifyProofOfWork, JS.repeat.
  destruct (Z.ltb_spec d 0); [lia|]. eexists. reflexivity.
Qed.

(** Case analysis on the comparisons of one turn of the loop. *)
Ltac split_checks :=
  repeat (match goal with
          | |- context [Z.eqb ?a ?b] => destruct (Z.eqb_spec a b)
          | |- context [String.eqb ?a ?b] => destruct (String.eqb_spec a b)
          | |- context [Z.ltb ?a ?b] => destruct (Z.ltb_spec a b)
          end; cbn [negb rbind]);
  try reflexivity; try tauto; try lia.

Ltac passed H ck := pose proof (H ck ltac:(cbn; tauto)); cbn [passes] in *.

(** A block that passes the five checks lets the loop go on. *)
Lemma validateFrom_pass (i : nat) (p c : Block) (rest : list Block) :
  (forall ck, passes ck p c) ->
  validateFrom i p (c :: rest) = validateFrom (S i) c rest.
Proof.
  intros H. cbn [validateFrom].
  pose proof (H IndexContinuity). pose proof (H HashLinkage).
  pose proof (H HashEquality). pose proof (H ProofOfWork) as Hpow.
  pose proof (H TimestampOrder). cbn [passes] in *.
  rewrite Hpow. cbn [rbind negb]. split_checks.
Qed.

(** A block that fails a check, the checks before it passed, ends the loop
    with the message of that check. *)
Lemma validateFrom_fail (i : nat) (p c : Block) (rest : list Block) (ck : check) :
  0 <= difficulty c ->
  (forall ck', In ck' (before ck) -> passes ck' p c) ->
  ~ passes ck p c ->
  validateFrom i p (c :: rest) = Ok (invalid i (reason ck)).
Proof.
  intros Hd Hbefore Hfail. cbn [validateFrom].
  destruct (verifyProofOfWork_total (hash c) (difficulty c) Hd) as [pow Epow].
  destruct ck; cbn [before reason] in *.
  - cbn [passes] in *. rewrite Epow. split_checks.
  - passed Hbefore IndexContinuity. rewrite Epow. split_checks.
  - passed Hbefore IndexContinuity. passed Hbefore HashLinkage.
    rewrite Epow. split_checks.
  - passed Hbefore IndexContinuity. passed Hbefore HashLinkage.
    passed Hbefore HashEquality.
    rewrite Epow in *. destruct pow; [tauto|]. split_checks.
  - passed Hbefore IndexContinuity. passed Hbefore HashLinkage.
    passed Hbefore HashEquality. passed Hbefore ProofOfWork.
    rewrite Epow in *. destruct pow; [|discriminate]. split_checks.
Qed.

Lemma validateFrom_total (rest : list Block) :
  forall (i : nat) (p : Block),
    Forall (fun b => 0 <= difficulty b) rest ->
    exists v, validateFrom i p rest = Ok v.
Proof.
  induction rest as [|c rest IH]; intros i p Hd; cbn [validateFrom]; [eauto|].
  apply Forall_cons in Hd as [Hc Hd].
  destruct (negb _); [eauto|]. destruct (negb _); [eauto|]. destruct (negb _); [eauto|].
  destruct (verifyProofOfWork_total (hash c) (difficulty c) Hc) as [b ->]. cbn [rbind].
  destruct (negb b); [eauto|]. destruct (_ <? _); [eauto|]. apply IH, Hd.
Qed.

(** The loop from [i] on: block [m] of [rest] is compared with block [m] of
    [p :: rest] and has index [i + m] in the chain. *)
Lemma validateFrom_spec (rest : list Block) :
  forall (i : nat) (p : Block),
    Forall (fun b => 0 <= difficulty b) rest ->
    (forall m q c ck,
        (p :: rest) !! m = Some q -> rest !! m = Some c ->
        (forall m' q' c', (m' < m)%nat ->
            (p :: rest) !! m' = Some q' -> rest !! m' = Some c' ->
            forall ck', passes ck' q' c') ->
        (forall ck', In ck' (before ck) -> passes ck' q c) ->
        ~ passes ck q c ->
        validateFrom i p rest = Ok (invalid (i + m) (reason ck)))
    /\ ((forall m q c, (p :: rest) !! m = Some q -> rest !! m = Some c ->
                       forall ck, passes ck q c) ->
        validateFrom i p rest = Ok (Verdict.mk true None None)).
Proof.
  induction rest as [|c0 rest IH]; intros i p Hd.
  - split; [intros m q c ck _ Hc; destruct m; discriminate | reflexivity].
  - apply Forall_cons in Hd as [Hc0 Hd]. destruct (IH (S i) c0 Hd) as [IHfail IHok].
    split.
    + intros [|m] q c ck Hq Hc Hprev Hbefore Hfail.
      * cbn in Hq, Hc. injection Hq as <-. injection Hc as <-.
        rewrite Nat.add_0_r. apply validateFrom_fail; assumption.
      * rewrite validateFrom_pass
          by (apply (Hprev 0%nat p c0); [lia | reflexivity | reflexivity]).
        replace (i + S m)%nat with (S i + m)%nat by lia.
        apply (IHfail m q c ck); try assumption.
        intros m' q' c' Hm' Hq' Hc'. apply (Hprev (S m') q' c'); [lia | exact Hq' | exact Hc'].
    + intros Hall. rewrite validateFrom_pass by (apply (Hall 0%nat); reflexivity).
      apply IHok. intros m q c Hq Hc. apply (Hall (S m)); assumption.
Qed.

(** C7, as the code has it. On a chain whose blocks have a difficulty from
    0 up to the longest string of the engine (outside these bounds the
    proof-of-work check throws a RangeError) and safe integers as index
    and timestamp, [validateChain] returns a verdict and does not throw.
    The empty chain is invalid at index 0, "Empty chain"; a chain whose first
    block has a non-zero index is invalid at index 0, "Invalid genesis
    block". Otherwise the blocks from 1 on are checked in order: index
    continuity, linkage to the hash before, equality with the recomputed
    hash, proof of work, timestamp order. At the first block [i] that fails
    a check, all checks before it passing, the verdict is invalid at [i]
    with the message of that check followed by "at block i"; if every block
    passes every check, the verdict is valid with no index and no message. *)
Theorem validateChain_verdict (chain : list Block) :
  Forall (fun b => 0 <= difficulty b <= JS.maxStringLength
                   /\ JS.isSafeInteger (index b) /\ JS.isSafeInteger (timestamp b))
         chain ->
  exists v,
    validateChain chain = Ok v
    /\ (chain = [] -> v = Verdict.mk false (Some 0) (Some "Empty chain"))
    /\ (forall genesis, chain !! 0%nat = Some genesis -> index genesis <> 0 ->
        v = Verdict.mk false (Some 0) (Some "Invalid genesis block"))
    /\ (forall genesis, chain !! 0%nat = Some genesis -> index genesis = 0 ->
        (forall i q c ck,
            chain !! i = Some q -> chain !! S i = Some c ->
            (forall j q' c', (j < i)%nat ->
                chain !! j = Some q' -> chain !! S j = Some c' ->
                forall ck', passes ck' q' c') ->
            (forall ck', In ck' (before ck) -> passes ck' q c) ->
            ~ passes ck q c ->
            v = Verdict.mk false (Some (Z.of_nat (S i)))
                  (Some (reason ck +:+ " at block " +:+ JS.toString 10 (Z.of_nat (S i)))))
        /\ ((forall j q' c', chain !! j = Some q' -> chain !! S j = Some c' ->
                            forall ck', passes ck' q' c') ->
            v = Verdict.mk true None None)).
Proof.
  intros Hsafe.
  assert (Hd : Forall (fun b => 0 <= difficulty b) chain)
    by (apply (Forall_impl _ _ _ Hsafe); intros b Hb; apply Hb).
  clear Hsafe. destruct chain as [|g rest].
  - eexists. split; [reflexivity|]. split; [reflexivity|].
    split; intros genesis E; discriminate.
  - apply Forall_cons in Hd as [_ Hd]. cbn [validateChain].
    destruct (Z.eqb_spec (index g) 0) as [Hg|Hg]; cbn [negb].
    + destruct (validateFrom_total rest 1 g Hd) as [v Hv].
      destruct (validateFrom_spec rest 1 g Hd) as [Hfail Hok].
      exists v. split; [exact Hv|]. split; [discriminate|]. split.
      * intros genesis E. injection E as <-. tauto.
      * intros genesis E _. injection E as <-. split.
        -- intros i q c ck Hq Hc Hprev Hbefore Hno.
           specialize (Hfail i q c ck Hq Hc Hprev Hbefore Hno).
           rewrite Hv in Hfail. injection Hfail as ->. reflexivity.
        -- intros Hall. specialize (Hok Hall). rewrite Hv in Hok.
           injection Hok as ->. reflexivity.
    + eexists. split; [reflexivity|]. split; [discriminate|]. split; [reflexivity|].
      intros genesis E. injection E as <-. tauto.
Qed.

Lemma validateChain_verdict_witness :
  validateChain (recomputed 0) = Ok (Verdict.mk true None None).
Proof.
  destruct (validateChain_verdict (recomputed 0)) as (v & Hv & _ & _ & H).
  - repeat constructor; vm_compute; discriminate.
  - rewrite Hv. clear Hv. f_equal.
    apply (H GENESIS_BLOCK); [reflexivity | reflexivity |].
    clear H. intros [|[|j]] q' c' Hq Hc; [|discriminate Hc..].
    injection Hq as <-. injection Hc as <-.
    intros []; vm_compute; try reflexivity. discriminate.
Defined.

Example validateChain_index_gap :
  validateChain [GENESIS_BLOCK; mkBlock 2 1700000000001 "v" "h" "p" "n" "x" 0]
  = Ok (Verdict.mk false (Some 1) (Some "Index discontinuity at block 1")).
Proof. reflexivity. Qed.

Example validateChain_broken_link :
  validateChain [GENESIS_BLOCK; mkBlock 1 1700000000001 "v" "h" "p" "n" "x" 0]
  = Ok (Verdict.mk false (Some 1) (Some "Hash chain broken at block 1")).
Proof. reflexivity. Qed.

Example validateChain_weak_seal :
  validateChain (recomputed 1)
  = Ok (Verdict.mk false (Some 1) (Some "Invalid PoW at block 1")).
Proof. vm_compute. reflexivity. Qed.

(** C7 as stated fails: on a chain whose second block passes the first three
    checks and holds a negative difficulty, [validateChain] throws. (So it
    does on one that holds a difficulty beyond the longest string.) *)
Lemma validateChain_throws :
  validateChain negativeDifficulty = Throw RangeError
  /\ ~ exists v, validateChain negativeDifficulty = Ok v.
Proof.
  assert (E : validateChain negativeDifficulty = Throw RangeError)
    by (vm_compute; reflexivity).
  split; [exact E|]. intros [v Hv]. rewrite E in Hv. discriminate.
Qed.

(** ** The shape of what [shamirSplit] returns *)

Lemma drawCoefficients_total (count : nat) :
  forall w, exists l w', drawCoefficients count w = Ok (l, w').
Proof.
  induction count as [|count IH]; intros w; cbn [drawCoefficients].
  - unfold ret. eauto.
  - unfold bind at 1. unfold generateRandomBytes at 1.
    unfold bind at 1. destruct (IH (mkWorld (entropy w) (drawn w + 1) (clock w) (ticks w)))
      as (l & w' & ->).
    unfold ret. eauto.
Qed.

(** A turn over [byteIdx] keeps the identifiers and the lengths. *)
Lemma splitByte_shape (secret : list Z) (k : Z) (shares : list Share)
    (byteIdx : nat) (w : World) :
  exists shares' w',
    splitByte secret k shares byteIdx w = Ok (shares', w')
    /\ map x shares' = map x shares
    /\ map (fun sh => length (y sh)) shares' = map (fun sh => length (y sh)) shares.
Proof.
  unfold splitByte, bind.
  destruct (drawCoefficients_total (Z.to_nat (k - 1)) w) as (l & w' & ->).
  unfold ret. eexists _, _. split; [reflexivity|].
  rewrite !map_map. split; apply map_ext; intros sh; cbn [x y mkShare yArray Uint8Array.elements Uint8Array.new Uint8Array.set]; [reflexivity|].
  apply length_insert.
Qed.

Lemma splitBytes_shape (secret : list Z) (k : Z) (idxs : list nat) :
  forall (shares : list Share) (w : World),
  exists shares' w',
    foldM (splitByte secret k) idxs shares w = Ok (shares', w')
    /\ map x shares' = map x shares
    /\ map (fun sh => length (y sh)) shares' = map (fun sh => length (y sh)) shares.
Proof.
  induction idxs as [|byteIdx idxs IH]; intros shares w; cbn [foldM].
  - unfold ret. eauto.
  - unfold bind.
    destruct (splitByte_shape secret k shares byteIdx w) as (s1 & w1 & -> & Hx & Hy).
    destruct (IH s1 w1) as (s2 & w2 & -> & Hx2 & Hy2).
    eexists _, _. split; [reflexivity|]. split; congruence.
Qed.

(** C6. [shamirSplit(secret, n, k)] throws exactly when [k < 2] or [k > n].
    When it returns, there are [n] shares, their identifiers are 1, 2, ...,
    [n] in this order, all different, and each [y] is as long as the
    secret. *)
Theorem shamirSplit_shape (secret : list Z) (n k : Z) (w : World) :
  match shamirSplit secret n k w with
  | Throw e =>
      (k < 2 \/ k > n)
      /\ (e = Error "Threshold cannot exceed total shares"
          \/ e = Error "Threshold must be at least 2")
  | Ok (shares, _) =>
      2 <= k <= n
      /\ Z.of_nat (length shares) = n
      /\ map x shares = map Z.of_nat (seq 1 (Z.to_nat n))
      /\ NoDup (map x shares)
      /\ Forall (fun sh => length (y sh) = length secret) shares
  end.
Proof.
  unfold shamirSplit.
  destruct (Z.ltb_spec n k) as [Hnk|Hnk]; [cbn; split; [lia | auto]|].
  destruct (Z.ltb_spec k 2) as [Hk|Hk]; [cbn; split; [lia | auto]|].
  destruct (splitBytes_shape secret k (seq 0 (length secret))
              (map (fun i => mkShare (Z.of_nat i) (List.repeat 0 (length secret)))
                   (seq 1 (Z.to_nat n))) w) as (shares & w' & -> & Hx & Hy).
  rewrite map_map in Hx, Hy. cbn [x y mkShare yArray Uint8Array.elements Uint8Array.new Uint8Array.set] in Hx, Hy.
  split; [lia|]. split; [|split; [exact Hx|split]].
  - rewrite <- (length_map x), Hx, length_map, length_seq. lia.
  - rewrite Hx. apply NoDup_fmap_2; [intros a b; lia | apply NoDup_seq].
  - apply Forall_forall. intros sh Hsh.
    assert (Hin : In (length (y sh)) (map (fun sh => length (y sh)) shares))
      by (apply in_map_iff; exists sh; split; [reflexivity | apply list_elem_of_In, Hsh]).
    rewrite Hy in Hin. apply in_map_iff in Hin as (i & Hi & _).
    rewrite <- Hi. apply repeat_length.
Qed.

(** ** States of the ledger *)

(** What a successful [addVote] returns. *)
Lemma addVote_inv (st : BlockchainState) (ev vh : string) (d : Z) (w : World)
    (st' : BlockchainState) (b : Block) (t : Z) (w' : World) :
  addVote st ev vh d w = Ok (st', b, t, w') ->
  chain st' = (chain st ++ [b])%list
  /\ pendingVotes st' = <[vh := b]> (pendingVotes st)
  /\ isValid st' = true
  /\ voterHash b = vh /\ difficulty b = d.
Proof.
  unfold addVote, bind, Date_now.
  destruct (last (chain st)) as [prev|]; [|discriminate].
  cbn [entropy drawn clock ticks].
  destruct (mineBlock _ _ d _) as [[[[nonce' hash'] attempts] w1]|e]; [|discriminate].
  unfold ret. intros H. injection H as <- <- _ _. cbn. auto.
Qed.


Lemma reachable_inv (st : BlockchainState) :
  reachable st -> chain st <> [] /\ isValid st = true.
Proof.
  induction 1 as [w st w' Hc | st ev vh d w st' b t w' _ _ Ha].
  - unfold createBlockchain, bind, Date_now, ret in Hc. injection Hc as <- _.
    cbn. split; [discriminate | reflexivity].
  - apply addVote_inv in Ha as (Hch & _ & Hv & _). split; [|exact Hv].
    rewrite Hch. intros E. apply app_eq_nil in E as [_ E]. discriminate.
Qed.

Lemma getVoteStatistics_run (st : BlockchainState) :
  chain st <> [] ->
  exists s, getVoteStatistics st = Ok s
    /\ totalBlocks s = Z.of_nat (length (chain st)) - 1
    /\ uniqueVoters s = Z.of_nat (size (pendingVotes st))
    /\ chainIntegrity s = isValid st.
Proof.
  intros Hne. unfold getVoteStatistics.
  destruct (last (chain st)) as [b|] eqn:El; [|apply last_None in El; contradiction].
  eexists. split; [reflexivity|]. cbn. auto.
Qed.

(** The run in the still world: the initial state, then one vote. *)
Lemma still_run :
  exists st0 w1 st b t w2,
    createBlockchain still = Ok (st0, w1)
    /\ addVote st0 "v" "h" 0 w1 = Ok (st, b, t, w2)
    /\ validateChain (chain st)
       = Ok (Verdict.mk false (Some 1) (Some "Hash mismatch at block 1")).
Proof.
  destruct (createBlockchain still) as [[st0 w1]|e] eqn:E0; [|discriminate].
  destruct (addVote st0 "v" "h" 0 w1) as [[[[st b] t] w2]|e] eqn:E1.
  - exists st0, w1, st, b, t, w2. split; [reflexivity|]. split; [exact E1|].
    pose proof still_vote_rejected as R.
    unfold bind in R. rewrite E0, E1 in R. exact R.
  - pose proof still_vote_rejected as R.
    unfold bind in R. rewrite E0, E1 in R. contradiction.
Qed.

(** C10. In every state reached from [createBlockchain] by [addVote] calls
    the field [isValid] is true, and so is the [chainIntegrity] that
    [getVoteStatistics] reports; the flag is set without looking at the
    chain: a reachable state holds it while [validateChain] rejects its
    chain. *)
Theorem isValid_always_true :
  (forall st, reachable st ->
     isValid st = true
     /\ exists s, getVoteStatistics st = Ok s /\ chainIntegrity s = true)
  /\ (exists st v,
        reachable st /\ isValid st = true
        /\ validateChain (chain st) = Ok v /\ Verdict.isValid v = false).
Proof.
  split.
  - intros st Hr. destruct (reachable_inv st Hr) as [Hne Hv]. split; [exact Hv|].
    destruct (getVoteStatistics_run st Hne) as (s & Hs & _ & _ & Hi).
    exists s. split; [exact Hs | congruence].
  - destruct still_run as (st0 & w1 & st & b & t & w2 & E0 & E1 & Ev).
    assert (Hr : reachable st)
      by (eapply reach_add; [eapply reach_create; exact E0 | exact E1]).
    exists st, (Verdict.mk false (Some 1) (Some "Hash mismatch at block 1")).
    split; [exact Hr|]. split; [apply (reachable_inv st Hr)|]. split; [exact Ev | reflexivity].
Qed.

Lemma isValid_always_true_witness :
  reachable (mkState [GENESIS_BLOCK] ∅ true 1700000000000)
  /\ exists s,
       getVoteStatistics (mkState [GENESIS_BLOCK] ∅ true 1700000000000) = Ok s
       /\ chainIntegrity s = true.
Proof.
  assert (Hr : reachable (mkState [GENESIS_BLOCK] ∅ true 1700000000000))
    by (eapply (reach_create still); reflexivity).
  split; [exact Hr|]. exact (proj2 (proj1 isValid_always_true _ Hr)).
Defined.

(** ** Counting voters *)




(** ** Textual shares *)

Lemma range_cases (m : nat) (P : Z -> Prop) :
  Forall (fun n => P (Z.of_nat n)) (seq 0 m) ->
  forall d, 0 <= d < Z.of_nat m -> P d.
Proof.
  intros H d Hd. rewrite Forall_forall in H.
  replace d with (Z.of_nat (Z.to_nat d)) by lia.
  apply H. apply list_elem_of_In, in_seq. lia.
Qed.

Lemma digitChar_decimal (d : Z) :
  0 <= d < 10 ->
  isDigit (JS.digitChar d) = true /\ JS.digitValue (JS.digitChar d) = Some d.
Proof.
  revert d. apply (range_cases 10). repeat constructor.
Qed.

Lemma append_cons (a : ascii) (s t : string) : String a s +:+ t = String a (s +:+ t).
Proof. reflexivity. Qed.

Lemma append_empty (t : string) : EmptyString +:+ t = t.
Proof. reflexivity. Qed.

(** Digits printed in base 10 are read back as the number they print,
    also after leading zeros. *)
Lemma digits_parse (fuel : nat) :
  forall (n : Z) (acc : string) (st : option Z),
    (1 <= fuel)%nat -> 0 <= n < 2 ^ Z.of_nat fuel ->
    st = None \/ st = Some 0 ->
    JS.parseDigits 10 (JS.digits fuel 10 n acc) st = JS.parseDigits 10 acc (Some n).
Proof.
  induction fuel as [|fuel IH]; intros n acc st Hf Hn Hst; [lia|].
  cbn [JS.digits].
  assert (Hd : 0 <= n mod 10 < 10) by (apply Z.mod_pos_bound; lia).
  destruct (digitChar_decimal _ Hd) as [_ Hv].
  destruct (Z.ltb_spec n 10) as [Hlt|Hge].
  - cbn [JS.parseDigits]. rewrite Hv.
    destruct (Z.ltb_spec (n mod 10) 10); [|lia].
    rewrite Z.mod_small by lia.
    destruct Hst as [->| ->]; [reflexivity | do 2 f_equal; lia].
  - assert (Hq : 0 <= n / 10 < 2 ^ Z.of_nat fuel).
    { split; [apply Z.div_pos; lia|].
      apply Z.div_lt_upper_bound; [lia|].
      rewrite Nat2Z.inj_succ, Z.pow_succ_r in Hn by lia. lia. }
    assert (Hfuel : (1 <= fuel)%nat).
    { destruct fuel; [|lia]. cbn in Hq. assert (1 <= n / 10) by
        (apply Z.div_le_lower_bound; lia). lia. }
    rewrite (IH (n / 10) _ st Hfuel Hq Hst).
    cbn [JS.parseDigits]. rewrite Hv.
    destruct (Z.ltb_spec (n mod 10) 10); [|lia].
    do 2 f_equal. pose proof (Z.div_mod n 10). lia.
Qed.

Lemma digits_decimal (fuel : nat) :
  forall (n : Z) (acc : string),
    0 <= n ->
    forallb isDigit (list_ascii_of_string acc) = true ->
    forallb isDigit (list_ascii_of_string (JS.digits fuel 10 n acc)) = true.
Proof.
  induction fuel as [|fuel IH]; intros n acc Hn Hacc; [exact Hacc|].
  cbn [JS.digits].
  assert (Hd : 0 <= n mod 10 < 10) by (apply Z.mod_pos_bound; lia).
  destruct (digitChar_decimal _ Hd) as [Hdig _].
  assert (Hacc' : forallb isDigit
                    (list_ascii_of_string (String (JS.digitChar (n mod 10)) acc)) = true)
    by (cbn [list_ascii_of_string forallb]; rewrite Hdig, Hacc; reflexivity).
  destruct (n <? 10); [exact Hacc'|].
  apply IH; [apply Z.div_pos; lia | exact Hacc'].
Qed.

Lemma digits_length (fuel : nat) :
  forall (radix n : Z) (acc : string),
    (String.length acc + (if fuel is O then 0 else 1)
     <= String.length (JS.digits fuel radix n acc))%nat.
Proof.
  induction fuel as [|fuel IH]; intros radix n acc; cbn [JS.digits]; [lia|].
  destruct (n <? radix); [cbn; lia|].
  specialize (IH radix (n / radix) (String (JS.digitChar (n mod radix)) acc)).
  cbn [String.length] in IH. destruct fuel; lia.
Qed.

Lemma fuel_enough (n : Z) : 0 <= n -> n < 2 ^ Z.of_nat (S (Z.to_nat (Z.log2 n))).
Proof.
  intros Hn. pose proof (Z.log2_nonneg n).
  rewrite Nat2Z.inj_succ, Z2Nat.id by lia.
  destruct (Z.eq_dec n 0) as [->|Hz]; [reflexivity|].
  apply Z.log2_spec. lia.
Qed.

Lemma zeros_parse (m : nat) (s : string) :
  forall st, st = None \/ st = Some 0 ->
    exists st', (st' = None \/ st' = Some 0)
      /\ JS.parseDigits 10 (JS.repeatChar m "0" +:+ s) st = JS.parseDigits 10 s st'.
Proof.
  induction m as [|m IH]; intros st Hst; cbn [JS.repeatChar].
  - exists st. split; [exact Hst | reflexivity].
  - rewrite append_cons. cbn [JS.parseDigits].
    change (JS.digitValue "0") with (Some 0). cbn [Z.ltb Z.compare].
    destruct (IH (Some (match st with Some a => a * 10 + 0 | None => 0 end)))
      as (st' & Hst' & ->).
    + right. destruct Hst as [->| ->]; reflexivity.
    + eauto.
Qed.

Lemma forallb_append (p : ascii -> bool) (s t : string) :
  forallb p (list_ascii_of_string (s +:+ t))
  = forallb p (list_ascii_of_string s) && forallb p (list_ascii_of_string t).
Proof.
  induction s as [|a s IH]; [reflexivity|].
  rewrite append_cons. cbn [list_ascii_of_string forallb]. rewrite IH.
  apply andb_assoc.
Qed.

Lemma repeatChar_all (p : ascii -> bool) (m : nat) (c : ascii) :
  p c = true -> forallb p (list_ascii_of_string (JS.repeatChar m c)) = true.
Proof. intros Hc. induction m as [|m IH]; cbn; [reflexivity | now rewrite Hc, IH]. Qed.

(** The first group of an encoded share with a non-negative identifier. *)
Lemma identifier_text (xv : Z) :
  0 <= xv ->
  let g1 := JS.padStart 2 "0" (JS.toString 10 xv) in
  forallb isDigit (list_ascii_of_string g1) = true
  /\ (1 <= String.length g1)%nat
  /\ JS.parseInt g1 10 = Some xv.
Proof.
  intros Hx. unfold JS.padStart, JS.toString, JS.parseInt.
  destruct (Z.ltb_spec xv 0); [lia|].
  set (ds := JS.digits (S (Z.to_nat (Z.log2 xv))) 10 xv EmptyString).
  split; [|split].
  - rewrite forallb_append, repeatChar_all by reflexivity.
    apply digits_decimal; [lia | reflexivity].
  - rewrite append_length.
    pose proof (digits_length (S (Z.to_nat (Z.log2 xv))) 10 xv EmptyString) as L.
    fold ds in L. cbn [String.length] in L. lia.
  - destruct (zeros_parse (2 - String.length ds) ds None) as (st' & Hst' & ->); [auto|].
    unfold ds. rewrite digits_parse; [reflexivity | lia | | exact Hst'].
    split; [lia | apply fuel_enough; lia].
Qed.

Lemma span_until (p : ascii -> bool) (s : string) (c : ascii) (rest : string) :
  forallb p (list_ascii_of_string s) = true -> p c = false ->
  span p (s +:+ String c rest) = (s, String c rest).
Proof.
  intros Hs Hc. induction s as [|a s IH].
  - rewrite append_empty. cbn [span]. rewrite Hc. reflexivity.
  - cbn [list_ascii_of_string forallb] in Hs. apply andb_prop in Hs as [Ha Hs].
    rewrite append_cons. cbn [span]. rewrite Ha, (IH Hs). reflexivity.
Qed.

Lemma span_whole (p : ascii -> bool) (s : string) :
  forallb p (list_ascii_of_string s) = true -> span p s = (s, EmptyString).
Proof.
  intros Hs. induction s as [|a s IH]; [reflexivity|].
  cbn [list_ascii_of_string forallb] in Hs. apply andb_prop in Hs as [Ha Hs].
  cbn [span]. rewrite Ha, (IH Hs). reflexivity.
Qed.

Lemma bufferToHex_hex (bs : list Z) :
  Forall isByte bs -> forallb isHex (list_ascii_of_string (bufferToHex bs)) = true.
Proof.
  induction 1 as [|b bs Hb _ IH]; [reflexivity|].
  rewrite bufferToHex_cons, forallb_append, IH.
  destruct (byte_hex b Hb) as (c1 & c2 & -> & H1 & H2 & _).
  cbn [list_ascii_of_string forallb]. rewrite H1, H2. reflexivity.
Qed.

(** The pairs of hex digits of a buffer are read back as its bytes. *)
Lemma pairs_bufferToHex (bs : list Z) :
  forall fuel, Forall isByte bs -> (length bs <= fuel)%nat ->
    map (fun byte => JS.toUint8 (JS.parseInt byte 16)) (pairs fuel (bufferToHex bs)) = bs.
Proof.
  induction bs as [|b bs IH]; intros fuel Hb Hf.
  - destruct fuel; reflexivity.
  - apply Forall_cons in Hb as [Hb Hbs].
    destruct fuel as [|fuel]; [cbn in Hf; lia|].
    rewrite bufferToHex_cons.
    destruct (byte_hex b Hb) as (c1 & c2 & -> & _ & _ & Hp).
    rewrite !append_cons, append_empty. cbn [pairs map]. rewrite Hp.
    cbn [JS.toUint8]. rewrite Z.mod_small by exact Hb.
    f_equal. apply IH; [exact Hbs | cbn in Hf; lia].
Qed.

Lemma matchShare_encoded (g1 g2 : string) :
  forallb isDigit (list_ascii_of_string g1) = true ->
  forallb isHex (list_ascii_of_string g2) = true ->
  matchShare ("SHARD-" +:+ g1 +:+ ":" +:+ g2)
  = match g1, g2 with
    | String _ _, String _ _ => Some (g1, g2)
    | _, _ => None
    end.
Proof.
  intros H1 H2. unfold matchShare.
  change (literal "SHARD-" ("SHARD-" +:+ g1 +:+ ":" +:+ g2))
    with (Some (g1 +:+ String ":" g2)).
  cbv beta iota.
  rewrite (span_until isDigit g1 ":" g2 H1 eq_refl).
  destruct g1 as [|a g1]; [reflexivity|].
  rewrite (span_whole isHex g2 H2). destruct g2; reflexivity.
Qed.

(** The read of the first group in [decodeShare] always gives a number. *)
Lemma parseDigits_started (radix : Z) (s : string) :
  forall v, exists v', JS.parseDigits radix s (Some v) = Some v'.
Proof.
  induction s as [|c s IH]; intros v; cbn [JS.parseDigits]; [eauto|].
  destruct (JS.digitValue c) as [d|]; [|eauto].
  destruct (d <? radix); [apply IH | eauto].
Qed.

Lemma span_head (p : ascii -> bool) (s : string) (a : ascii) (h t : string) :
  span p s = (String a h, t) -> p a = true.
Proof.
  destruct s as [|c s]; cbn [span]; [discriminate|].
  destruct (p c) eqn:Hc; [|discriminate].
  destruct (span p s) as [h' t']. intros E. injection E as <- _ _. exact Hc.
Qed.

Lemma isDigit_value (c : ascii) :
  isDigit c = true -> exists d, JS.digitValue c = Some d /\ d < 10.
Proof.
  destruct c as [[] [] [] [] [] [] [] []]; try discriminate; intros _;
    eexists; (split; [reflexivity | reflexivity]).
Qed.

Lemma matchShare_number (encoded g1 g2 : string) :
  matchShare encoded = Some (g1, g2) -> exists xv, JS.parseInt g1 10 = Some xv.
Proof.
  unfold matchShare. destruct (literal "SHARD-" encoded) as [rest|]; [|discriminate].
  destruct (span isDigit rest) as [[|a h] t] eqn:Es; [discriminate|].
  destruct t as [|c t]; [discriminate|].
  destruct (Ascii.eqb_spec c ":") as [->|Hc].
  - destruct (span isHex t) as [[|b h2] [|? ?]]; try discriminate.
    intros E. injection E as <- _.
    apply span_head in Es. destruct (isDigit_value a Es) as (d & Hd & Hlt).
    unfold JS.parseInt. cbn [JS.parseDigits]. rewrite Hd.
    destruct (Z.ltb_spec d 10); [|lia]. apply parseDigits_started.
  - intros E. exfalso. revert E.
    destruct c as [[] [] [] [] [] [] [] []]; try discriminate. congruence.
Qed.

Example encodeShare_sample :
  encodeShare (mkShare 3 [0; 171; 255]) = "SHARD-03:00abff"
  /\ decodeShare "shard-12:0AbC" = Ok (mkShare 12 [10; 188])
  /\ decodeShare "SHARD-1:" = Throw (Error "Invalid share format").
Proof. repeat split; reflexivity. Qed.

(** A share whose array spans its buffer is the share [mkShare] makes. *)
Lemma whole_share (share : Share) :
  Uint8Array.whole (yArray share) -> share = mkShare (x share) (y share).
Proof.
  destruct share as [xv [b e a]]. unfold Uint8Array.whole, mkShare, y, Uint8Array.new.
  cbn [x yArray Uint8Array.before Uint8Array.after Uint8Array.elements].
  intros [-> ->]. reflexivity.
Qed.

Lemma buffer_new (bytes : list Z) : Uint8Array.buffer (Uint8Array.new bytes) = bytes.
Proof. unfold Uint8Array.buffer, Uint8Array.new. cbn. apply app_nil_r. Qed.

Lemma encodeShare_new (xv : Z) (yv : list Z) :
  encodeShare (mkShare xv yv)
  = "SHARD-" +:+ JS.padStart 2 "0" (JS.toString 10 xv) +:+ ":" +:+ bufferToHex yv.
Proof. unfold encodeShare, mkShare. cbn [x yArray]. rewrite buffer_new. reflexivity. Qed.

Lemma text_roundtrip (xv : Z) (yv : list Z) :
  0 <= xv -> yv <> [] -> Forall isByte yv ->
  decodeShare (encodeShare (mkShare xv yv)) = Ok (mkShare xv yv).
Proof.
  intros Hx Hy Hb. rewrite encodeShare_new. unfold decodeShare.
  destruct (identifier_text xv Hx) as (Hdig & Hlen & Hparse). cbv zeta in *.
  rewrite (matchShare_encoded _ _ Hdig (bufferToHex_hex yv Hb)).
  pose proof (bufferToHex_length yv Hb) as Lh.
  destruct (JS.padStart 2 "0" (JS.toString 10 xv)) as [|a g1] eqn:Eg; [cbn in Hlen; lia|].
  destruct (bufferToHex yv) as [|c g2] eqn:Eh.
  - destruct yv; [contradiction | cbn in Lh; lia].
  - rewrite Hparse. do 2 f_equal. rewrite <- Eh. apply pairs_bufferToHex; [exact Hb|].
    rewrite bufferToHex_length by exact Hb. lia.
Qed.

Lemma empty_text_rejected (xv : Z) :
  decodeShare (encodeShare (mkShare xv [])) = Throw (Error "Invalid share format").
Proof.
  rewrite encodeShare_new. unfold decodeShare.
  change (bufferToHex []) with EmptyString.
  destruct (Z.ltb_spec xv 0) as [Hneg|Hpos].
  - unfold matchShare, JS.padStart, JS.toString.
    destruct (Z.ltb_spec xv 0); [|lia].
    pose proof (digits_length (S (Z.to_nat (Z.log2 (- xv)))) 10 (- xv) EmptyString) as L.
    cbn [String.length] in *.
    replace (2 - S (String.length
                      (JS.digits (S (Z.to_nat (Z.log2 (- xv)))) 10 (- xv) EmptyString)))%nat
      with 0%nat by lia.
    cbn [JS.repeatChar]. rewrite !append_cons, !append_empty. reflexivity.
  - destruct (identifier_text xv Hpos) as (Hdig & _). cbv zeta in Hdig.
    rewrite (matchShare_encoded _ EmptyString Hdig eq_refl).
    destruct (JS.padStart 2 "0" (JS.toString 10 xv)); reflexivity.
Qed.

(** C9, as the code has it. [encodeShare] writes the whole buffer under
    [share.y], not the elements of [share.y]. A share with an integer
    identifier from 1 and below 10^21 (from where the identifier prints in
    exponent notation) and a non-empty array that spans its buffer, as the
    arrays of [shamirSplit] and [decodeShare] do, is read back from its
    text as it was. The text of a share whose array is empty and spans its
    buffer is rejected as an invalid share format. *)
Theorem share_text_roundtrip :
  (forall share : Share,
      1 <= x share < 10 ^ 21 -> y share <> [] -> Forall isByte (y share) ->
      Uint8Array.whole (yArray share) ->
      decodeShare (encodeShare share) = Ok share)
  /\ (forall share : Share,
        y share = [] -> Uint8Array.whole (yArray share) ->
        decodeShare (encodeShare share) = Throw (Error "Invalid share format")).
Proof.
  split.
  - intros share Hx Hy Hb Hw. rewrite (whole_share share Hw).
    apply text_roundtrip; [lia | exact Hy | exact Hb].
  - intros share Hy Hw. rewrite (whole_share share Hw), Hy. apply empty_text_rejected.
Qed.

Lemma share_text_roundtrip_witness :
  decodeShare (encodeShare (mkShare 3 [0; 171; 255])) = Ok (mkShare 3 [0; 171; 255])
  /\ decodeShare (encodeShare (mkShare 7 [])) = Throw (Error "Invalid share format").
Proof.
  split.
  - apply (proj1 share_text_roundtrip (mkShare 3 [0; 171; 255])).
    + cbn. lia.
    + discriminate.
    + repeat constructor; cbn; lia.
    + split; reflexivity.
  - apply (proj2 share_text_roundtrip (mkShare 7 [])); [reflexivity | split; reflexivity].
Defined.

(** C9 as stated fails for an array that is a window on a larger buffer.
    With [b = new Uint8Array([1, 2])], the share [{x: 1, y: b.subarray(1)}]
    has the one byte 2 and is written as "SHARD-01:0102", which reads back
    as the bytes 1, 2; the share [{x: 1, y: b.subarray(1, 1)}] has no byte
    and its text, the same, is not rejected. *)
Lemma share_view_not_restored :
  (1 <= x (Build_Share 1 (Uint8Array.mk [1] [2] []))
   /\ y (Build_Share 1 (Uint8Array.mk [1] [2] [])) = [2]
   /\ encodeShare (Build_Share 1 (Uint8Array.mk [1] [2] [])) = "SHARD-01:0102"
   /\ exists read,
        decodeShare (encodeShare (Build_Share 1 (Uint8Array.mk [1] [2] []))) = Ok read
        /\ y read = [1; 2]
        /\ y read <> y (Build_Share 1 (Uint8Array.mk [1] [2] [])))
  /\ (y (Build_Share 1 (Uint8Array.mk [1] [] [2])) = []
      /\ decodeShare (encodeShare (Build_Share 1 (Uint8Array.mk [1] [] [2])))
         = Ok (mkShare 1 [1; 2])).
Proof.
  split.
  - split; [cbn; lia|]. split; [reflexivity|]. split; [reflexivity|].
    exists (mkShare 1 [1; 2]). split; [reflexivity|]. split; [reflexivity|].
    cbn. discriminate.
  - split; reflexivity.
Qed.

(** * Further properties *)

Import Vote Edit.

(** ** GF(256) multiplication as the tables give it *)

Lemma forallb_range (m : nat) (p : Z -> bool) :
  forallb (fun n => p (Z.of_nat n)) (seq 0 m) = true ->
  forall d, 0 <= d < Z.of_nat m -> p d = true.
Proof.
  intros H d Hd. rewrite forallb_forall in H.
  replace d with (Z.of_nat (Z.to_nat d)) by lia.
  apply H, in_seq. lia.
Qed.

Lemma isPowerOfTwo_In (a : Z) : isPowerOfTwo a = true <-> In a (firstn 51 EXP_TABLE).
Proof.
  unfold isPowerOfTwo. rewrite existsb_exists. split.
  - intros (u & Hu & E). apply Z.eqb_eq in E. now subst.
  - intros H. exists a. split; [exact H | apply Z.eqb_refl].
Qed.

Lemma byte_pairs (check : Z -> Z -> bool) :
  forallb (fun i => forallb (fun j => check (Z.of_nat i) (Z.of_nat j)) (seq 0 256))
          (seq 0 256) = true ->
  forall a b, isByte a -> isByte b -> check a b = true.
Proof.
  intros H a b Ha Hb.
  apply (forallb_range 256 (fun b => check a b)); [|exact Hb].
  apply (forallb_range 256
           (fun a => forallb (fun j => check a (Z.of_nat j)) (seq 0 256)) H a Ha).
Qed.

Lemma mulCheck_all (a b : Z) : isByte a -> isByte b -> mulCheck a b = true.
Proof. apply byte_pairs. vm_compute. reflexivity. Qed.

Lemma divCheck_all (a b : Z) : isByte a -> isByte b -> divCheck a b = true.
Proof. apply byte_pairs. vm_compute. reflexivity. Qed.

(** X1. On bytes [gfMul] returns a byte, the same in either order of the
    operands; the product is 0 exactly when an operand is 0, and a non-zero
    product is always one of the 51 powers of 2 the tables hold. *)
Theorem gfMul_bytes (a b : Z) :
  isByte a -> isByte b ->
  exists v,
    gfMul (Some a) (Some b) = Some v
    /\ gfMul (Some b) (Some a) = Some v
    /\ isByte v
    /\ (v = 0 <-> a = 0 \/ b = 0)
    /\ (v <> 0 -> In v (firstn 51 EXP_TABLE)).
Proof.
  intros Ha Hb. pose proof (mulCheck_all a b Ha Hb) as H. unfold mulCheck in H.
  destruct (gfMul (Some a) (Some b)) as [v|]; [|discriminate].
  destruct (gfMul (Some b) (Some a)) as [v'|]; [|discriminate].
  apply andb_prop in H as [H Hpow]. apply andb_prop in H as [H Hzero].
  apply andb_prop in H as [H Hhi]. apply andb_prop in H as [Heq Hlo].
  apply Z.eqb_eq in Heq. subst v'. apply Bool.eqb_prop in Hzero.
  exists v. split; [reflexivity|]. split; [reflexivity|]. split; [unfold isByte; lia|].
  split; [split|].
  - intros ->. cbn in Hzero. symmetry in Hzero. apply orb_prop in Hzero. lia.
  - intros Hz. destruct (Z.eqb_spec v 0); [assumption|].
    symmetry in Hzero. apply orb_false_elim in Hzero. lia.
  - intros Hv. apply orb_prop in Hpow as [E|E]; [lia | apply isPowerOfTwo_In, E].
Qed.

Lemma gfMul_bytes_witness :
  exists v, gfMul (Some 3) (Some 7) = Some v /\ gfMul (Some 7) (Some 3) = Some v
            /\ isByte v /\ (v = 0 <-> 3 = 0 \/ 7 = 0)
            /\ (v <> 0 -> In v (firstn 51 EXP_TABLE)).
Proof. apply (gfMul_bytes 3 7); unfold isByte; lia. Defined.

(** X2. For bytes [a] and [b] with [b] not 0, [gfDiv(gfMul(a, b), b)]
    returns a number, and that number is [a] exactly when [a] is 0 or one
    of the 51 powers of 2 in the tables: division undoes multiplication
    for 52 of the 256 bytes only. *)
Theorem gfDiv_undoes_gfMul (a b : Z) :
  isByte a -> isByte b -> b <> 0 ->
  exists p q,
    gfMul (Some a) (Some b) = Some p
    /\ gfDiv (Some p) (Some b) = Ok (Some q)
    /\ (q = a <-> a = 0 \/ In a (firstn 51 EXP_TABLE)).
Proof.
  intros Ha Hb Hb0. pose proof (divCheck_all a b Ha Hb) as H. unfold divCheck in H.
  destruct (Z.eqb_spec b 0); [contradiction|]. cbn [orb] in H.
  destruct (gfMul (Some a) (Some b)) as [p|]; [|discriminate].
  destruct (gfDiv (Some p) (Some b)) as [[q|]|] eqn:Eq; try discriminate.
  exists p, q. split; [reflexivity|]. split; [exact Eq|].
  apply Bool.eqb_prop in H. rewrite <- isPowerOfTwo_In. split.
  - intros ->. rewrite Z.eqb_refl in H. symmetry in H. apply orb_prop in H as [H|H]; [|auto].
    left. lia.
  - intros Hin. destruct (Z.eqb_spec q a); [assumption|].
    symmetry in H. apply orb_false_elim in H as [H1 H2].
    destruct Hin as [->|Hin]; [discriminate | congruence].
Qed.

Lemma gfDiv_undoes_gfMul_witness :
  exists p q, gfMul (Some 4) (Some 3) = Some p /\ gfDiv (Some p) (Some 3) = Ok (Some q)
              /\ (q = 4 <-> 4 = 0 \/ In 4 (firstn 51 EXP_TABLE)).
Proof. apply (gfDiv_undoes_gfMul 4 3); unfold isByte; lia. Defined.

Example field_laws_broken :
  gfMul (Some 3) (Some 1) = Some 1
  /\ length (List.filter isPowerOfTwo (map Z.of_nat (seq 0 256))) = 51%nat.
Proof. split; reflexivity. Qed.

(** ** Digests and leading zeros *)

Lemma byte_lower_hex (b : Z) :
  isByte b ->
  forallb isLowerHex (list_ascii_of_string (JS.padStart 2 "0" (JS.toString 16 b))) = true.
Proof.
  apply (forallb_range 256
           (fun b => forallb isLowerHex
                       (list_ascii_of_string (JS.padStart 2 "0" (JS.toString 16 b))))).
  vm_compute. reflexivity.
Qed.

Lemma bufferToHex_lower (bs : list Z) :
  Forall isByte bs -> forallb isLowerHex (list_ascii_of_string (bufferToHex bs)) = true.
Proof.
  induction 1 as [|b bs Hb _ IH]; [reflexivity|].
  rewrite bufferToHex_cons, forallb_append, IH, byte_lower_hex by exact Hb. reflexivity.
Qed.

(** X3. Every digest [sha256] returns is 64 characters long, all of them
    lower-case hex digits. *)
Theorem sha256_format (data : string) :
  String.length (sha256 data) = 64%nat
  /\ forallb isLowerHex (list_ascii_of_string (sha256 data)) = true.
Proof.
  split; [apply sha256_length|].
  unfold sha256. apply bufferToHex_lower, digest_bytes.
Qed.

Lemma leading_zeros (s : string) :
  exists z : nat,
    (z <= String.length s)%nat
    /\ forall n, String.prefix (JS.repeatChar n "0") s = (n <=? z)%nat.
Proof.
  induction s as [|c s (z & Hz & IH)].
  - exists 0%nat. split; [cbn; lia|]. intros [|n]; reflexivity.
  - destruct (ascii_dec "0" c) as [<-|Hc].
    + exists (S z). split; [cbn; lia|]. intros [|n]; [reflexivity|].
      cbn [JS.repeatChar String.prefix]. destruct (ascii_dec "0" "0"); [|contradiction].
      rewrite IH. reflexivity.
    + exists 0%nat. split; [cbn; lia|]. intros [|n]; [reflexivity|].
      cbn [JS.repeatChar String.prefix]. destruct (ascii_dec "0" c); [contradiction|].
      reflexivity.
Qed.

(** X4. Among the difficulties up to the longest string of the engine
    (beyond it ['0'.repeat] throws a RangeError as well),
    [verifyProofOfWork] throws a RangeError exactly for the negative ones.
    For each hash there is a count [z] of leading zeros, at most its
    length, such that every difficulty [d] from 0 up to the longest string
    is accepted exactly when [d <= z]: what holds at a difficulty holds at
    every lower one, 0 is always accepted, and nothing beyond the length
    of the hash is. *)
Theorem verifyProofOfWork_threshold (hash : string) :
  (forall d, d <= JS.maxStringLength ->
             (verifyProofOfWork hash d = Throw RangeError <-> d < 0))
  /\ exists z,
       0 <= z <= Z.of_nat (String.length hash)
       /\ forall d, 0 <= d <= JS.maxStringLength ->
                    verifyProofOfWork hash d = Ok (d <=? z).
Proof.
  split.
  - intros d _. unfold verifyProofOfWork, JS.repeat.
    destruct (Z.ltb_spec d 0); cbn [rbind]; split; intros; try lia; try reflexivity.
    discriminate.
  - destruct (leading_zeros hash) as (z & Hz & H).
    exists (Z.of_nat z). split; [lia|]. intros d [Hd _].
    unfold verifyProofOfWork, JS.repeat.
    destruct (Z.ltb_spec d 0); [lia|]. cbn [rbind]. unfold JS.startsWith.
    rewrite H. f_equal.
    destruct (Nat.leb_spec (Z.to_nat d) z), (Z.leb_spec d (Z.of_nat z)); try reflexivity; lia.
Qed.

Lemma verifyProofOfWork_threshold_witness :
  exists z, 0 <= z <= 4 /\ verifyProofOfWork "00a0" 2 = Ok (2 <=? z).
Proof.
  destruct (verifyProofOfWork_threshold "00a0") as [_ (z & Hz & H)].
  exists z. split; [exact Hz | apply H; unfold JS.maxStringLength; lia].
Defined.

(** ** What [mineBlock] hands back *)

Lemma nonceAt_length (w : World) (i : nat) : String.length (nonceAt w i) = 32%nat.
Proof.
  unfold nonceAt. rewrite bufferToHex_length; [rewrite length_map, length_seq; reflexivity|].
  apply Forall_forall. intros b Hb. apply list_elem_of_In, in_map_iff in Hb as (j & <- & _).
  unfold isByte. apply Z.mod_pos_bound. lia.
Qed.

Lemma conforms_verify (data previousHash : string) (d : Z) (w : World) (i : nat) :
  0 <= d ->
  verifyProofOfWork (hashAt data previousHash w i) d
  = Ok (conforms data previousHash d w i).
Proof.
  intros Hd. unfold verifyProofOfWork, JS.repeat, conforms.
  destruct (Z.ltb_spec d 0); [lia | reflexivity].
Qed.

(** X5. At a difficulty from 0 up to the longest string of the engine
    [mineBlock] returns a nonce of 32 characters, the digest of data, previous hash and that nonce, and the
    number of attempts, between 1 and 10001; it has taken 16 random bytes
    per attempt and never read the clock. Whenever it stops before the
    10001st attempt, [verifyProofOfWork] accepts the digest at the same
    difficulty. *)
Theorem mineBlock_sealed (data previousHash : string) (difficulty : Z) (w : World) :
  0 <= difficulty <= JS.maxStringLength ->
  exists nonce hash attempts w',
    mineBlock data previousHash difficulty w = Ok (nonce, hash, attempts, w')
    /\ String.length nonce = 32%nat
    /\ hash = sha256 (data +:+ previousHash +:+ nonce)
    /\ 1 <= attempts <= 10001
    /\ Z.of_nat (drawn w') = Z.of_nat (drawn w) + 16 * attempts
    /\ ticks w' = ticks w
    /\ (attempts < 10001 -> verifyProofOfWork hash difficulty = Ok true).
Proof.
  intros [Hd _].
  destruct (mineBlock_spec data previousHash difficulty w Hd) as (i & Hi & Hrun & _ & Hlast).
  eexists _, _, _, _. split; [exact Hrun|].
  split; [apply nonceAt_length|]. split; [reflexivity|]. split; [lia|].
  split; [cbn; lia|]. split; [reflexivity|].
  intros Hlt. rewrite conforms_verify by exact Hd.
  destruct Hlast as [->|]; [reflexivity | lia].
Qed.

Lemma mineBlock_sealed_witness :
  exists nonce hash attempts w',
    mineBlock "d" "p" 0 still = Ok (nonce, hash, attempts, w')
    /\ String.length nonce = 32%nat
    /\ hash = sha256 ("d" +:+ "p" +:+ nonce)
    /\ 1 <= attempts <= 10001
    /\ Z.of_nat (drawn w') = Z.of_nat (drawn still) + 16 * attempts
    /\ ticks w' = ticks still
    /\ (attempts < 10001 -> verifyProofOfWork hash 0 = Ok true).
Proof. apply (mineBlock_sealed "d" "p" 0 still). unfold JS.maxStringLength. lia. Defined.

(** X6. At a difficulty above 64, the length of a digest, and up to the
    longest string of the engine, [mineBlock] always runs its 10001
    attempts and returns a digest that [verifyProofOfWork] rejects at that
    difficulty. *)
Theorem mineBlock_unreachable_target (data previousHash : string) (difficulty : Z)
    (w : World) :
  64 < difficulty <= JS.maxStringLength ->
  exists nonce hash w',
    mineBlock data previousHash difficulty w = Ok (nonce, hash, 10001, w')
    /\ verifyProofOfWork hash difficulty = Ok false.
Proof.
  intros [Hd _].
  destruct (mineBlock_spec data previousHash difficulty w ltac:(lia))
    as (i & Hi & Hrun & _ & Hlast).
  rewrite conforms_beyond_digest in Hlast by exact Hd.
  destruct Hlast as [Hc|Hc]; [discriminate|].
  eexists _, _, _. split.
  - rewrite Hrun. do 3 f_equal. lia.
  - rewrite conforms_verify by lia. f_equal. apply conforms_beyond_digest, Hd.
Qed.

Lemma mineBlock_unreachable_target_witness :
  exists nonce hash w',
    mineBlock "d" "p" 65 still = Ok (nonce, hash, 10001, w')
    /\ verifyProofOfWork hash 65 = Ok false.
Proof.
  apply (mineBlock_unreachable_target "d" "p" 65 still). unfold JS.maxStringLength. lia.
Defined.

(** ** What [addVote] appends *)

Lemma addVote_run (st : BlockchainState) (ev vh : string) (d : Z) (w : World)
    (prev : Block) :
  last (chain st) = Some prev -> 0 <= d ->
  exists i,
    (1 <= i <= Z.to_nat 10001)%nat
    /\ let now := clock w (S (ticks w)) in
       let data := stringifyBlockData (index prev + 1) now ev vh (hash prev) d in
       let w1 := mkWorld (entropy w) (drawn w) (clock w) (S (S (ticks w))) in
       let b := mkBlock (index prev + 1) now ev vh (hash prev)
                        (nonceAt w1 i) (hashAt data (hash prev) w1 i) d in
       addVote st ev vh d w
       = Ok (mkState (chain st ++ [b]) (<[vh := b]> (pendingVotes st)) true
                     (clock w (S (S (S (ticks w))))),
             b, clock w (S (S (ticks w))) - clock w (ticks w),
             mkWorld (entropy w) (drawn w + 16 * i) (clock w) (S (S (S (S (ticks w))))))
       /\ (conforms data (hash prev) d w1 i = true \/ i = Z.to_nat 10001).
Proof.
  intros Hl Hd. unfold addVote, bind, Date_now. rewrite Hl.
  cbn [entropy drawn clock ticks].
  match goal with |- context [mineBlock ?a ?b d ?w1] =>
    destruct (mineBlock_spec a b d w1 Hd) as (i & Hi & Hrun & _ & Hlast) end.
  exists i. split; [exact Hi|]. cbv zeta. rewrite Hrun. unfold ret, advance.
  cbn [entropy drawn clock ticks]. split; [reflexivity | exact Hlast].
Qed.

(** X7. On a state whose chain ends with a block [previous] with a safe
    integer as index, at a difficulty from 0 up to the longest string of
    the engine, [addVote] returns; the chain of the new state
    is the old chain followed by the returned block; that block carries
    the next index, the hash of [previous] as previous hash, the payload,
    voter hash and difficulty given and the second reading of the clock as
    timestamp; its hash is the digest of the serialised block data, the
    previous hash and its nonce. [pendingVotes] changes at the given voter
    hash only, the mining time is the third clock reading minus the first,
    and four clock readings are consumed. *)
Theorem addVote_appends (st : BlockchainState) (encryptedVote' voterHash' : string)
    (difficulty' : Z) (w : World) (previous : Block) :
  last (chain st) = Some previous -> JS.isSafeInteger (index previous) ->
  0 <= difficulty' <= JS.maxStringLength ->
  exists st' block miningTime w',
    addVote st encryptedVote' voterHash' difficulty' w = Ok (st', block, miningTime, w')
    /\ chain st' = (chain st ++ [block])%list
    /\ index block = index previous + 1
    /\ previousHash block = hash previous
    /\ encryptedVote block = encryptedVote'
    /\ voterHash block = voterHash'
    /\ difficulty block = difficulty'
    /\ timestamp block = clock w (S (ticks w))
    /\ hash block
       = sha256 (stringifyBlockData (index block) (timestamp block) encryptedVote'
                   voterHash' (hash previous) difficulty'
                 +:+ hash previous +:+ nonce block)
    /\ pendingVotes st' !! voterHash' = Some block
    /\ (forall other, other <> voterHash' ->
          pendingVotes st' !! other = pendingVotes st !! other)
    /\ miningTime = clock w (S (S (ticks w))) - clock w (ticks w)
    /\ ticks w' = (ticks w + 4)%nat.
Proof.
  intros Hl _ [Hd _].
  destruct (addVote_run st encryptedVote' voterHash' difficulty' w previous Hl Hd)
    as (i & _ & Hrun & _).
  cbv zeta in Hrun. eexists _, _, _, _. split; [exact Hrun|].
  cbn [chain index previousHash encryptedVote voterHash difficulty timestamp hash nonce
       pendingVotes ticks].
  repeat (split; [reflexivity|]).
  split; [apply lookup_insert_eq|].
  split; [intros other Ho; apply lookup_insert_ne; congruence|].
  split; [reflexivity | lia].
Qed.

Lemma addVote_appends_witness :
  exists st' block miningTime w',
    addVote (mkState [GENESIS_BLOCK] ∅ true 0) "v" "h" 0 still
    = Ok (st', block, miningTime, w')
    /\ chain st' = [GENESIS_BLOCK; block]
    /\ index block = 1
    /\ previousHash block = "GENESIS_HASH_ELECTORAL_COMMISSION_2024".
Proof.
  destruct (addVote_appends (mkState [GENESIS_BLOCK] ∅ true 0) "v" "h" 0 still GENESIS_BLOCK)
    as (st' & b & t & w' & E & Hc & Hi & Hp & _);
    [reflexivity | vm_compute; split; reflexivity | unfold JS.maxStringLength; lia |].
  exists st', b, t, w'. repeat split; assumption.
Defined.

(** X8. At a difficulty up to the longest string of the engine, [addVote]
    throws in two cases only: a TypeError on an empty chain, whatever the
    difficulty, and a RangeError at a negative difficulty on a non-empty
    chain. (Beyond the longest string the target of the search cannot be
    built, which is a RangeError as well.) *)
Theorem addVote_throws (st : BlockchainState) (encryptedVote' voterHash' : string)
    (difficulty' : Z) (w : World) :
  difficulty' <= JS.maxStringLength ->
  match addVote st encryptedVote' voterHash' difficulty' w with
  | Throw e =>
      (chain st = [] /\ e = TypeError)
      \/ (chain st <> [] /\ difficulty' < 0 /\ e = RangeError)
  | Ok _ => chain st <> [] /\ 0 <= difficulty'
  end.
Proof.
  intros _. destruct (last (chain st)) as [prev|] eqn:Hl.
  - assert (Hne : chain st <> []) by (intros E; rewrite E in Hl; discriminate).
    destruct (Z.lt_ge_cases difficulty' 0) as [Hd|Hd].
    + unfold addVote, bind, Date_now. rewrite Hl. unfold mineBlock, bind, lift, JS.repeat.
      destruct (Z.ltb_spec difficulty' 0); [|lia]. right. auto.
    + destruct (addVote_run st encryptedVote' voterHash' difficulty' w prev Hl Hd)
        as (i & _ & Hrun & _).
      cbv zeta in Hrun. rewrite Hrun. auto.
  - apply last_None in Hl. unfold addVote, bind, Date_now. rewrite Hl. cbn. left. auto.
Qed.

Lemma addVote_throws_witness :
  match addVote (mkState [GENESIS_BLOCK] ∅ true 0) "v" "h" (-1) still with
  | Throw e =>
      (chain (mkState [GENESIS_BLOCK] ∅ true 0) = [] /\ e = TypeError)
      \/ (chain (mkState [GENESIS_BLOCK] ∅ true 0) <> [] /\ -1 < 0 /\ e = RangeError)
  | Ok _ => chain (mkState [GENESIS_BLOCK] ∅ true 0) <> [] /\ 0 <= -1
  end.
Proof.
  apply (addVote_throws (mkState [GENESIS_BLOCK] ∅ true 0) "v" "h" (-1) still).
  unfold JS.maxStringLength. lia.
Defined.

(** X9. At a difficulty above 64 and up to the longest string of the
    engine [addVote] still appends: the block it returns, after 10001 attempts, holds a hash that [verifyProofOfWork]
    rejects at the block's own difficulty. *)
Theorem addVote_unsealed (st : BlockchainState) (encryptedVote' voterHash' : string)
    (difficulty' : Z) (w : World) :
  chain st <> [] -> 64 < difficulty' <= JS.maxStringLength ->
  exists st' block miningTime w',
    addVote st encryptedVote' voterHash' difficulty' w = Ok (st', block, miningTime, w')
    /\ last (chain st') = Some block
    /\ verifyProofOfWork (hash block) (difficulty block) = Ok false
    /\ Z.of_nat (drawn w') = Z.of_nat (drawn w) + 16 * 10001.
Proof.
  intros Hne [Hd _].
  destruct (last (chain st)) as [prev|] eqn:Hl; [|apply last_None in Hl; contradiction].
  destruct (addVote_run st encryptedVote' voterHash' difficulty' w prev Hl ltac:(lia))
    as (i & Hi & Hrun & Hlast).
  cbv zeta in Hrun, Hlast. rewrite conforms_beyond_digest in Hlast by exact Hd.
  destruct Hlast as [Hc|Hc]; [discriminate|].
  eexists _, _, _, _. split; [exact Hrun|].
  cbn [chain hash difficulty drawn]. split; [apply last_snoc|]. split.
  - rewrite conforms_verify by lia. f_equal. apply conforms_beyond_digest, Hd.
  - lia.
Qed.

Lemma addVote_unsealed_witness :
  exists st' block miningTime w',
    addVote (mkState [GENESIS_BLOCK] ∅ true 0) "v" "h" 65 still
    = Ok (st', block, miningTime, w')
    /\ last (chain st') = Some block
    /\ verifyProofOfWork (hash block) (difficulty block) = Ok false
    /\ Z.of_nat (drawn w') = Z.of_nat (drawn still) + 16 * 10001.
Proof.
  apply (addVote_unsealed (mkState [GENESIS_BLOCK] ∅ true 0) "v" "h" 65 still);
    [discriminate | unfold JS.maxStringLength; lia].
Defined.

(** ** Chains of reachable states *)

Lemma verify_nonneg (h : string) (d : Z) (b : bool) :
  verifyProofOfWork h d = Ok b -> 0 <= d.
Proof.
  unfold verifyProofOfWork, JS.repeat. destruct (Z.ltb_spec d 0); [discriminate | lia].
Qed.

Lemma addVote_Ok (st : BlockchainState) (ev vh : string) (d : Z) (w : World)
    (st' : BlockchainState) (b : Block) (t : Z) (w' : World) :
  addVote st ev vh d w = Ok (st', b, t, w') ->
  exists prev,
    last (chain st) = Some prev /\ 0 <= d
    /\ chain st' = (chain st ++ [b])%list
    /\ pendingVotes st' = <[vh := b]> (pendingVotes st)
    /\ index b = index prev + 1 /\ previousHash b = hash prev
    /\ voterHash b = vh /\ difficulty b = d
    /\ hash b = sha256 (stringifyBlockData (index b) (timestamp b) (encryptedVote b)
                          (voterHash b) (previousHash b) (difficulty b)
                        +:+ previousHash b +:+ nonce b)
    /\ String.length (nonce b) = 32%nat
    /\ forallb isHex (list_ascii_of_string (nonce b)) = true.
Proof.
  intros H.
  destruct (last (chain st)) as [prev|] eqn:Hl.
  - destruct (Z.lt_ge_cases d 0) as [Hd|Hd].
    + exfalso. revert H. unfold addVote, bind, Date_now. rewrite Hl.
      unfold mineBlock, bind, lift, JS.repeat.
      destruct (Z.ltb_spec d 0); [discriminate | lia].
    + destruct (addVote_run st ev vh d w prev Hl Hd) as (i & _ & Hrun & _).
      cbv zeta in Hrun. rewrite Hrun in H. injection H as <- <- _ _.
      exists prev.
      cbn [chain pendingVotes index previousHash voterHash difficulty hash timestamp
           encryptedVote nonce].
      repeat (split; [first [reflexivity | assumption]|]). split.
      * apply nonceAt_length.
      * unfold nonceAt. apply bufferToHex_hex, Forall_forall. intros x Hx.
        apply list_elem_of_In, in_map_iff in Hx as (j & <- & _).
        unfold isByte. apply Z.mod_pos_bound. lia.
  - exfalso. revert H. unfold addVote, bind, Date_now. rewrite Hl. discriminate.
Qed.

Lemma lookup_snoc_cases {A} (l : list A) (a : A) (i : nat) (v : A) :
  (l ++ [a])%list !! i = Some v ->
  ((i < length l)%nat /\ l !! i = Some v) \/ (i = length l /\ v = a).
Proof.
  intros H. destruct (Nat.lt_ge_cases i (length l)) as [Hi|Hi].
  - left. split; [exact Hi|]. rewrite lookup_app_l in H by exact Hi. exact H.
  - right. rewrite lookup_app_r in H by exact Hi.
    destruct (i - length l)%nat as [|k] eqn:E; [|destruct k; discriminate].
    cbn in H. injection H as <-. split; [lia | reflexivity].
Qed.

Lemma reachable_chain (st : BlockchainState) :
  reachable st ->
  chain st !! 0%nat = Some GENESIS_BLOCK
  /\ (forall i b, chain st !! i = Some b -> index b = Z.of_nat i)
  /\ (forall i p c, chain st !! i = Some p -> chain st !! S i = Some c ->
        previousHash c = hash p /\ mined c).
Proof.
  induction 1 as [w st w' Hc | st ev vh d w st' b t w' _ (IH0 & IHi & IHl) Ha].
  - unfold createBlockchain, bind, Date_now, ret in Hc. injection Hc as <- _.
    cbn [chain]. split; [reflexivity|]. split.
    + intros [|i] b Hb; [injection Hb as <-; reflexivity | discriminate].
    + intros [|i] p c _ Hc; discriminate.
  - apply addVote_Ok in Ha
      as (prev & Hl & Hd & Hch & _ & Hi & Hp & _ & Hdb & Hh & Hn & Hx).
    rewrite last_lookup in Hl. rewrite Hch.
    assert (Hlen : (0 < length (chain st))%nat)
      by (apply lookup_lt_Some in IH0; exact IH0).
    split; [rewrite lookup_app_l by exact Hlen; exact IH0|]. split.
    + intros i b' Hb'. apply lookup_snoc_cases in Hb' as [[_ Hb']|[-> ->]].
      * apply IHi, Hb'.
      * rewrite Hi, (IHi _ _ Hl). lia.
    + intros i p c Hp' Hc'. apply lookup_snoc_cases in Hc' as [[Hlt Hc']|[E ->]].
      * rewrite lookup_app_l in Hp' by lia. apply (IHl i); assumption.
      * rewrite lookup_app_l in Hp' by lia.
        replace i with (pred (length (chain st))) in Hp' by lia.
        rewrite Hl in Hp'. injection Hp' as <-.
        split; [exact Hp|]. unfold mined.
        split; [rewrite Hdb; exact Hd|]. split; [exact Hn|]. split; [exact Hx | exact Hh].
Qed.

(** X10. The chain of every reachable state starts with the genesis block;
    the block at position [i] has index [i]; every later block carries the
    hash of the block before it as previous hash, a non-negative
    difficulty, a nonce of 32 hex digits, and as hash the digest of its
    serialised data, previous hash and nonce. *)
Theorem reachable_chain_linked (st : BlockchainState) :
  reachable st ->
  chain st !! 0%nat = Some GENESIS_BLOCK
  /\ (forall i b, chain st !! i = Some b -> index b = Z.of_nat i)
  /\ (forall i p c, chain st !! i = Some p -> chain st !! S i = Some c ->
        previousHash c = hash p /\ mined c).
Proof. apply reachable_chain. Qed.

Lemma reachable_chain_linked_witness :
  chain (mkState [GENESIS_BLOCK] ∅ true 1700000000000) !! 0%nat = Some GENESIS_BLOCK.
Proof.
  apply (proj1 (reachable_chain_linked (mkState [GENESIS_BLOCK] ∅ true 1700000000000)
                  (reach_create still _ _ eq_refl))).
Defined.

(** The verdict on a chain whose blocks follow each other in index and
    previous hash. *)
Lemma validateFrom_linked (rest : list Block) :
  forall (i : nat) (p : Block),
    (forall m q c, (p :: rest) !! m = Some q -> rest !! m = Some c ->
                   index c = index q + 1 /\ previousHash c = hash q /\ 0 <= difficulty c) ->
    exists v,
      validateFrom i p rest = Ok v
      /\ (v = Verdict.mk true None None
          \/ exists m ck,
               (m < length rest)%nat
               /\ (ck = HashEquality \/ ck = ProofOfWork \/ ck = TimestampOrder)
               /\ v = invalid (i + m) (reason ck)).
Proof.
  induction rest as [|c rest IH]; intros i p H.
  - eexists. split; [reflexivity | left; reflexivity].
  - destruct (H 0%nat p c eq_refl eq_refl) as (H1 & H2 & H3).
    assert (Hrest : forall m q c', (c :: rest) !! m = Some q -> rest !! m = Some c' ->
              index c' = index q + 1 /\ previousHash c' = hash q /\ 0 <= difficulty c')
      by (intros m q c' Hq Hc'; apply (H (S m) q c'); assumption).
    destruct (IH (S i) c Hrest) as (v & Hv & Hkind).
    assert (Hfail : forall ck,
               (ck = HashEquality \/ ck = ProofOfWork \/ ck = TimestampOrder) ->
               (forall ck', In ck' (before ck) -> passes ck' p c) -> ~ passes ck p c ->
               exists v0, validateFrom i p (c :: rest) = Ok v0
                 /\ (v0 = Verdict.mk true None None
                     \/ exists m ck0, (m < length (c :: rest))%nat
                          /\ (ck0 = HashEquality \/ ck0 = ProofOfWork \/ ck0 = TimestampOrder)
                          /\ v0 = invalid (i + m) (reason ck0))).
    { intros ck Hck Hb Hn. eexists. split; [apply (validateFrom_fail i p c rest ck H3 Hb Hn)|].
      right. exists 0%nat, ck. split; [cbn; lia|]. split; [exact Hck|].
      rewrite Nat.add_0_r. reflexivity. }
    destruct (String.eqb_spec
                (calculateBlockHash (index c) (timestamp c) (encryptedVote c)
                   (voterHash c) (previousHash c) (nonce c)) (hash c)) as [E3|E3].
    2:{ apply (Hfail HashEquality); [auto | | exact E3].
        intros ck' [<-|[<-|[]]]; assumption. }
    destruct (verifyProofOfWork_total (hash c) (difficulty c) H3) as [[|] E4].
    2:{ apply (Hfail ProofOfWork); [auto | | cbn; congruence].
        intros ck' [<-|[<-|[<-|[]]]]; assumption. }
    destruct (Z.le_gt_cases (timestamp p) (timestamp c)) as [E5|E5].
    2:{ apply (Hfail TimestampOrder); [auto | | cbn; lia].
        intros ck' [<-|[<-|[<-|[<-|[]]]]]; assumption. }
    exists v. rewrite validateFrom_pass by (intros []; assumption).
    split; [exact Hv|]. destruct Hkind as [->|(m & ck & Hm & Hck & ->)]; [left; reflexivity|].
    right. exists (S m), ck. split; [cbn; lia|]. split; [exact Hck|].
    f_equal. lia.
Qed.

Lemma reachable_linked (st : BlockchainState) :
  reachable st ->
  exists rest,
    chain st = GENESIS_BLOCK :: rest
    /\ forall m q c, (GENESIS_BLOCK :: rest) !! m = Some q -> rest !! m = Some c ->
         index c = index q + 1 /\ previousHash c = hash q /\ mined c.
Proof.
  intros Hr. destruct (reachable_chain st Hr) as (H0 & Hi & Hl).
  destruct (chain st) as [|g rest] eqn:E; [discriminate|].
  injection H0 as ->. exists rest. split; [reflexivity|].
  intros m q c Hq Hc.
  destruct (Hl m q c Hq Hc) as [Hp Hm].
  split; [|split; assumption].
  rewrite (Hi m q Hq), (Hi (S m) c Hc). lia.
Qed.

(** X11. On the chain of a reachable state [validateChain] returns a
    verdict, and the only failures it can report there are a hash mismatch,
    an invalid proof of work or a timestamp violation, at a block after the
    genesis: never an empty chain, an invalid genesis, an index
    discontinuity or a broken hash chain. *)
Theorem reachable_verdict (st : BlockchainState) :
  reachable st ->
  exists v,
    validateChain (chain st) = Ok v
    /\ (v = Verdict.mk true None None
        \/ exists i ck,
             (1 <= i < length (chain st))%nat
             /\ (ck = HashEquality \/ ck = ProofOfWork \/ ck = TimestampOrder)
             /\ v = Verdict.mk false (Some (Z.of_nat i))
                      (Some (reason ck +:+ " at block " +:+ JS.toString 10 (Z.of_nat i)))).
Proof.
  intros Hr. destruct (reachable_linked st Hr) as (rest & -> & H).
  cbn [validateChain]. change (negb (index GENESIS_BLOCK =? 0)) with false. cbv iota.
  destruct (validateFrom_linked rest 1 GENESIS_BLOCK) as (v & Hv & Hk).
  - intros m q c Hq Hc. destruct (H m q c Hq Hc) as (? & ? & ? & _). auto.
  - exists v. split; [exact Hv|].
    destruct Hk as [->|(m & ck & Hm & Hck & ->)]; [left; reflexivity|].
    right. exists (S m), ck. split; [cbn; lia|]. split; [exact Hck | reflexivity].
Qed.

Lemma reachable_verdict_witness :
  exists v, validateChain [GENESIS_BLOCK] = Ok v.
Proof.
  destruct (reachable_verdict (mkState [GENESIS_BLOCK] ∅ true 1700000000000)
              (reach_create still _ _ eq_refl)) as (v & Hv & _).
  exists v. exact Hv.
Defined.

(** ** The stored hash against the recomputed one *)

Lemma lastChar_append (s t : string) :
  t <> EmptyString -> lastChar (s +:+ t) = lastChar t.
Proof.
  intros Ht. unfold lastChar. induction s as [|a s IH]; [reflexivity|].
  rewrite append_cons. cbn [list_ascii_of_string].
  destruct (list_ascii_of_string (s +:+ t)) as [|b l] eqn:E.
  - exfalso. destruct s; [|discriminate]. rewrite append_empty in E.
    destruct t; [contradiction | discriminate].
  - cbn [List.last] in *. exact IH.
Qed.

Lemma append_nonempty (s t : string) : t <> EmptyString -> s +:+ t <> EmptyString.
Proof. intros Ht. destruct s; [exact Ht | discriminate]. Qed.

Lemma lastChar_all (p : ascii -> bool) (s : string) :
  s <> EmptyString -> forallb p (list_ascii_of_string s) = true -> p (lastChar s) = true.
Proof.
  unfold lastChar. induction s as [|a s IH]; [contradiction|]. intros _ H.
  cbn [list_ascii_of_string forallb] in H. apply andb_prop in H as [Ha Hs].
  destruct s as [|b s]; [exact Ha|].
  cbn [list_ascii_of_string List.last] in *. apply IH; [discriminate | exact Hs].
Qed.

(** The two strings that are hashed for a block [addVote] made. *)
Lemma mined_strings (c : Block) :
  mined c ->
  exists s1 s2,
    s1 <> s2
    /\ hash c = sha256 s1
    /\ calculateBlockHash (index c) (timestamp c) (encryptedVote c) (voterHash c)
         (previousHash c) (nonce c) = sha256 s2.
Proof.
  intros (_ & Hn & Hx & Hh).
  assert (Hne : nonce c <> EmptyString) by (destruct (nonce c); [discriminate Hn | discriminate]).
  eexists _, _. split; [|split; [exact Hh | reflexivity]].
  intros E. apply (f_equal lastChar) in E.
  rewrite !lastChar_append in E
    by (repeat (apply append_nonempty); first [exact Hne | discriminate]).
  pose proof (lastChar_all isHex (nonce c) Hne Hx) as Hl. rewrite E in Hl. discriminate Hl.
Qed.

(** X12. For every block after the genesis in the chain of a reachable
    state, the hash stored in the block and the hash [calculateBlockHash]
    recomputes for it are the digests of two different strings; and
    whenever the two digests differ for the first such block,
    [validateChain] rejects the chain with "Hash mismatch at block 1". *)
Theorem stored_hash_of_other_string (st : BlockchainState) :
  reachable st ->
  (forall i c, chain st !! S i = Some c ->
     exists s1 s2,
       s1 <> s2
       /\ hash c = sha256 s1
       /\ calculateBlockHash (index c) (timestamp c) (encryptedVote c) (voterHash c)
            (previousHash c) (nonce c) = sha256 s2)
  /\ (forall c, chain st !! 1%nat = Some c ->
        calculateBlockHash (index c) (timestamp c) (encryptedVote c) (voterHash c)
          (previousHash c) (nonce c) <> hash c ->
        validateChain (chain st)
        = Ok (Verdict.mk false (Some 1) (Some "Hash mismatch at block 1"))).
Proof.
  intros Hr. destruct (reachable_linked st Hr) as (rest & -> & H). split.
  - intros i c Hc.
    destruct (lookup_lt_is_Some_2 (GENESIS_BLOCK :: rest) i) as [q Hq];
      [apply lookup_lt_Some in Hc; cbn in *; lia|].
    apply mined_strings. apply (H i q c Hq Hc).
  - intros c Hc Hne. destruct rest as [|c0 rest]; [discriminate|].
    injection Hc as ->.
    destruct (H 0%nat GENESIS_BLOCK c eq_refl eq_refl) as (H1 & H2 & H3 & _).
    cbn [validateChain]. change (negb (index GENESIS_BLOCK =? 0)) with false. cbv iota.
    apply (validateFrom_fail 1 GENESIS_BLOCK c rest HashEquality H3); [|exact Hne].
    intros ck' [<-|[<-|[]]]; assumption.
Qed.

Lemma stored_hash_of_other_string_witness :
  exists st, reachable st
    /\ validateChain (chain st)
       = Ok (Verdict.mk false (Some 1) (Some "Hash mismatch at block 1")).
Proof.
  destruct still_run as (st0 & w1 & st & b & t & w2 & E0 & E1 & Ev).
  assert (Hr : reachable st)
    by (eapply reach_add; [eapply reach_create; exact E0 | exact E1]).
  exists st. split; [exact Hr|].
  destruct (chain st !! 1%nat) as [c|] eqn:Hc.
  - destruct (String.eqb_spec
                (calculateBlockHash (index c) (timestamp c) (encryptedVote c) (voterHash c)
                   (previousHash c) (nonce c)) (hash c)) as [E|E].
    + exact Ev.
    + exact (proj2 (stored_hash_of_other_string st Hr) c Hc E).
  - exact Ev.
Defined.

(** ** The index of latest votes *)

Lemma latestVote_snoc (vh : string) (blocks : list Block) (b : Block) :
  latestVote vh (blocks ++ [b])
  = if String.eqb (voterHash b) vh then Some b else latestVote vh blocks.
Proof.
  unfold latestVote. rewrite List.filter_app. cbn [List.filter].
  destruct (String.eqb (voterHash b) vh).
  - apply last_snoc.
  - rewrite app_nil_r. reflexivity.
Qed.

Lemma tail_snoc {A} (l : list A) (a : A) :
  l <> [] -> List.tl (l ++ [a]) = (List.tl l ++ [a])%list.
Proof. destruct l; [contradiction | reflexivity]. Qed.

Lemma reachable_pending (st : BlockchainState) :
  reachable st ->
  (forall vh, pendingVotes st !! vh = latestVote vh (List.tl (chain st)))
  /\ (size (pendingVotes st) <= length (List.tl (chain st)))%nat
  /\ (size (pendingVotes st) = 0%nat <-> List.tl (chain st) = []).
Proof.
  induction 1 as [w st w' Hc | st ev vh d w st' b t w' Hr (IHl & IHs & IHz) Ha].
  - unfold createBlockchain, bind, Date_now, ret in Hc. injection Hc as <- _.
    cbn [chain pendingVotes List.tl]. split; [intros vh; apply lookup_empty|].
    rewrite map_size_empty. split; [cbn; lia | tauto].
  - destruct (reachable_inv st Hr) as [Hne _].
    apply addVote_Ok in Ha as (prev & _ & _ & Hch & Hpv & _ & _ & Hvh & _).
    rewrite Hch, Hpv, tail_snoc by exact Hne. split; [|split].
    + intros vh'. rewrite latestVote_snoc, Hvh.
      destruct (String.eqb_spec vh vh') as [->|Hd'].
      * apply lookup_insert_eq.
      * rewrite lookup_insert_ne by exact Hd'. apply IHl.
    + rewrite map_size_insert, length_app. cbn [length].
      destruct (pendingVotes st !! vh); cbn; lia.
    + rewrite map_size_insert. split.
      * destruct (pendingVotes st !! vh) eqn:E; cbn; [|lia].
        intros Hz. apply IHz in Hz. rewrite IHl, Hz in E. discriminate.
      * intros E. apply app_eq_nil in E as [_ E]. discriminate.
Qed.

(** X13. In every reachable state [pendingVotes] maps a voter hash to the
    last block of the chain, the genesis left out, that carries this voter
    hash, and holds no entry for a voter hash no such block carries. *)
Theorem pendingVotes_latest (st : BlockchainState) (voterHash' : string) :
  reachable st ->
  pendingVotes st !! voterHash' = latestVote voterHash' (List.tl (chain st)).
Proof. intros Hr. apply (reachable_pending st Hr). Qed.

Lemma pendingVotes_latest_witness :
  pendingVotes (mkState [GENESIS_BLOCK] ∅ true 1700000000000)
    !! JS.repeatChar 64 "0" = None.
Proof.
  rewrite (pendingVotes_latest (mkState [GENESIS_BLOCK] ∅ true 1700000000000)
             (JS.repeatChar 64 "0") (reach_create still _ _ eq_refl)).
  reflexivity.
Defined.

(** X14. In every reachable state [getVoteStatistics] returns:
    [totalBlocks] is the number of votes appended, [uniqueVoters] lies
    between 0 and [totalBlocks] and is 0 only when no vote was appended,
    and [lastBlockTime] is the timestamp of the last block, or [null]
    exactly when no vote was appended. *)
Theorem statistics_consistent (st : BlockchainState) :
  reachable st ->
  exists s lastBlock,
    getVoteStatistics st = Ok s
    /\ last (chain st) = Some lastBlock
    /\ totalBlocks s = Z.of_nat (length (List.tl (chain st)))
    /\ 0 <= uniqueVoters s <= totalBlocks s
    /\ (uniqueVoters s = 0 <-> totalBlocks s = 0)
    /\ lastBlockTime s
       = (if totalBlocks s =? 0 then None else Some (timestamp lastBlock)).
Proof.
  intros Hr. destruct (reachable_inv st Hr) as [Hne _].
  destruct (reachable_pending st Hr) as (_ & Hs & Hz).
  destruct (reachable_chain st Hr) as (_ & Hi & _).
  unfold getVoteStatistics.
  destruct (last (chain st)) as [b|] eqn:Hl; [|apply last_None in Hl; contradiction].
  eexists _, b. split; [reflexivity|]. split; [reflexivity|].
  cbn [totalBlocks uniqueVoters lastBlockTime].
  assert (Hlen : length (chain st) = S (length (List.tl (chain st))))
    by (destruct (chain st); [contradiction | reflexivity]).
  split; [lia|]. split; [lia|]. split.
  - split; intros E.
    + assert (size (pendingVotes st) = 0%nat) as E' by lia. apply Hz in E'.
      rewrite Hlen, E'. reflexivity.
    + assert (List.tl (chain st) = []) as E'
        by (destruct (List.tl (chain st)); [reflexivity | cbn in *; lia]).
      apply Hz in E'. lia.
  - rewrite last_lookup in Hl. rewrite (Hi _ _ Hl), Hlen. cbn [pred].
    destruct (Z.gtb_spec (Z.of_nat (length (List.tl (chain st)))) 0),
             (Z.eqb_spec (Z.of_nat (S (length (List.tl (chain st)))) - 1) 0);
      try reflexivity; lia.
Qed.

Lemma statistics_consistent_witness :
  exists s lastBlock,
    getVoteStatistics (mkState [GENESIS_BLOCK] ∅ true 1700000000000) = Ok s
    /\ last [GENESIS_BLOCK] = Some lastBlock
    /\ totalBlocks s = 0.
Proof.
  destruct (statistics_consistent (mkState [GENESIS_BLOCK] ∅ true 1700000000000)
              (reach_create still _ _ eq_refl)) as (s & b & H1 & H2 & H3 & _).
  exists s, b. split; [exact H1|]. split; [exact H2 | exact H3].
Defined.

(** ** What validation looks at *)

Lemma validateFrom_valid_inv (i : nat) (p c : Block) (rest : list Block) :
  validateFrom i p (c :: rest) = Ok (Verdict.mk true None None) ->
  (forall ck, passes ck p c)
  /\ validateFrom (S i) c rest = Ok (Verdict.mk true None None).
Proof.
  cbn [validateFrom].
  destruct (verifyProofOfWork (hash c) (difficulty c)) as [[|]|e] eqn:Epow;
    cbn [rbind negb]; split_checks; try (intros; discriminate).
  intros Hv. split; [|exact Hv]. intros []; cbn [passes]; first [assumption | lia].
Qed.

Lemma validateFrom_shape (rest : list Block) :
  forall (i : nat) (p : Block) (v : Verdict.t),
    validateFrom i p rest = Ok v ->
    v = Verdict.mk true None None
    \/ exists m what,
         (m < length rest)%nat
         /\ v = Verdict.mk false (Some (Z.of_nat (i + m)))
                  (Some (what +:+ " at block " +:+ JS.toString 10 (Z.of_nat (i + m)))).
Proof.
  induction rest as [|c rest IH]; intros i p v; cbn [validateFrom].
  - intros H. injection H as <-. left. reflexivity.
  - assert (Hhere : forall what, Ok (invalid i what) = Ok v ->
              v = Verdict.mk true None None
              \/ exists m what0, (m < length (c :: rest))%nat
                   /\ v = Verdict.mk false (Some (Z.of_nat (i + m)))
                            (Some (what0 +:+ " at block "
                                   +:+ JS.toString 10 (Z.of_nat (i + m))))).
    { intros what H. injection H as <-. right. exists 0%nat, what.
      split; [cbn; lia|]. rewrite Nat.add_0_r. reflexivity. }
    destruct (negb _); [apply Hhere|]. destruct (negb _); [apply Hhere|].
    destruct (negb _); [apply Hhere|].
    destruct (verifyProofOfWork _ _) as [pow|e]; cbn [rbind]; [|discriminate].
    destruct (negb pow); [apply Hhere|]. destruct (_ <? _); [apply Hhere|].
    intros H. apply IH in H as [->|(m & what & Hm & ->)]; [left; reflexivity|].
    right. exists (S m), what. split; [cbn; lia|].
    replace (i + S m)%nat with (S i + m)%nat by lia. reflexivity.
Qed.

(** X15. A verdict of [validateChain] is either valid with no index and no
    message, or invalid with an index and a message; the index is then 0
    for an empty chain or a bad genesis and otherwise the position of a
    block of the chain after the genesis, and it is the number the
    message ends with. *)
Theorem verdict_shape (chain : list Block) (v : Verdict.t) :
  validateChain chain = Ok v ->
  (Verdict.isValid v = true
   /\ Verdict.invalidBlockIndex v = None /\ Verdict.error v = None)
  \/ (Verdict.isValid v = false
      /\ exists i message,
           Verdict.invalidBlockIndex v = Some (Z.of_nat i)
           /\ Verdict.error v = Some message
           /\ (i = 0%nat \/ (1 <= i < length chain)%nat)
           /\ (i = 0%nat \/
               exists what,
                 message = what +:+ " at block " +:+ JS.toString 10 (Z.of_nat i))).
Proof.
  destruct chain as [|g rest]; cbn [validateChain].
  - intros H. injection H as <-. right. split; [reflexivity|].
    exists 0%nat, "Empty chain". auto.
  - destruct (negb (index g =? 0)).
    + intros H. injection H as <-. right. split; [reflexivity|].
      exists 0%nat, "Invalid genesis block". auto.
    + intros H. apply validateFrom_shape in H as [->|(m & what & Hm & ->)].
      * left. auto.
      * right. split; [reflexivity|]. eexists (1 + m)%nat, _.
        split; [reflexivity|]. split; [reflexivity|]. split; [right; cbn; lia|].
        right. exists what. reflexivity.
Qed.

Lemma verdict_shape_witness :
  Verdict.isValid (Verdict.mk false (Some 1) (Some "Invalid PoW at block 1")) = false
  /\ validateChain (recomputed 1)
     = Ok (Verdict.mk false (Some 1) (Some "Invalid PoW at block 1")).
Proof.
  assert (E : validateChain (recomputed 1)
              = Ok (Verdict.mk false (Some 1) (Some "Invalid PoW at block 1")))
    by (vm_compute; reflexivity).
  destruct (verdict_shape _ _ E) as [(H & _)|(H & _)]; [discriminate H|].
  split; [exact H | exact E].
Defined.

(** X16. Of the first block [validateChain] reads the index, the hash and
    the timestamp only: two chains that differ in the other fields of the
    first block get the same verdict. The payload, voter hash, previous
    hash, nonce and difficulty of the genesis, and whether its hash is the
    digest of anything, are never looked at. *)
Theorem genesis_fields_ignored (g g' : Block) (rest : list Block) :
  index g' = index g -> hash g' = hash g -> timestamp g' = timestamp g ->
  validateChain (g' :: rest) = validateChain (g :: rest).
Proof.
  intros Hi Hh Ht. cbn [validateChain]. rewrite Hi.
  destruct (negb (index g =? 0)); [reflexivity|].
  destruct rest as [|c rest]; [reflexivity|].
  cbn [validateFrom]. rewrite Hi, Hh, Ht. reflexivity.
Qed.

Lemma genesis_fields_ignored_witness :
  validateChain [mkBlock 0 1700000000000 "x" "y" "z" "n"
                   "GENESIS_HASH_ELECTORAL_COMMISSION_2024" (-7)]
  = validateChain [GENESIS_BLOCK].
Proof. apply genesis_fields_ignored; reflexivity. Defined.

Lemma verify_lower (h : string) (d d' : Z) :
  verifyProofOfWork h d = Ok true -> 0 <= d' <= d -> verifyProofOfWork h d' = Ok true.
Proof.
  intros H Hd'. pose proof (verify_nonneg _ _ _ H) as Hd.
  destruct (leading_zeros h) as (z & _ & Hz).
  revert H. unfold verifyProofOfWork, JS.repeat.
  destruct (Z.ltb_spec d 0), (Z.ltb_spec d' 0); try lia. cbn [rbind].
  unfold JS.startsWith. rewrite !Hz. intros Hv. injection Hv as Hv. f_equal.
  apply Nat.leb_le in Hv. apply Nat.leb_le. lia.
Qed.

(** X17. The difficulty of a block is not covered by the recomputed hash:
    in a chain [validateChain] finds valid, every difficulty can be
    replaced by any lower non-negative one, 0 included, and the chain is
    still found valid. *)
Theorem difficulty_not_bound (lower : Block -> Z) (chain : list Block) :
  (forall b, In b chain -> 0 <= lower b <= difficulty b) ->
  validateChain chain = Ok (Verdict.mk true None None) ->
  validateChain (map (fun b => setDifficulty (lower b) b) chain)
  = Ok (Verdict.mk true None None).
Proof.
  intros Hlow. destruct chain as [|g rest]; [discriminate|].
  cbn [validateChain map setDifficulty index].
  destruct (negb (index g =? 0)); [discriminate|]. intros H.
  assert (Hgen : forall r i p,
            (forall b, In b r -> 0 <= lower b <= difficulty b) ->
            validateFrom i p r = Ok (Verdict.mk true None None) ->
            validateFrom i (setDifficulty (lower p) p)
              (map (fun b => setDifficulty (lower b) b) r)
            = Ok (Verdict.mk true None None)).
  { induction r as [|c r IH]; intros i p Hr Hv; [reflexivity|].
    apply validateFrom_valid_inv in Hv as [Hp Hv]. cbn [map].
    rewrite validateFrom_pass; [apply IH; [intros b Hb; apply Hr; right; exact Hb | exact Hv]|].
    intros ck. specialize (Hp ck). destruct ck; cbn [passes setDifficulty index timestamp
      encryptedVote voterHash previousHash nonce hash difficulty] in *; try assumption.
    apply (verify_lower _ _ _ Hp). apply Hr. left. reflexivity. }
  apply (Hgen rest 1%nat g); [intros b Hb; apply Hlow; right; exact Hb | exact H].
Qed.

Lemma difficulty_not_bound_witness :
  validateChain (map (fun b => setDifficulty 0 b) (recomputed 0))
  = Ok (Verdict.mk true None None).
Proof.
  apply (difficulty_not_bound (fun _ => 0) (recomputed 0)).
  - intros b [<-|[<-|[]]]; cbn; lia.
  - vm_compute. reflexivity.
Defined.

(** ** Edits and extensions of a valid chain *)

Lemma validateFrom_prefix (l1 : list Block) :
  forall (i : nat) (p : Block) (l2 : list Block),
    validateFrom i p (l1 ++ l2) = Ok (Verdict.mk true None None) ->
    validateFrom i p l1 = Ok (Verdict.mk true None None).
Proof.
  induction l1 as [|c l1 IH]; intros i p l2 H; [reflexivity|].
  rewrite <- app_comm_cons in H. apply validateFrom_valid_inv in H as [Hp H].
  rewrite validateFrom_pass by exact Hp. apply (IH _ _ l2), H.
Qed.

Lemma last_default {A} (l : list A) (a d d' : A) :
  List.last (a :: l) d = List.last (a :: l) d'.
Proof.
  revert a. induction l as [|b l IH]; intros a; [reflexivity|].
  change (List.last (b :: l) d = List.last (b :: l) d'). apply IH.
Qed.

Lemma validateFrom_app (l1 : list Block) :
  forall (i : nat) (p : Block) (l2 : list Block),
    validateFrom i p l1 = Ok (Verdict.mk true None None) ->
    validateFrom i p (l1 ++ l2) = validateFrom (i + length l1) (List.last l1 p) l2.
Proof.
  induction l1 as [|c l1 IH]; intros i p l2 H.
  - cbn. rewrite Nat.add_0_r. reflexivity.
  - apply validateFrom_valid_inv in H as [Hp H].
    rewrite <- app_comm_cons, validateFrom_pass by exact Hp.
    rewrite (IH _ _ l2 H). cbn [length]. replace (S i + length l1)%nat with (i + S (length l1))%nat by lia.
    f_equal. destruct l1 as [|b l1]; [reflexivity|].
    change (List.last (b :: l1) c = List.last (b :: l1) p). apply last_default.
Qed.

Lemma valid_chain_inv (g : Block) (rest : list Block) :
  validateChain (g :: rest) = Ok (Verdict.mk true None None) ->
  index g = 0 /\ validateFrom 1 g rest = Ok (Verdict.mk true None None).
Proof.
  cbn [validateChain]. destruct (Z.eqb_spec (index g) 0); cbn [negb]; [auto | discriminate].
Qed.

(** The verdict when the block after a valid head [g :: l1] fails a check. *)
Lemma edited_block (g : Block) (l1 l2 : list Block) (c c' : Block) (ck : check) :
  validateChain (g :: l1 ++ c :: l2) = Ok (Verdict.mk true None None) ->
  0 <= difficulty c' ->
  (forall ck', In ck' (before ck) -> passes ck' (List.last l1 g) c') ->
  ~ passes ck (List.last l1 g) c' ->
  validateChain (g :: l1 ++ c' :: l2)
  = Ok (Verdict.mk false (Some (Z.of_nat (S (length l1))))
          (Some (reason ck +:+ " at block " +:+ JS.toString 10 (Z.of_nat (S (length l1)))))).
Proof.
  intros Hv Hd Hb Hn. apply valid_chain_inv in Hv as [Hg Hv].
  cbn [validateChain]. rewrite Hg. cbn [Z.eqb negb].
  rewrite validateFrom_app by (apply (validateFrom_prefix _ _ _ _ Hv)).
  apply (validateFrom_fail _ _ _ _ ck Hd Hb Hn).
Qed.

Lemma valid_block (g : Block) (l1 l2 : list Block) (c : Block) :
  validateChain (g :: l1 ++ c :: l2) = Ok (Verdict.mk true None None) ->
  (forall ck, passes ck (List.last l1 g) c) /\ 0 <= difficulty c.
Proof.
  intros Hv. apply valid_chain_inv in Hv as [_ Hv].
  rewrite validateFrom_app in Hv by (apply (validateFrom_prefix _ _ _ _ Hv)).
  apply validateFrom_valid_inv in Hv as [Hp _]. split; [exact Hp|].
  apply (verify_nonneg _ _ _ (Hp ProofOfWork)).
Qed.

(** X18. In a chain [validateChain] finds valid, changing the index, the
    previous hash or the hash of a block after the genesis, the rest left
    as it is, is reported at that very block: "Index discontinuity",
    "Hash chain broken" and "Hash mismatch" respectively. Changing its
    timestamp, payload, voter hash or nonce is reported there as "Hash
    mismatch" whenever the recomputed hash differs from the stored one. *)
Theorem edits_detected (g : Block) (l1 l2 : list Block) (c : Block) :
  validateChain (g :: l1 ++ c :: l2) = Ok (Verdict.mk true None None) ->
  let at_ what :=
    Ok (Verdict.mk false (Some (Z.of_nat (S (length l1))))
          (Some (what +:+ " at block " +:+ JS.toString 10 (Z.of_nat (S (length l1)))))) in
  (forall i', i' <> index c ->
     validateChain (g :: l1 ++ setIndex i' c :: l2) = at_ "Index discontinuity")
  /\ (forall h', h' <> previousHash c ->
        validateChain (g :: l1 ++ setPreviousHash h' c :: l2) = at_ "Hash chain broken")
  /\ (forall h', h' <> hash c ->
        validateChain (g :: l1 ++ setHash h' c :: l2) = at_ "Hash mismatch")
  /\ (forall c',
        index c' = index c -> previousHash c' = previousHash c -> hash c' = hash c ->
        0 <= difficulty c' ->
        calculateBlockHash (index c') (timestamp c') (encryptedVote c') (voterHash c')
          (previousHash c') (nonce c') <> hash c' ->
        validateChain (g :: l1 ++ c' :: l2) = at_ "Hash mismatch").
Proof.
  intros Hv. cbv zeta. destruct (valid_block g l1 l2 c Hv) as [Hp Hd].
  pose proof (Hp IndexContinuity) as H1. pose proof (Hp HashLinkage) as H2.
  pose proof (Hp HashEquality) as H3. cbn [passes] in H1, H2, H3.
  split; [|split; [|split]].
  - intros i' Hi. apply (edited_block g l1 l2 c _ IndexContinuity Hv); [exact Hd | |].
    + intros ck' [].
    + cbn [passes setIndex index]. lia.
  - intros h' Hh. apply (edited_block g l1 l2 c _ HashLinkage Hv); [exact Hd | |].
    + intros ck' [<-|[]]. exact H1.
    + cbn [passes setPreviousHash previousHash]. congruence.
  - intros h' Hh. apply (edited_block g l1 l2 c _ HashEquality Hv); [exact Hd | |].
    + intros ck' [<-|[<-|[]]]; assumption.
    + cbn [passes setHash index timestamp encryptedVote voterHash previousHash nonce hash].
      congruence.
  - intros c' Ei Ep Eh Hd' Hne.
    apply (edited_block g l1 l2 c _ HashEquality Hv); [exact Hd' | | exact Hne].
    intros ck' [<-|[<-|[]]]; cbn [passes]; congruence.
Qed.

Lemma edits_detected_witness :
  validateChain (GENESIS_BLOCK :: [] ++ setHash "00" (nth 1 (recomputed 0) GENESIS_BLOCK) :: [])
  = Ok (Verdict.mk false (Some 1) (Some "Hash mismatch at block 1")).
Proof.
  apply (proj1 (proj2 (proj2
           (edits_detected GENESIS_BLOCK [] [] (nth 1 (recomputed 0) GENESIS_BLOCK)
              ltac:(vm_compute; reflexivity))))).
  discriminate.
Defined.

Lemma last_cons_last {A} (g : A) (l : list A) : last (g :: l) = Some (List.last l g).
Proof.
  revert g. induction l as [|a l IH]; intros g; [reflexivity|].
  change (last (g :: a :: l)) with (last (a :: l)). rewrite IH. f_equal.
  destruct l as [|b l]; [reflexivity|].
  change (List.last (b :: l) a = List.last (b :: l) g). apply last_default.
Qed.

(** X19. Validation goes block by block: a chain extended by one block is
    found valid exactly when the chain was and the new block passes the
    five checks against the last block of the chain. *)
Theorem extension_valid (chain : list Block) (p b : Block) :
  last chain = Some p ->
  (validateChain (chain ++ [b]) = Ok (Verdict.mk true None None)
   <-> validateChain chain = Ok (Verdict.mk true None None)
       /\ forall ck, passes ck p b).
Proof.
  destruct chain as [|g l1]; [discriminate|]. rewrite last_cons_last.
  intros E. injection E as <-. rewrite <- app_comm_cons. cbn [validateChain].
  destruct (negb (index g =? 0)); [split; [discriminate | intros [? _]; discriminate]|].
  split.
  - intros H. pose proof (validateFrom_prefix _ _ _ _ H) as H1.
    rewrite validateFrom_app in H by exact H1.
    apply validateFrom_valid_inv in H as [Hp _]. auto.
  - intros [H1 Hp]. rewrite validateFrom_app, validateFrom_pass by assumption.
    reflexivity.
Qed.

Lemma extension_valid_witness :
  validateChain ([GENESIS_BLOCK] ++ [nth 1 (recomputed 0) GENESIS_BLOCK])
  = Ok (Verdict.mk true None None)
  <-> validateChain [GENESIS_BLOCK] = Ok (Verdict.mk true None None)
      /\ forall ck, passes ck GENESIS_BLOCK (nth 1 (recomputed 0) GENESIS_BLOCK).
Proof. apply (extension_valid [GENESIS_BLOCK]). reflexivity. Defined.

(** ** Shares: bytes, randomness, errors *)

Lemma toUint8_byte (v : option Z) : isByte (JS.toUint8 v).
Proof.
  destruct v as [z|]; cbn; unfold isByte; [apply Z.mod_pos_bound|]; lia.
Qed.

Lemma drawCoefficients_run (count : nat) :
  forall w, exists l,
    drawCoefficients count w = Ok (l, advance w count)
    /\ length l = count /\ Forall isByte l.
Proof.
  induction count as [|count IH]; intros w; cbn [drawCoefficients].
  - exists []. unfold ret, advance. split; [|split; [reflexivity | constructor]].
    destruct w; cbn. do 3 f_equal. lia.
  - unfold bind at 1. unfold generateRandomBytes at 1. unfold bind at 1.
    destruct (IH (mkWorld (entropy w) (drawn w + 1) (clock w) (ticks w))) as (l & -> & Hl & Hb).
    unfold ret. eexists. split; [|split].
    + unfold advance. cbn [entropy drawn clock ticks]. do 3 f_equal. lia.
    + cbn. lia.
    + constructor; [apply toUint8_byte | exact Hb].
Qed.

Lemma splitByte_run (secret : list Z) (k : Z) (shares : list Share)
    (byteIdx : nat) (w : World) :
  Forall (fun sh => Forall isByte (y sh)) shares ->
  exists shares',
    splitByte secret k shares byteIdx w = Ok (shares', advance w (Z.to_nat (k - 1)))
    /\ Forall (fun sh => Forall isByte (y sh)) shares'.
Proof.
  intros Hb. unfold splitByte, bind.
  destruct (drawCoefficients_run (Z.to_nat (k - 1)) w) as (l & -> & _ & _).
  unfold ret. eexists. split; [reflexivity|].
  apply Forall_forall. intros sh Hsh.
  apply list_elem_of_In, in_map_iff in Hsh as (sh0 & <- & Hin). cbn [y mkShare yArray Uint8Array.elements Uint8Array.new Uint8Array.set].
  apply Forall_insert; [|apply toUint8_byte].
  rewrite Forall_forall in Hb. apply Hb, list_elem_of_In, Hin.
Qed.

Lemma splitBytes_run (secret : list Z) (k : Z) (idxs : list nat) :
  forall (shares : list Share) (w : World),
    Forall (fun sh => Forall isByte (y sh)) shares ->
    exists shares',
      foldM (splitByte secret k) idxs shares w
      = Ok (shares', advance w (Z.to_nat (k - 1) * length idxs))
      /\ Forall (fun sh => Forall isByte (y sh)) shares'.
Proof.
  induction idxs as [|byteIdx idxs IH]; intros shares w Hb; cbn [foldM].
  - exists shares. unfold ret, advance. split; [|exact Hb].
    destruct w; cbn. do 3 f_equal. lia.
  - unfold bind.
    destruct (splitByte_run secret k shares byteIdx w Hb) as (s1 & -> & Hb1).
    destruct (IH s1 (advance w (Z.to_nat (k - 1))) Hb1) as (s2 & -> & Hb2).
    exists s2. split; [|exact Hb2]. unfold advance. cbn [entropy drawn clock ticks length].
    do 3 f_equal. lia.
Qed.

(** X20. What [shamirSplit] returns holds bytes only, and it has taken
    [k - 1] random bytes per byte of the secret and has not read the
    clock. When both thresholds are violated the error is the one of the
    first test, "Threshold cannot exceed total shares". *)
Theorem shamirSplit_bytes (secret : list Z) (n k : Z) (w : World) :
  match shamirSplit secret n k w with
  | Ok (shares, w') =>
      Forall (fun sh => Forall isByte (y sh)) shares
      /\ w' = advance w (Z.to_nat (k - 1) * length secret)
  | Throw e =>
      e = (if n <? k then Error "Threshold cannot exceed total shares"
           else Error "Threshold must be at least 2")
  end.
Proof.
  unfold shamirSplit. destruct (n <? k); [reflexivity|].
  destruct (k <? 2); [reflexivity|].
  match goal with |- context [foldM _ _ ?s w] =>
    destruct (splitBytes_run secret k (seq 0 (length secret)) s w) as (shares & -> & Hb) end.
  - apply Forall_forall. intros sh Hsh.
    apply list_elem_of_In, in_map_iff in Hsh as (i & <- & _). cbn [y mkShare yArray Uint8Array.elements Uint8Array.new Uint8Array.set].
    apply Forall_forall. intros b Hb. apply list_elem_of_In, repeat_spec in Hb. subst.
    unfold isByte. lia.
  - rewrite length_seq. auto.
Qed.

Lemma rfold_invariant {A B} (f : A -> B -> result A) (P : A -> Prop) (l : list B) :
  (forall a b a', In b l -> P a -> f a b = Ok a' -> P a') ->
  forall a r, P a -> rfold f l a = Ok r -> P r.
Proof.
  induction l as [|b l IH]; intros Hf a r Ha H; cbn [rfold] in H.
  - injection H as <-. exact Ha.
  - unfold rbind in H. destruct (f a b) as [a'|e] eqn:E; [|discriminate].
    apply (IH (fun a0 b0 a0' Hb => Hf a0 b0 a0' (or_intror Hb)) a' r); [|exact H].
    apply (Hf a b a' (or_introl eq_refl) Ha E).
Qed.

(** A fold returns when each step does, and throws what a step threw. *)
Lemma rfold_cases {A B} (f : A -> B -> result A) (l : list B) :
  forall a,
    match rfold f l a with
    | Ok _ => forall b, In b l -> exists a0 a1, f a0 b = Ok a1
    | Throw e => exists a0 b, In b l /\ f a0 b = Throw e
    end.
Proof.
  induction l as [|b l IH]; intros a; cbn [rfold].
  - intros b [].
  - unfold rbind. destruct (f a b) as [a'|e] eqn:E.
    + specialize (IH a'). destruct (rfold f l a') as [r|e'].
      * intros b' [<-|Hb']; [eauto | apply IH, Hb'].
      * destruct IH as (a0 & b0 & Hb0 & E0). exists a0, b0. split; [right; exact Hb0 | exact E0].
    + exists a, b. split; [left; reflexivity | exact E].
Qed.

Lemma indexed_In {A} (l : list A) (j : nat) (a : A) :
  In (j, a) (indexed l) <-> l !! j = Some a.
Proof.
  unfold indexed. revert j.
  assert (H : forall base j, In (j, a) (combine (seq base (length l)) l)
                          <-> (base <= j)%nat /\ l !! (j - base)%nat = Some a).
  { induction l as [|b l IH]; intros base j; cbn [length seq combine In].
    - split; [tauto | intros [_ H]; discriminate].
    - rewrite IH. split.
      + intros [E|[Hle Hl]].
        * injection E as <- <-. rewrite Nat.sub_diag. split; [lia | reflexivity].
        * split; [lia|]. replace (j - base)%nat with (S (j - S base)) by lia. exact Hl.
      + intros [Hle Hl]. destruct (Nat.eq_dec j base) as [->|Hne].
        * rewrite Nat.sub_diag in Hl. injection Hl as ->. left. reflexivity.
        * right. split; [lia|]. replace (j - base)%nat with (S (j - S base)) in Hl by lia.
          exact Hl. }
  intros j. rewrite H, Nat.sub_0_r. split; [tauto | intros; split; [lia | assumption]].
Qed.

Lemma lagrangeStep_cases (i : nat) (si : Share) (lagrange : option Z) (j : nat) (sj : Share) :
  match lagrangeStep i si lagrange (j, sj) with
  | Ok _ => i = j \/ JS.toInt32 (x si) <> JS.toInt32 (x sj)
  | Throw e =>
      e = Error "Division by zero" /\ i <> j /\ JS.toInt32 (x si) = JS.toInt32 (x sj)
  end.
Proof.
  unfold lagrangeStep. destruct (Nat.eqb_spec i j) as [->|Hij]; [left; reflexivity|].
  unfold gfDiv, JS.xor, JS.isZero. cbn [JS.toInt32o].
  destruct (Z.eqb_spec (Z.lxor (JS.toInt32 (x si)) (JS.toInt32 (x sj))) 0) as [E|E];
    cbn [rbind].
  - apply Z.lxor_eq in E. auto.
  - destruct (x sj =? 0); cbn [rbind]; right; intros E'; apply E; rewrite E';
      apply Z.lxor_nilpotent.
Qed.

(** X21. [shamirCombine] throws "Need at least 2 shares" for fewer than two
    shares. For two or more it throws "Division by zero" exactly when the
    first share is not empty and two shares at different positions carry
    identifiers that are the same 32-bit integer, which is what [^]
    compares: equal identifiers, or identifiers that differ by a multiple
    of 2^32, as 1 and 4294967297. Otherwise it returns an array of bytes as
    long as the [y] of the first share. *)
Theorem shamirCombine_outcome (shares : list Share) :
  match shamirCombine shares with
  | Ok secret =>
      (2 <= length shares)%nat
      /\ exists s0, shares !! 0%nat = Some s0
           /\ length secret = length (y s0)
           /\ Forall isByte secret
           /\ (y s0 <> [] -> distinctIds shares)
  | Throw e =>
      ((length shares < 2)%nat /\ e = Error "Need at least 2 shares")
      \/ ((2 <= length shares)%nat /\ e = Error "Division by zero"
          /\ ~ distinctIds shares
          /\ exists s0, shares !! 0%nat = Some s0 /\ y s0 <> [])
  end.
Proof.
  unfold shamirCombine. destruct (Nat.ltb_spec (length shares) 2) as [Hlt|Hge].
  - left. auto.
  - destruct shares as [|s0 rest] eqn:Es; [cbn in Hge; lia|]. rewrite <- Es in *.
    assert (H0 : shares !! 0%nat = Some s0) by (rewrite Es; reflexivity).
    set (len := length (y s0)).
    set (F := fun (secret : list Z) (byteIdx : nat) =>
                let? value := rfold (combineStep shares byteIdx) (indexed shares) 0 in
                Ok (<[byteIdx := JS.toUint8 (Some value)]> secret)).
    pose proof (rfold_cases F (seq 0 len) (List.repeat 0 len)) as Hc.
    destruct (rfold F (seq 0 len) (List.repeat 0 len)) as [secret|e] eqn:Er.
    + split; [exact Hge|]. exists s0. split; [exact H0|].
      destruct (rfold_invariant F (fun s => length s = len /\ Forall isByte s) (seq 0 len))
        with (a := List.repeat 0 len) (r := secret) as [Hl Hb]; [| |exact Er|].
      * intros a b a' _ [Ha Hb] E. unfold F, rbind in E.
        destruct (rfold _ _ 0) as [value|]; [|discriminate]. injection E as <-.
        split; [rewrite length_insert; exact Ha|].
        apply Forall_insert; [exact Hb | apply (toUint8_byte (Some value))].
      * split; [apply repeat_length|]. apply Forall_forall. intros b Hb.
        apply list_elem_of_In, repeat_spec in Hb. subst. unfold isByte. lia.
      * split; [exact Hl|]. split; [exact Hb|]. intros Hne.
        assert (Hpos : (0 < len)%nat) by (unfold len; destruct (y s0); [contradiction | cbn; lia]).
        destruct (Hc 0%nat) as (a0 & a1 & E); [apply in_seq; lia|].
        unfold F, rbind in E.
        pose proof (rfold_cases (combineStep shares 0) (indexed shares) 0) as Hin.
        destruct (rfold (combineStep shares 0) (indexed shares) 0) as [value|]; [|discriminate].
        intros i j si sj Hsi Hsj Heq.
        destruct (Hin (i, si)) as (v0 & v1 & Ei); [apply indexed_In, Hsi|].
        unfold combineStep, rbind in Ei.
        pose proof (rfold_cases (lagrangeStep i si) (indexed shares) (Some 1)) as Hlag.
        destruct (rfold (lagrangeStep i si) (indexed shares) (Some 1)); [|discriminate].
        destruct (Hlag (j, sj)) as (l0 & l1 & Ej); [apply indexed_In, Hsj|].
        pose proof (lagrangeStep_cases i si l0 j sj) as Hs. rewrite Ej in Hs.
        destruct Hs; [assumption | contradiction].
    + right. split; [exact Hge|].
      destruct Hc as (a0 & byteIdx & Hbyte & E). unfold F, rbind in E.
      pose proof (rfold_cases (combineStep shares byteIdx) (indexed shares) 0) as Hin.
      destruct (rfold (combineStep shares byteIdx) (indexed shares) 0) as [value|e'];
        [discriminate|]. injection E as ->.
      destruct Hin as (v0 & [i si] & Hsi & Ei). apply indexed_In in Hsi.
      unfold combineStep, rbind in Ei.
      pose proof (rfold_cases (lagrangeStep i si) (indexed shares) (Some 1)) as Hlag.
      destruct (rfold (lagrangeStep i si) (indexed shares) (Some 1)) as [|e'];
        [discriminate|]. injection Ei as ->.
      destruct Hlag as (l0 & [j sj] & Hsj & Ej). apply indexed_In in Hsj.
      pose proof (lagrangeStep_cases i si l0 j sj) as Hs. rewrite Ej in Hs.
      destruct Hs as (-> & Hij & Heq).
      split; [reflexivity|]. split.
      * intros Hd. apply Hij. apply (Hd i j si sj Hsi Hsj Heq).
      * exists s0. split; [exact H0|]. apply in_seq in Hbyte.
        intros Ey. unfold len in Hbyte. rewrite Ey in Hbyte. cbn in Hbyte. lia.
Qed.

Example shamirCombine_duplicate :
  shamirCombine [mkShare 1 [5]; mkShare 2 [6]; mkShare 1 [7]]
  = Throw (Error "Division by zero")
  /\ shamirCombine [mkShare 1 []; mkShare 1 []] = Ok []
  /\ shamirCombine [mkShare 1 [5]] = Throw (Error "Need at least 2 shares").
Proof. repeat split; reflexivity. Qed.

(** ** Reading shares *)

Lemma parseDigits_nonneg (radix : Z) (s : string) :
  0 <= radix ->
  forall acc v,
    (forall a, acc = Some a -> 0 <= a) ->
    JS.parseDigits radix s acc = Some v -> 0 <= v.
Proof.
  intros Hr. induction s as [|c s IH]; intros acc v Hacc; cbn [JS.parseDigits].
  - intros ->. apply Hacc. reflexivity.
  - destruct (JS.digitValue c) as [d|] eqn:Ed; [|intros ->; apply Hacc; reflexivity].
    destruct (d <? radix); [|intros ->; apply Hacc; reflexivity].
    apply IH. intros a Ea. injection Ea as <-.
    assert (0 <= d).
    { unfold JS.digitValue in Ed.
      repeat match type of Ed with
             | (if ?b then _ else _) = _ => destruct b eqn:?
             end; try discriminate; injection Ed as <-; lia. }
    destruct acc as [a0|]; [|assumption].
    specialize (Hacc a0 eq_refl). nia.
Qed.

Lemma matchShare_second (encoded g1 g2 : string) :
  matchShare encoded = Some (g1, g2) -> g2 <> EmptyString.
Proof.
  unfold matchShare. destruct (literal "SHARD-" encoded) as [rest|]; [|discriminate].
  destruct (span isDigit rest) as [[|a h] t]; [discriminate|].
  destruct t as [|c t]; [discriminate|].
  destruct (Ascii.eqb_spec c ":") as [->|Hc].
  - destruct (span isHex t) as [[|b h2] [|? ?]]; try discriminate.
    intros E. injection E as _ <-. discriminate.
  - intros E. exfalso. revert E.
    destruct c as [[] [] [] [] [] [] [] []]; try discriminate. congruence.
Qed.

Lemma pairs_nonempty (s : string) : s <> EmptyString -> pairs (String.length s) s <> [].
Proof. destruct s as [|a [|b s]]; [contradiction | discriminate | discriminate]. Qed.

Lemma decodeShare_parts (encoded : string) :
  match decodeShare encoded with
  | Ok share => 0 <= x share /\ y share <> [] /\ Forall isByte (y share)
  | Throw e => e = Error "Invalid share format"
  end.
Proof.
  unfold decodeShare. destruct (matchShare encoded) as [[g1 g2]|] eqn:Em; [|reflexivity].
  destruct (matchShare_number _ _ _ Em) as [xv Hx]. rewrite Hx. cbn [x y mkShare yArray Uint8Array.elements Uint8Array.new Uint8Array.set].
  split; [|split].
  - apply (parseDigits_nonneg 10 g1 ltac:(lia) None xv); [discriminate | exact Hx].
  - intros E. apply map_eq_nil in E. revert E.
    apply pairs_nonempty, (matchShare_second _ _ _ Em).
  - apply Forall_forall. intros b Hb.
    apply list_elem_of_In, in_map_iff in Hb as (p & <- & _). apply toUint8_byte.
Qed.

(** X22. [decodeShare] either throws "Invalid share format", and nothing
    else, or returns a share with a non-negative identifier and a
    non-empty array of bytes. *)
Theorem decodeShare_outcome (encoded : string) :
  match decodeShare encoded with
  | Ok share => 0 <= x share /\ y share <> [] /\ Forall isByte (y share)
  | Throw e => e = Error "Invalid share format"
  end.
Proof. apply decodeShare_parts. Qed.

Lemma decodeShare_whole (encoded : string) (share : Share) :
  decodeShare encoded = Ok share -> Uint8Array.whole (yArray share).
Proof.
  unfold decodeShare. destruct (matchShare encoded) as [[g1 g2]|]; [|discriminate].
  destruct (JS.parseInt g1 10); [|discriminate].
  intros H. injection H as <-. split; reflexivity.
Qed.

(** X23. What [decodeShare] read is written by [encodeShare] to a text
    that [decodeShare] reads as the same share, for identifiers up to
    2^53, which [parseInt] reads exactly. The text itself may differ from
    the one first read (upper case, an odd number of hex digits). *)
Theorem decode_encode_stable (encoded : string) (share : Share) :
  decodeShare encoded = Ok share -> x share <= 2 ^ 53 ->
  decodeShare (encodeShare share) = Ok share.
Proof.
  intros Hd _. pose proof (decodeShare_parts encoded) as H. rewrite Hd in H.
  destruct H as (Hx & Hy & Hb). rewrite (whole_share share (decodeShare_whole _ _ Hd)).
  apply text_roundtrip; assumption.
Qed.

Lemma decode_encode_stable_witness :
  decodeShare "shard-1:AbC" = Ok (mkShare 1 [171; 12])
  /\ encodeShare (mkShare 1 [171; 12]) = "SHARD-01:ab0c"
  /\ decodeShare (encodeShare (mkShare 1 [171; 12])) = Ok (mkShare 1 [171; 12]).
Proof.
  split; [reflexivity|]. split; [reflexivity|].
  apply (decode_encode_stable "shard-1:AbC"); [reflexivity | vm_compute; discriminate].
Defined.

(** X24. Two shares with identifiers from 0 up to 10^21 and non-empty
    arrays of bytes, each array spanning its buffer, that are written to
    the same text are the same share. (Two windows on one buffer are
    written to the same text whatever their elements.) *)
Theorem encodeShare_injective (s1 s2 : Share) :
  0 <= x s1 < 10 ^ 21 -> y s1 <> [] -> Forall isByte (y s1) ->
  Uint8Array.whole (yArray s1) ->
  0 <= x s2 < 10 ^ 21 -> y s2 <> [] -> Forall isByte (y s2) ->
  Uint8Array.whole (yArray s2) ->
  encodeShare s1 = encodeShare s2 -> s1 = s2.
Proof.
  intros Hx1 Hy1 Hb1 Hw1 Hx2 Hy2 Hb2 Hw2 E.
  assert (H1 : decodeShare (encodeShare s1) = Ok s1)
    by (rewrite (whole_share s1 Hw1); apply text_roundtrip; [lia | assumption | assumption]).
  assert (H2 : decodeShare (encodeShare s2) = Ok s2)
    by (rewrite (whole_share s2 Hw2); apply text_roundtrip; [lia | assumption | assumption]).
  rewrite E, H2 in H1. injection H1 as ->. reflexivity.
Qed.

Lemma encodeShare_injective_witness :
  mkShare 3 [1; 2] = mkShare 3 [1; 2].
Proof.
  apply (encodeShare_injective (mkShare 3 [1; 2]) (mkShare 3 [1; 2])).
  - cbn. lia.
  - discriminate.
  - repeat constructor; vm_compute; discriminate.
  - split; reflexivity.
  - cbn. lia.
  - discriminate.
  - repeat constructor; vm_compute; discriminate.
  - split; reflexivity.
  - reflexivity.
Defined.

Example encodeShare_windows :
  encodeShare (Build_Share 1 (Uint8Array.mk [1] [2] []))
  = encodeShare (Build_Share 1 (Uint8Array.mk [] [1] [2])).
Proof. reflexivity. Qed.

(** ** The vote payload *)

Lemma utf8_bytes (c : ascii) : Forall isByte (utf8 c).
Proof.
  destruct c as [[] [] [] [] [] [] [] []]; vm_compute; repeat constructor; discriminate.
Qed.

Lemma stringToBuffer_bytes (s : string) : Forall isByte (stringToBuffer s).
Proof.
  unfold stringToBuffer. induction (list_ascii_of_string s) as [|c l IH]; [constructor|].
  cbn [flat_map]. apply Forall_app. split; [apply utf8_bytes | exact IH].
Qed.

(** X25. [encryptVoteRSA] returns the clock reading as timestamp and the
    text "RSA2048:", the 64-character digest of the JSON text followed by
    the timestamp, ":", and the JSON text itself in hex: reading that last
    part two digits at a time gives back the UTF-8 bytes of
    [JSON.stringify(voteData)]. No key is involved, and the last part is
    the same for the same vote data at any time. *)
Theorem encryptVoteRSA_plain (voteData : json) (w : World) :
  exists digest payload,
    encryptVoteRSA voteData w
    = Ok ("RSA2048:" +:+ digest +:+ ":" +:+ payload, clock w (ticks w),
          mkWorld (entropy w) (drawn w) (clock w) (S (ticks w)))
    /\ digest = sha256 (stringify voteData +:+ JS.toString 10 (clock w (ticks w)))
    /\ String.length digest = 64%nat
    /\ payload = bufferToHex (stringToBuffer (stringify voteData))
    /\ hexBytes payload = stringToBuffer (stringify voteData).
Proof.
  unfold encryptVoteRSA, bind, Date_now, ret.
  eexists _, _. split; [reflexivity|]. split; [reflexivity|].
  split; [apply sha256_length|]. split; [reflexivity|].
  unfold hexBytes. apply pairs_bufferToHex; [apply stringToBuffer_bytes|].
  rewrite bufferToHex_length by apply stringToBuffer_bytes. lia.
Qed.

Example encryptVoteRSA_sample :
  match encryptVoteRSA (JObject [("candidateId", JString "cm1"); ("rank", JNumber 2)]) still with
  | Ok (text, _, _) =>
      stringify (JObject [("candidateId", JString "cm1"); ("rank", JNumber 2)])
      = "{" +:+ dquote +:+ "candidateId" +:+ dquote +:+ ":" +:+ dquote +:+ "cm1" +:+ dquote
        +:+ "," +:+ dquote +:+ "rank" +:+ dquote +:+ ":2}"
      /\ String.length text = 133%nat
  | Throw _ => False
  end.
Proof. vm_compute. split; reflexivity. Qed.

(** ** The voter database: lockout *)

Import Database Sessions.

Lemma findVoter_from (h : string) (voters : list VoterRecord) :
  forall base,
    match findVoter h base voters with
    | Some (i, v) =>
        (base <= i)%nat /\ voters !! (i - base)%nat = Some v /\ nationalIdHash v = h
    | None => forall j v, voters !! j = Some v -> nationalIdHash v <> h
    end.
Proof.
  induction voters as [|v0 voters IH]; intros base; cbn [findVoter].
  - intros j v Hj. discriminate.
  - destruct (String.eqb_spec (nationalIdHash v0) h) as [E|E].
    + rewrite Nat.sub_diag. auto.
    + specialize (IH (S base)). destruct (findVoter h (S base) voters) as [[i v]|].
      * destruct IH as (Hle & Hl & Hh). split; [lia|]. split; [|exact Hh].
        replace (i - base)%nat with (S (i - S base)) by lia. exact Hl.
      * intros [|j] v Hj; [injection Hj as <-; exact E | apply (IH j v Hj)].
Qed.

Lemma findVoter_found (h : string) (voters : list VoterRecord) (i : nat) (v : VoterRecord) :
  findVoter h 0 voters = Some (i, v) ->
  voters !! i = Some v /\ nationalIdHash v = h.
Proof.
  intros H. pose proof (findVoter_from h voters 0) as Hf. rewrite H in Hf.
  rewrite Nat.sub_0_r in Hf. tauto.
Qed.

(** Replacing the record found by one with the same identity hash leaves it
    the record found. *)
Lemma findVoter_store (h : string) (voters : list VoterRecord) (v' : VoterRecord) :
  nationalIdHash v' = h ->
  forall base i v,
    findVoter h base voters = Some (i, v) ->
    findVoter h base (<[(i - base)%nat := v']> voters) = Some (i, v').
Proof.
  intros Hv'. induction voters as [|v0 voters IH]; intros base i v; cbn [findVoter];
    [discriminate|].
  destruct (String.eqb_spec (nationalIdHash v0) h) as [E|E].
  - intros H. injection H as <- <-. rewrite Nat.sub_diag. cbn [insert list_insert findVoter].
    rewrite Hv', String.eqb_refl. reflexivity.
  - intros H. pose proof (findVoter_from h voters (S base)) as Hf. rewrite H in Hf.
    destruct Hf as (Hle & _).
    replace (i - base)%nat with (S (i - S base)) by lia.
    cbn [insert list_insert findVoter].
    destruct (String.eqb_spec (nationalIdHash v0) h); [contradiction|].
    apply (IH (S base) i v H).
Qed.

Lemma ensureInitialized_done (db : Db) : isInitialized (ensureInitialized db) = true.
Proof. unfold ensureInitialized. destruct (isInitialized db) eqn:E; [exact E | reflexivity]. Qed.

Lemma ensureInitialized_once (db : Db) : isInitialized db = true -> ensureInitialized db = db.
Proof. intros H. unfold ensureInitialized. rewrite H. reflexivity. Qed.

Lemma store_same (db : Db) (i : nat) (v : VoterRecord) :
  MOCK_VOTERS db !! i = Some v -> store db i v = db.
Proof.
  intros H. unfold store. rewrite (list_insert_id _ _ _ H). destruct db; reflexivity.
Qed.

Lemma store_store (db : Db) (i : nat) (v v' : VoterRecord) :
  store (store db i v) i v' = store db i v'.
Proof.
  unfold store. cbn [MOCK_VOTERS CONSTITUENCIES isInitialized].
  rewrite list_insert_insert_eq. reflexivity.
Qed.

Lemma map_store {A : Type} (f : VoterRecord -> A) (voters : list VoterRecord)
    (i : nat) (v v' : VoterRecord) :
  voters !! i = Some v -> f v' = f v -> map f (<[i := v']> voters) = map f voters.
Proof.
  revert i. induction voters as [|v0 voters IH]; intros [|i] H E; try discriminate.
  - injection H as ->. cbn. rewrite E. reflexivity.
  - change (f v0 :: map f (<[i := v']> voters) = f v0 :: map f voters).
    rewrite (IH i H E). reflexivity.
Qed.

(** X26. While a record is locked, that is while its [lockedUntil] is
    neither [null] nor 0 and the clock is before it, [authenticateVoter]
    refuses whatever PIN is given, the right one included: it answers
    "Account locked. Try again in N seconds." with N the seconds left at
    the second reading of the clock, rounded up, gives no
    [attemptsRemaining], and leaves the database as it was. *)
Theorem locked_account_refused (db : Db) (nationalId pin : string) (w : World)
    (i : nat) (v : VoterRecord) (t : Z) :
  findVoter (sha256 nationalId) 0 (MOCK_VOTERS (ensureInitialized db)) = Some (i, v) ->
  lockedUntil v = Some t -> t <> 0 -> clock w (ticks w) < t ->
  Z.abs (t - clock w (S (ticks w))) < 10 ^ 21 ->
  authenticateVoter db nationalId pin w
  = Ok (mkAuth false None
          (Some ("Account locked. Try again in "
                 +:+ JS.toString 10 (ceilSeconds (t - clock w (S (ticks w))))
                 +:+ " seconds."))
          None,
        ensureInitialized db,
        mkWorld (entropy w) (drawn w) (clock w) (S (S (ticks w)))).
Proof.
  intros Hf Hl Ht Hc _. unfold authenticateVoter. rewrite Hf.
  unfold truthy. rewrite Hl. destruct (Z.eqb_spec t 0); [contradiction|].
  unfold bind, Date_now, ret. cbn [clock ticks entropy drawn].
  destruct (Z.ltb_spec (clock w (ticks w)) t); [reflexivity | lia].
Qed.

Lemma locked_account_refused_witness :
  authenticateVoter
    (store (ensureInitialized fresh) 0
       (mkVoter (sha256 "A123456789") (sha256 "1234") "central-metro" false 3
                (Some 1700000300000)))
    "A123456789" "1234" (ticking 1700000001000 1000)
  = Ok (mkAuth false None (Some "Account locked. Try again in 298 seconds.") None,
        store (ensureInitialized fresh) 0
          (mkVoter (sha256 "A123456789") (sha256 "1234") "central-metro" false 3
                   (Some 1700000300000)),
        mkWorld (fun _ => 0) 0 (fun n => 1700000001000 + 1000 * Z.of_nat n) 2).
Proof.
  apply (locked_account_refused
           (store (ensureInitialized fresh) 0
              (mkVoter (sha256 "A123456789") (sha256 "1234") "central-metro" false 3
                       (Some 1700000300000)))
           "A123456789" "1234" (ticking 1700000001000 1000) 0
           (mkVoter (sha256 "A123456789") (sha256 "1234") "central-metro" false 3
                    (Some 1700000300000))
           1700000300000).
  - vm_compute. reflexivity.
  - reflexivity.
  - lia.
  - vm_compute. reflexivity.
  - vm_compute. reflexivity.
Defined.

Lemma resetLock_run (v : VoterRecord) (w : World) :
  exists v1 w1,
    resetLock v w = Ok (v1, w1) /\ profile v1 = profile v
    /\ entropy w1 = entropy w /\ drawn w1 = drawn w /\ clock w1 = clock w.
Proof.
  unfold resetLock. destruct (truthy (lockedUntil v)) as [t|].
  - unfold bind, Date_now, ret. destruct (clock w (ticks w) >=? t);
      eexists; eexists; (split; [reflexivity|]); cbn; auto.
  - unfold ret. eexists; eexists; (split; [reflexivity|]); auto.
Qed.

Lemma verifyPin_run (db : Db) (i : nat) (v : VoterRecord) (h : string) (w : World) :
  exists r v' w',
    verifyPin db i v h w = Ok (r, store db i v', w') /\ profile v' = profile v
    /\ (success r = true <-> pinHash v = h)
    /\ (success r = true ->
        voter r = Some i /\ failedAttempts v' = 0 /\ error r = None
        /\ attemptsRemaining r = None).
Proof.
  unfold verifyPin. destruct (String.eqb_spec (pinHash v) h) as [E|E]; cbn [negb].
  - unfold ret. eexists; eexists; eexists. split; [reflexivity|]. cbn. tauto.
  - cbn [failedAttempts nationalIdHash pinHash constituency hasVoted lockedUntil].
    destruct (failedAttempts v + 1 >=? 3); unfold bind, Date_now, ret;
      eexists; eexists; eexists; (split; [reflexivity|]); cbn;
      (split; [reflexivity|]); split; try split; try discriminate; tauto.
Qed.

(** Every run of [authenticateVoter], by what [find] gives. *)
Lemma authenticateVoter_run (db : Db) (nationalId pin : string) (w : World) :
  match findVoter (sha256 nationalId) 0 (MOCK_VOTERS (ensureInitialized db)) with
  | None =>
      authenticateVoter db nationalId pin w
      = Ok (mkAuth false None (Some "Invalid credentials") None, ensureInitialized db, w)
  | Some (i, v) =>
      exists r v' w',
        authenticateVoter db nationalId pin w
        = Ok (r, store (ensureInitialized db) i v', w')
        /\ profile v' = profile v
        /\ (success r = true <->
            pinHash v = sha256 pin
            /\ match truthy (lockedUntil v) with
               | Some t => t <= clock w (ticks w)
               | None => True
               end)
        /\ (success r = true ->
            voter r = Some i /\ failedAttempts v' = 0 /\ error r = None
            /\ attemptsRemaining r = None)
  end.
Proof.
  unfold authenticateVoter.
  destruct (findVoter (sha256 nationalId) 0 (MOCK_VOTERS (ensureInitialized db)))
    as [[i v]|] eqn:Hf; [|reflexivity].
  destruct (findVoter_found _ _ _ _ Hf) as (Hi & _).
  assert (Hopen : forall w0 : World,
             clock w0 = clock w ->
             (match truthy (lockedUntil v) with
              | Some t => t <= clock w (ticks w)
              | None => True
              end) ->
             exists r v' w',
               (let* v1 := resetLock v in
                verifyPin (store (ensureInitialized db) i v1) i v1 (sha256 pin)) w0
               = Ok (r, store (ensureInitialized db) i v', w')
               /\ profile v' = profile v
               /\ (success r = true <->
                   pinHash v = sha256 pin
                   /\ match truthy (lockedUntil v) with
                      | Some t => t <= clock w (ticks w)
                      | None => True
                      end)
               /\ (success r = true ->
                   voter r = Some i /\ failedAttempts v' = 0 /\ error r = None
                   /\ attemptsRemaining r = None)).
  { intros w0 _ Hlock. unfold bind at 1.
    destruct (resetLock_run v w0) as (v1 & w1 & -> & Hp1 & _).
    destruct (verifyPin_run (store (ensureInitialized db) i v1) i v1 (sha256 pin) w1)
      as (r & v' & w' & -> & Hp' & Hs & Hr).
    exists r, v', w'. rewrite store_store. split; [reflexivity|].
    assert (Hpin : pinHash v1 = pinHash v) by (unfold profile in Hp1; congruence).
    split; [congruence|]. split; [|exact Hr]. rewrite Hs, Hpin. tauto. }
  destruct (truthy (lockedUntil v)) as [t|] eqn:Ht.
  - unfold bind at 1. unfold bind at 1. unfold Date_now at 1.
    destruct (Z.ltb_spec (clock w (ticks w)) t) as [Hlt|Hge].
    + unfold bind, Date_now, ret. cbn [clock ticks entropy drawn].
      eexists; exists v; eexists. rewrite (store_same _ _ _ Hi).
      split; [reflexivity|]. split; [reflexivity|]. cbn [success].
      split; [split; [discriminate | lia] | discriminate].
    + unfold ret at 1. apply Hopen; [reflexivity | exact Hge].
  - unfold bind at 1. unfold ret at 1. apply Hopen; [reflexivity | exact I].
Qed.

Lemma wrong_pin_run (db : Db) (nationalId pin : string) (w : World)
    (i : nat) (v : VoterRecord) :
  findVoter (sha256 nationalId) 0 (MOCK_VOTERS (ensureInitialized db)) = Some (i, v) ->
  truthy (lockedUntil v) = None ->
  pinHash v <> sha256 pin ->
  authenticateVoter db nationalId pin w
  = if failedAttempts v + 1 >=? 3
    then Ok (mkAuth false None
               (Some "Account locked due to too many failed attempts. Try again in 5 minutes.")
               (Some 0),
             store (ensureInitialized db) i
               (mkVoter (nationalIdHash v) (pinHash v) (constituency v) (hasVoted v)
                        (failedAttempts v + 1) (Some (clock w (ticks w) + 5 * 60 * 1000))),
             mkWorld (entropy w) (drawn w) (clock w) (S (ticks w)))
    else Ok (mkAuth false None (Some "Invalid credentials")
               (Some (3 - (failedAttempts v + 1))),
             store (ensureInitialized db) i
               (mkVoter (nationalIdHash v) (pinHash v) (constituency v) (hasVoted v)
                        (failedAttempts v + 1) (lockedUntil v)),
             w).
Proof.
  intros Hf Ht Hp. unfold authenticateVoter. rewrite Hf, Ht.
  unfold resetLock. rewrite Ht. unfold bind at 1. unfold ret at 1.
  unfold bind at 1. unfold ret at 1. unfold verifyPin.
  destruct (String.eqb_spec (pinHash v) (sha256 pin)) as [E|_]; [contradiction|].
  cbn [negb failedAttempts nationalIdHash pinHash constituency hasVoted lockedUntil].
  destruct (failedAttempts v + 1 >=? 3); unfold bind, Date_now, ret;
    cbn [failedAttempts nationalIdHash pinHash constituency hasVoted lockedUntil];
    rewrite store_store; reflexivity.
Qed.

(** X27. Three wrong PINs in a row for a known identifier whose record has
    no failed attempt and no lock: the first two are answered "Invalid
    credentials" with 2 and then 1 attempts remaining and read no clock;
    the third is answered with the lock message and 0 attempts remaining,
    and leaves the record locked until five minutes after the one reading
    of the clock it makes. *)
Theorem three_wrong_pins_lock (db : Db) (nationalId p1 p2 p3 : string) (w : World)
    (i : nat) (v : VoterRecord) :
  findVoter (sha256 nationalId) 0 (MOCK_VOTERS (ensureInitialized db)) = Some (i, v) ->
  failedAttempts v = 0 -> truthy (lockedUntil v) = None ->
  pinHash v <> sha256 p1 -> pinHash v <> sha256 p2 -> pinHash v <> sha256 p3 ->
  exists db1 db2 db3 v3,
    authenticateVoter db nationalId p1 w
    = Ok (mkAuth false None (Some "Invalid credentials") (Some 2), db1, w)
    /\ authenticateVoter db1 nationalId p2 w
       = Ok (mkAuth false None (Some "Invalid credentials") (Some 1), db2, w)
    /\ authenticateVoter db2 nationalId p3 w
       = Ok (mkAuth false None
               (Some "Account locked due to too many failed attempts. Try again in 5 minutes.")
               (Some 0),
             db3, mkWorld (entropy w) (drawn w) (clock w) (S (ticks w)))
    /\ findVoter (sha256 nationalId) 0 (MOCK_VOTERS (ensureInitialized db3)) = Some (i, v3)
    /\ lockedUntil v3 = Some (clock w (ticks w) + 300000)
    /\ failedAttempts v3 = 3
    /\ profile v3 = profile v.
Proof.
  intros Hf H0 Ht Hp1 Hp2 Hp3.
  destruct (findVoter_found _ _ _ _ Hf) as (_ & Hid).
  assert (Hnext : forall db0 v0 v0',
             isInitialized db0 = true ->
             findVoter (sha256 nationalId) 0 (MOCK_VOTERS db0) = Some (i, v0) ->
             nationalIdHash v0' = sha256 nationalId ->
             findVoter (sha256 nationalId) 0
               (MOCK_VOTERS (ensureInitialized (store db0 i v0'))) = Some (i, v0')).
  { intros db0 v0 v0' Hinit Hf0 Hid0.
    rewrite ensureInitialized_once by exact Hinit. cbn [store MOCK_VOTERS].
    pose proof (findVoter_store _ (MOCK_VOTERS db0) v0' Hid0 0%nat i v0 Hf0) as Hs.
    rewrite Nat.sub_0_r in Hs. exact Hs. }
  pose (v1 := mkVoter (nationalIdHash v) (pinHash v) (constituency v) (hasVoted v)
                      (failedAttempts v + 1) (lockedUntil v)).
  pose (v2 := mkVoter (nationalIdHash v) (pinHash v) (constituency v) (hasVoted v)
                      (failedAttempts v + 1 + 1) (lockedUntil v)).
  pose (v3 := mkVoter (nationalIdHash v) (pinHash v) (constituency v) (hasVoted v)
                      (failedAttempts v + 1 + 1 + 1)
                      (Some (clock w (ticks w) + 5 * 60 * 1000))).
  pose (db1 := store (ensureInitialized db) i v1).
  pose (db2 := store (ensureInitialized db1) i v2).
  pose (db3 := store (ensureInitialized db2) i v3).
  assert (Hf1 : findVoter (sha256 nationalId) 0 (MOCK_VOTERS (ensureInitialized db1))
                = Some (i, v1)).
  { apply (Hnext _ v); [apply ensureInitialized_done | exact Hf | exact Hid]. }
  assert (Hi1 : isInitialized (ensureInitialized db1) = true)
    by apply ensureInitialized_done.
  assert (Hf2 : findVoter (sha256 nationalId) 0 (MOCK_VOTERS (ensureInitialized db2))
                = Some (i, v2)).
  { apply (Hnext _ v1); [exact Hi1 | exact Hf1 | exact Hid]. }
  assert (Hf3 : findVoter (sha256 nationalId) 0 (MOCK_VOTERS (ensureInitialized db3))
                = Some (i, v3)).
  { apply (Hnext _ v2); [apply ensureInitialized_done | exact Hf2 | exact Hid]. }
  exists db1, db2, db3, v3.
  assert (Hc1 : (failedAttempts v + 1 >=? 3) = false) by (rewrite H0; reflexivity).
  assert (Hc2 : (failedAttempts v + 1 + 1 >=? 3) = false) by (rewrite H0; reflexivity).
  assert (Hc3 : (failedAttempts v + 1 + 1 + 1 >=? 3) = true) by (rewrite H0; reflexivity).
  split.
  { rewrite (wrong_pin_run db nationalId p1 w i v Hf Ht Hp1), Hc1.
    replace (3 - (failedAttempts v + 1)) with 2 by lia. reflexivity. }
  split.
  { rewrite (wrong_pin_run db1 nationalId p2 w i v1 Hf1 Ht Hp2).
    cbn [v1 failedAttempts nationalIdHash pinHash constituency hasVoted lockedUntil].
    rewrite Hc2. replace (3 - (failedAttempts v + 1 + 1)) with 1 by lia. reflexivity. }
  split.
  { rewrite (wrong_pin_run db2 nationalId p3 w i v2 Hf2 Ht Hp3).
    cbn [v2 failedAttempts nationalIdHash pinHash constituency hasVoted lockedUntil].
    rewrite Hc3. reflexivity. }
  split; [exact Hf3|].
  cbn [v3 lockedUntil failedAttempts].
  split; [reflexivity|]. split; [lia | reflexivity].
Qed.

Lemma three_wrong_pins_lock_witness :
  exists db1 db2 db3 v3,
    authenticateVoter fresh "A123456789" "0000" (ticking 1700000000000 1000)
    = Ok (mkAuth false None (Some "Invalid credentials") (Some 2), db1,
          ticking 1700000000000 1000)
    /\ authenticateVoter db1 "A123456789" "1111" (ticking 1700000000000 1000)
       = Ok (mkAuth false None (Some "Invalid credentials") (Some 1), db2,
             ticking 1700000000000 1000)
    /\ authenticateVoter db2 "A123456789" "2222" (ticking 1700000000000 1000)
       = Ok (mkAuth false None
               (Some "Account locked due to too many failed attempts. Try again in 5 minutes.")
               (Some 0),
             db3, mkWorld (fun _ => 0) 0 (fun n => 1700000000000 + 1000 * Z.of_nat n) 1)
    /\ findVoter (sha256 "A123456789") 0 (MOCK_VOTERS (ensureInitialized db3))
       = Some (0%nat, v3)
    /\ lockedUntil v3 = Some 1700000300000
    /\ failedAttempts v3 = 3
    /\ profile v3
       = profile (mkVoter (sha256 "A123456789") (sha256 "1234") "central-metro" false 0 None).
Proof.
  apply (three_wrong_pins_lock fresh "A123456789" "0000" "1111" "2222"
           (ticking 1700000000000 1000) 0
           (mkVoter (sha256 "A123456789") (sha256 "1234") "central-metro" false 0 None)).
  - reflexivity.
  - reflexivity.
  - reflexivity.
  - vm_compute. intros H. discriminate H.
  - vm_compute. intros H. discriminate H.
  - vm_compute. intros H. discriminate H.
Defined.

(** X28. [authenticateVoter] answers with [success] exactly when the
    identifier's hash is that of a record, the PIN's hash is the record's,
    and the record is not locked at the first reading of the clock (its
    [lockedUntil] is [null], 0 or not after that reading). A successful
    answer carries the stored record, whose failed attempts are then 0,
    and neither [error] nor [attemptsRemaining]. *)
Theorem authenticateVoter_success (db : Db) (nationalId pin : string) (w : World)
    (r : AuthResult) (db' : Db) (w' : World) :
  authenticateVoter db nationalId pin w = Ok (r, db', w') ->
  (success r = true <->
   exists i v,
     findVoter (sha256 nationalId) 0 (MOCK_VOTERS (ensureInitialized db)) = Some (i, v)
     /\ pinHash v = sha256 pin
     /\ match truthy (lockedUntil v) with
        | Some t => t <= clock w (ticks w)
        | None => True
        end)
  /\ (success r = true ->
      exists i v',
        voter r = Some i /\ MOCK_VOTERS db' !! i = Some v'
        /\ nationalIdHash v' = sha256 nationalId /\ failedAttempts v' = 0
        /\ error r = None /\ attemptsRemaining r = None).
Proof.
  intros Hrun. pose proof (authenticateVoter_run db nationalId pin w) as Hcases.
  destruct (findVoter (sha256 nationalId) 0 (MOCK_VOTERS (ensureInitialized db)))
    as [[i v]|] eqn:Hf.
  - destruct Hcases as (r0 & v' & w0 & Hrun0 & Hp & Hs & Hr).
    rewrite Hrun0 in Hrun.
    assert (Er : r0 = r) by congruence.
    assert (Ed : store (ensureInitialized db) i v' = db') by congruence.
    clear Hrun Hrun0. subst r0 db'.
    destruct (findVoter_found _ _ _ _ Hf) as (Hi & Hid).
    split.
    + rewrite Hs. split.
      * intros (Hpin & Hlock). exists i, v. auto.
      * intros (i0 & v0 & E & Hpin & Hlock).
        assert (v0 = v) by congruence. subst v0. auto.
    + intros Hok. destruct (Hr Hok) as (Hv & Hfa & He & Ha).
      exists i, v'. split; [exact Hv|]. split.
      * cbn [store MOCK_VOTERS]. apply list_lookup_insert_eq.
        apply (lookup_lt_Some _ _ _ Hi).
      * split; [unfold profile in Hp; congruence | auto].
  - rewrite Hcases in Hrun.
    assert (Er : mkAuth false None (Some "Invalid credentials") None = r) by congruence.
    subst r. cbn [success]. split.
    + split; [discriminate | intros (i & v & E & _); discriminate E].
    + discriminate.
Qed.

Lemma authenticateVoter_success_witness :
  (success (mkAuth true (Some 0%nat) None None) = true <->
   exists i v,
     findVoter (sha256 "A123456789") 0 (MOCK_VOTERS (ensureInitialized fresh)) = Some (i, v)
     /\ pinHash v = sha256 "1234"
     /\ match truthy (lockedUntil v) with
        | Some t => t <= clock (ticking 1700000000000 1000) (ticks (ticking 1700000000000 1000))
        | None => True
        end)
  /\ (success (mkAuth true (Some 0%nat) None None) = true ->
      exists i v',
        voter (mkAuth true (Some 0%nat) None None) = Some i
        /\ MOCK_VOTERS (ensureInitialized fresh) !! i = Some v'
        /\ nationalIdHash v' = sha256 "A123456789" /\ failedAttempts v' = 0
        /\ error (mkAuth true (Some 0%nat) None None) = None
        /\ attemptsRemaining (mkAuth true (Some 0%nat) None None) = None).
Proof.
  apply (authenticateVoter_success fresh "A123456789" "1234" (ticking 1700000000000 1000)
           (mkAuth true (Some 0%nat) None None) (ensureInitialized fresh)
           (ticking 1700000000000 1000)).
  reflexivity.
Defined.

(** X29. [authenticateVoter] never rejects, and whatever it is given it
    leaves the database initialised, the constituencies as they were, and
    every record's identity hash, PIN hash, constituency and [hasVoted] as
    they were, in the same order; a record other than the one found for the
    identifier is left as a whole. *)
Theorem authenticateVoter_frame (db : Db) (nationalId pin : string) (w : World) :
  exists r db' w',
    authenticateVoter db nationalId pin w = Ok (r, db', w')
    /\ isInitialized db' = true
    /\ CONSTITUENCIES db' = CONSTITUENCIES (ensureInitialized db)
    /\ map profile (MOCK_VOTERS db') = map profile (MOCK_VOTERS (ensureInitialized db))
    /\ (forall j,
          (forall v, findVoter (sha256 nationalId) 0 (MOCK_VOTERS (ensureInitialized db))
                     <> Some (j, v)) ->
          MOCK_VOTERS db' !! j = MOCK_VOTERS (ensureInitialized db) !! j).
Proof.
  pose proof (authenticateVoter_run db nationalId pin w) as Hcases.
  destruct (findVoter (sha256 nationalId) 0 (MOCK_VOTERS (ensureInitialized db)))
    as [[i v]|] eqn:Hf.
  - destruct Hcases as (r & v' & w' & Hrun & Hp & _).
    destruct (findVoter_found _ _ _ _ Hf) as (Hi & _).
    exists r, (store (ensureInitialized db) i v'), w'. split; [exact Hrun|].
    cbn [store MOCK_VOTERS CONSTITUENCIES isInitialized].
    split; [apply ensureInitialized_done|]. split; [reflexivity|]. split.
    + apply (map_store profile _ i v v' Hi Hp).
    + intros j Hj. apply list_lookup_insert_ne. intros ->. apply (Hj v). reflexivity.
  - exists (mkAuth false None (Some "Invalid credentials") None), (ensureInitialized db), w.
    split; [exact Hcases|]. split; [apply ensureInitialized_done|]. auto.
Qed.

(** ** The voter database: what a log-in finds *)

Lemma lookup_map {A B : Type} (f : A -> B) (l : list A) (i : nat) (x : A) :
  l !! i = Some x -> map f l !! i = Some (f x).
Proof.
  revert i. induction l as [|a l IH]; intros [|i] H; try discriminate.
  - injection H as ->. reflexivity.
  - apply (IH i H).
Qed.

Lemma lookup_In {A : Type} (l : list A) (i : nat) (x : A) :
  l !! i = Some x -> In x l.
Proof.
  revert i. induction l as [|a l IH]; intros [|i] H; try discriminate.
  - injection H as ->. left. reflexivity.
  - right. apply (IH i H).
Qed.

Lemma demo_constituencies :
  forallb (resolves (CONSTITUENCIES (ensureInitialized fresh))) (map snd voterData) = true.
Proof. vm_compute. reflexivity. Qed.

Lemma markVoterVoted_kept (db : Db) (idHash : string) :
  isInitialized (markVoterVoted db idHash) = true
  /\ CONSTITUENCIES (markVoterVoted db idHash) = CONSTITUENCIES (ensureInitialized db)
  /\ map constituency (MOCK_VOTERS (markVoterVoted db idHash))
     = map constituency (MOCK_VOTERS (ensureInitialized db)).
Proof.
  unfold markVoterVoted.
  destruct (findVoter idHash 0 (MOCK_VOTERS (ensureInitialized db))) as [[i v]|] eqn:Hf.
  - destruct (findVoter_found _ _ _ _ Hf) as (Hi & _).
    cbn [store MOCK_VOTERS CONSTITUENCIES isInitialized].
    split; [apply ensureInitialized_done|]. split; [reflexivity|].
    apply (map_store constituency _ i v _ Hi). reflexivity.
  - split; [apply ensureInitialized_done|]. auto.
Qed.

Lemma authenticateVoter_kept (db : Db) (nationalId pin : string) (w : World)
    (r : AuthResult) (db' : Db) (w' : World) :
  authenticateVoter db nationalId pin w = Ok (r, db', w') ->
  isInitialized db' = true
  /\ CONSTITUENCIES db' = CONSTITUENCIES (ensureInitialized db)
  /\ map constituency (MOCK_VOTERS db') = map constituency (MOCK_VOTERS (ensureInitialized db)).
Proof.
  intros Hrun. pose proof (authenticateVoter_run db nationalId pin w) as Hcases.
  destruct (findVoter (sha256 nationalId) 0 (MOCK_VOTERS (ensureInitialized db)))
    as [[i v]|] eqn:Hf.
  - destruct Hcases as (r0 & v' & w0 & Hrun0 & Hp & _).
    destruct (findVoter_found _ _ _ _ Hf) as (Hi & _).
    assert (Ed : store (ensureInitialized db) i v' = db') by congruence.
    clear Hrun Hrun0. subst db'.
    cbn [store MOCK_VOTERS CONSTITUENCIES isInitialized].
    split; [apply ensureInitialized_done|]. split; [reflexivity|].
    apply (map_store constituency _ i v v' Hi). unfold profile in Hp. congruence.
  - assert (Ed : ensureInitialized db = db') by congruence.
    clear Hrun Hcases. subst db'.
    split; [apply ensureInitialized_done|]. auto.
Qed.

(** In every state the module reaches, the constituencies are those set at
    initialisation and the records name the demo voters' constituencies. *)
Lemma reachableDb_tables (db : Db) :
  reachableDb db ->
  CONSTITUENCIES (ensureInitialized db) = CONSTITUENCIES (ensureInitialized fresh)
  /\ map constituency (MOCK_VOTERS (ensureInitialized db)) = map snd voterData.
Proof.
  induction 1 as [|db nationalId pin w r db' w' _ (IHc & IHv) Hrun
                  |db k _ (IHc & IHv) |db h _ (IHc & IHv)].
  - split; reflexivity.
  - destruct (authenticateVoter_kept _ _ _ _ _ _ _ Hrun) as (Hi & Hc & Hv).
    rewrite (ensureInitialized_once _ Hi). split; congruence.
  - unfold getConstituency. cbn [snd].
    rewrite (ensureInitialized_once _ (ensureInitialized_done db)). auto.
  - destruct (markVoterVoted_kept db h) as (Hi & Hc & Hv).
    rewrite (ensureInitialized_once _ Hi). split; congruence.
Qed.

(** X30. In any state the module reaches from its load by calls of
    [authenticateVoter], [getConstituency] and [markVoterVoted], a
    successful [authenticateVoter] returns a stored record whose
    constituency [getConstituency] then finds: the result is not [null],
    carries that very identifier and at least one candidate, and the call
    leaves the state as it is. *)
Theorem constituency_of_voter_found (db : Db) (nationalId pin : string) (w : World)
    (r : AuthResult) (db' : Db) (w' : World) :
  reachableDb db ->
  authenticateVoter db nationalId pin w = Ok (r, db', w') ->
  success r = true ->
  exists i v c,
    voter r = Some i /\ MOCK_VOTERS db' !! i = Some v
    /\ getConstituency db' (constituency v) = (Some c, db')
    /\ Constituency.id c = constituency v
    /\ Constituency.candidates c <> [].
Proof.
  intros Hreach Hrun Hok.
  destruct (reachableDb_tables db' (after_authenticateVoter _ _ _ _ _ _ _ Hreach Hrun))
    as (Hc & Hv).
  destruct (authenticateVoter_kept _ _ _ _ _ _ _ Hrun) as (Hi & _).
  rewrite (ensureInitialized_once _ Hi) in Hc, Hv.
  pose proof (authenticateVoter_run db nationalId pin w) as Hcases.
  destruct (findVoter (sha256 nationalId) 0 (MOCK_VOTERS (ensureInitialized db)))
    as [[i v]|] eqn:Hf.
  - destruct Hcases as (r0 & v' & w0 & Hrun0 & Hp & _ & Hr).
    rewrite Hrun0 in Hrun.
    assert (Er : r0 = r) by congruence.
    assert (Ed : store (ensureInitialized db) i v' = db') by congruence.
    clear Hrun Hrun0. subst r0.
    destruct (Hr Hok) as (Hvoter & _).
    destruct (findVoter_found _ _ _ _ Hf) as (Hlook & _).
    assert (Hi' : MOCK_VOTERS db' !! i = Some v').
    { rewrite <- Ed. cbn [store MOCK_VOTERS]. apply list_lookup_insert_eq.
      apply (lookup_lt_Some _ _ _ Hlook). }
    pose proof (lookup_map constituency _ _ _ Hi') as Hk. rewrite Hv in Hk.
    pose proof demo_constituencies as Hall.
    rewrite forallb_forall in Hall.
    assert (Hin : In (constituency v') (map snd voterData)).
    { apply (lookup_In _ i). exact Hk. }
    specialize (Hall _ Hin). unfold resolves in Hall. rewrite <- Hc in Hall.
    destruct (CONSTITUENCIES db' !! constituency v') as [c|] eqn:Hget; [|discriminate Hall].
    apply andb_prop in Hall. destruct Hall as (Hid & Hcand).
    exists i, v', c. split; [exact Hvoter|]. split; [exact Hi'|].
    split.
    { unfold getConstituency. rewrite (ensureInitialized_once _ Hi), Hget. reflexivity. }
    split; [apply String.eqb_eq; exact Hid|].
    intros E. rewrite E in Hcand. discriminate Hcand.
  - rewrite Hcases in Hrun.
    assert (Er : mkAuth false None (Some "Invalid credentials") None = r) by congruence.
    subst r. discriminate Hok.
Qed.

Lemma constituency_of_voter_found_witness :
  exists i v c,
    voter (mkAuth true (Some 1%nat) None None) = Some i
    /\ MOCK_VOTERS (ensureInitialized fresh) !! i = Some v
    /\ getConstituency (ensureInitialized fresh) (constituency v)
       = (Some c, ensureInitialized fresh)
    /\ Constituency.id c = constituency v
    /\ Constituency.candidates c <> [].
Proof.
  apply (constituency_of_voter_found fresh "B987654321" "5678"
           (ticking 1700000000000 1000)
           (mkAuth true (Some 1%nat) None None) (ensureInitialized fresh)
           (ticking 1700000000000 1000)).
  - exact at_load.
  - reflexivity.
  - reflexivity.
Defined.
